(** * Google Maps image scraper: URL normalisation, file names, ledger,
      extraction loop, download manager and outer retry loop.

    A shallow embedding of [google_maps_image_scraper.py].  Python strings are
    sequences of Unicode code points; the two regular expressions classes the
    program relies on ([\d] and [\s] on [str] patterns) are the Unicode ones. *)

From Stdlib Require Import ZArith NArith Ascii String List Lia Bool.
From stdpp Require Import base list gmap sets pretty.
From Equations Require Import Equations.
Import ListNotations.

(** ** Strings *)

(** A Python [str]: a list of code points. *)
Definition pystr := list N.

(** An ASCII literal of the source as a [pystr]. *)
Definition lit (s : string) : pystr :=
  List.map N_of_ascii (list_ascii_of_string s).

Definition in_chars (cs : pystr) (c : N) : bool := existsb (N.eqb c) cs.

Fixpoint drop_while (f : N -> bool) (s : pystr) : pystr :=
  match s with
  | [] => []
  | c :: s' => if f c then drop_while f s' else s
  end.

(** [a in b] on strings. *)
Fixpoint starts_with (p s : pystr) : bool :=
  match p, s with
  | [], _ => true
  | _ :: _, [] => false
  | a :: p', b :: s' => N.eqb a b && starts_with p' s'
  end.

Fixpoint contains (needle hay : pystr) : bool :=
  starts_with needle hay ||
  match hay with
  | [] => false
  | _ :: hay' => contains needle hay'
  end.

(** ** The fragment of [re] the program uses *)

Module Re.

(** First code point of every run of Unicode decimal digits (category Nd);
    each run has ten members, except the mathematical digits, which are
    five runs in a row. *)
Definition decimal_runs : list (N * N) :=
  [ (48, 10); (1632, 10); (1776, 10); (1984, 10); (2406, 10); (2534, 10);
    (2662, 10); (2790, 10); (2918, 10); (3046, 10); (3174, 10); (3302, 10);
    (3430, 10); (3558, 10); (3664, 10); (3792, 10); (3872, 10); (4160, 10);
    (4240, 10); (6112, 10); (6160, 10); (6470, 10); (6608, 10); (6784, 10);
    (6800, 10); (6992, 10); (7088, 10); (7232, 10); (7248, 10); (42528, 10);
    (43216, 10); (43264, 10); (43472, 10); (43504, 10); (43600, 10);
    (44016, 10); (65296, 10); (66720, 10); (68912, 10); (69734, 10);
    (69872, 10); (69942, 10); (70096, 10); (70384, 10); (70736, 10);
    (70864, 10); (71248, 10); (71360, 10); (71472, 10); (71904, 10);
    (72016, 10); (72784, 10); (73040, 10); (73120, 10); (92768, 10);
    (92864, 10); (93008, 10); (120782, 50); (123200, 10); (123632, 10);
    (125264, 10); (130032, 10) ]%N.

(** [\d] of a [str] pattern. *)
Definition is_decimal (c : N) : bool :=
  existsb (fun r => (fst r <=? c)%N && (c <? fst r + snd r)%N) decimal_runs.

(** [\s] of a [str] pattern: the code points [str.isspace] accepts. *)
Definition whitespace : list N :=
  [ 9; 10; 11; 12; 13; 28; 29; 30; 31; 32; 133; 160; 5760;
    8192; 8193; 8194; 8195; 8196; 8197; 8198; 8199; 8200; 8201; 8202;
    8232; 8233; 8239; 8287; 12288 ]%N.

Definition is_space (c : N) : bool := in_chars whitespace c.

(** A pattern is a sequence of atoms: a character class, taken once or
    (with [+]) one or more times. *)
Inductive quant := Once | Plus.

Record atom := Atom { cls : N -> bool; rep : quant }.

Definition pattern := list atom.

Definition chr (c : N) : atom := Atom (N.eqb c) Once.

(** Greedy repetition with backtracking: take as many as possible, give
    characters back until the continuation [k] succeeds. *)
Fixpoint greedy (cl : N -> bool) (k : pystr -> option pystr) (s : pystr)
  : option pystr :=
  match s with
  | [] => k []
  | c :: s' =>
      if cl c then
        match greedy cl k s' with
        | Some r => Some r
        | None => k s
        end
      else k s
  end.

(** [match_here p s]: the pattern matched at the start of [s]; the result
    is what follows the match. *)
Fixpoint match_here (p : pattern) : pystr -> option pystr :=
  match p with
  | [] => fun s => Some s
  | a :: p' =>
      fun s =>
        match s with
        | [] => None
        | c :: s' =>
            if cls a c then
              match rep a with
              | Once => match_here p' s'
              | Plus => greedy (cls a) (match_here p') s'
              end
            else None
        end
  end.

(** [re.sub(p, repl, s)]: leftmost non-overlapping matches, scanned from
    the left, each replaced by [repl]; an empty match is replaced and the
    character after it copied. *)
Equations? sub (p : pattern) (repl : pystr) (s : pystr) : pystr
  by wf (length s) lt :=
sub p repl [] := match match_here p [] with Some _ => repl | None => [] end;
sub p repl (c :: s') with match_here p (c :: s') := {
  | None => c :: sub p repl s'
  | Some rest with le_dec (length rest) (length s') := {
      | left _ => repl ++ sub p repl rest
      | right _ => repl ++ c :: sub p repl s' } }.
Proof. all: simpl; lia. Qed.

End Re.

(** ** URL normaliser

    [re.sub(r'=w\d+-h\d+', '=w0-h0', url)], as written in
    [extract_image_urls] and [_extract_images_direct]. *)

Definition dim_pattern : Re.pattern :=
  [ Re.chr 61; Re.chr 119; Re.Atom Re.is_decimal Re.Plus;
    Re.chr 45; Re.chr 104; Re.Atom Re.is_decimal Re.Plus ]%N.

Definition high_res (url : pystr) : pystr :=
  Re.sub dim_pattern (lit "=w0-h0") url.

(** ** File names *)

(** The nine characters of the class in the first substitution of
    [_sanitize_filename]: backslash, slash, star, question mark, colon,
    double quote, less-than, greater-than and bar. *)
Definition unsafe_chars : pystr := [92; 47; 42; 63; 58; 34; 60; 62; 124]%N.

Definition lstrip (cs s : pystr) : pystr := drop_while (in_chars cs) s.

Definition rstrip (cs s : pystr) : pystr :=
  reverse (drop_while (in_chars cs) (reverse s)).

(** [str.strip(chars)] *)
Definition strip (cs s : pystr) : pystr := rstrip cs (lstrip cs s).

Definition _sanitize_filename (filename : pystr) : pystr :=
  let sanitized :=
    Re.sub [Re.Atom (in_chars unsafe_chars) Re.Once] (lit "_") filename in
  let sanitized := strip (lit ". ") sanitized in
  let sanitized :=
    Re.sub [Re.Atom Re.is_space Re.Plus] (lit "_") sanitized in
  sanitized.

(** ** Exceptions *)

Inductive exn :=
| IOError
| FileExistsError
| TimeoutException
| StaleElementReferenceException
| RequestException
| ValueError.

Inductive result (A : Type) :=
| Ok (a : A)
| Raise (e : exn).

Arguments Ok {A} a.
Arguments Raise {A} e.

(** ** Disk and network *)

Record ledger_row := Row { row_index : Z; row_url : pystr; row_timestamp : pystr }.

(** A node of the disk: a directory, or a file with the bytes written to it
    and, after them, the rows appended to it through [csv.writer]. *)
Inductive node :=
| Dir
| File (content : list N) (appended : list ledger_row).

(** What [requests.get] followed by [raise_for_status] meets: a success
    status with its body, an error status, or a transport failure. *)
Inductive response :=
| Status200 (content : list N)
| StatusError
| ConnectionError.

(** The nodes on disk, the requests sent so far, and the calls of
    [save_url_to_csv] made so far (index and URL, written or not). *)
Record world := World {
  files : gmap pystr node;
  requests : list pystr;
  saves : list (Z * pystr)
}.

Definition with_files (m : gmap pystr node) (wd : world) : world :=
  World m (requests wd) (saves wd).

(** The surroundings of a download: the answer to the n-th request for a
    URL within one call, the paths that cannot be opened for writing, the
    directories that cannot be made, the extension
    [os.path.splitext(unquote(urlparse(url).path))[1]] of a URL ([None]
    when [urlparse] raises), and the download directory of the scraper. *)
Record download_env := DownloadEnv {
  get : pystr -> nat -> response;
  write_fails : pystr -> bool;
  mkdir_fails : pystr -> bool;
  url_ext : pystr -> option pystr;
  download_dir : pystr
}.

(** [os.path.join] of two components (POSIX). *)
Definition path_join (a b : pystr) : pystr :=
  if starts_with (lit "/") b then b
  else if bool_decide (a = []) || bool_decide (last a = Some 47%N) then a ++ b
  else a ++ lit "/" ++ b.

Definition path_exists (wd : world) (p : pystr) : bool :=
  bool_decide (is_Some (files wd !! p)).

Definition is_dir (wd : world) (p : pystr) : bool :=
  match files wd !! p with
  | Some Dir => true
  | _ => false
  end.

(** [os.makedirs(p)], without [exist_ok]: a path that is there is refused
    with [FileExistsError], also when it is a directory; whatever else can
    go wrong (a file above [p], permissions) is for the surroundings to
    say.  The directories made above [p] on the way are not recorded. *)
Definition makedirs (E : download_env) (wd : world) (p : pystr) : result world :=
  if path_exists wd p then Raise FileExistsError
  else if mkdir_fails E p then Raise IOError
  else Ok (with_files (<[p := Dir]> (files wd)) wd).

(** [if not os.path.exists(p): os.makedirs(p)] *)
Definition ensure_dir (E : download_env) (wd : world) (p : pystr) : result world :=
  if path_exists wd p then Ok wd else makedirs E wd p.

(** [open(p, 'w')] or [open(p, 'wb')] with one write, for a file [p] that
    lies in [dir]: the directory must be there, [p] must not be a directory
    and the surroundings must allow it; the file then holds [content] and
    nothing else. *)
Definition write_file (E : download_env) (wd : world) (dir p : pystr)
  (content : list N) : result world :=
  if negb (is_dir wd dir) then Raise IOError
  else if is_dir wd p then Raise IOError
  else if write_fails E p then Raise IOError
  else Ok (with_files (<[p := File content []]> (files wd)) wd).

(** [os.path.getsize]; a row appended through [csv.writer] is counted as
    one unit (the program only compares the size of an image with zero). *)
Definition getsize (wd : world) (p : pystr) : nat :=
  match files wd !! p with
  | Some (File content rows) => length content + length rows
  | _ => 0
  end.

(** ** Ledger *)

(** How the body of [save_url_to_csv] ends: the row is written and the body
    runs to its end; the file cannot be opened or written; or the row is
    written and flushed and a later statement of the body raises (the
    progress print, the log, closing the file). *)
Inductive append := Appended | Refused | RaisedAfterFlush.

(** What the disk and the clock do to the ledger: the end of the n-th call
    of [save_url_to_csv], the timestamp it writes, and the timestamp
    [create_csv_file] puts into the file name. *)
Record csv_world := CsvWorld {
  csv_append : nat -> append;
  now : nat -> pystr;
  stamp : pystr
}.

(** The row [csv_writer.writerow(['index', 'image_url', 'timestamp'])]
    writes. *)
Definition csv_header : list N := lit "index,image_url,timestamp" ++ [13; 10]%N.

(** [create_csv_file(location_name)]: the directory of the location is
    made when it is not there, and the ledger is created in it with its
    header row.  Nothing is caught here. *)
Definition create_csv_file (E : download_env) (w : csv_world)
  (location_name : pystr) (wd : world) : result pystr * world :=
  let location_dir := path_join (download_dir E) (_sanitize_filename location_name) in
  match ensure_dir E wd location_dir with
  | Raise e => (Raise e, wd)
  | Ok wd =>
      let csv_filename :=
        _sanitize_filename location_name ++ lit "_urls_" ++ stamp w ++ lit ".csv" in
      let csv_path := path_join location_dir csv_filename in
      match write_file E wd location_dir csv_path csv_header with
      | Raise e => (Raise e, wd)
      | Ok wd => (Ok csv_path, wd)
      end
  end.

(** The body of the [try] of [save_url_to_csv]: open for append (which
    makes the file when it is not there; whether the file can be opened and
    written is for [csv_append] to say, but a directory never can), write
    one row, flush; then the progress print and the log, and the file is
    closed. *)
Definition append_row (w : csv_world) (csv_path url : pystr) (index : Z)
  (wd : world) : result unit * world :=
  let n := length (saves wd) in
  let wd := World (files wd) (requests wd) (saves wd ++ [(index, url)]) in
  match csv_append w n, files wd !! csv_path with
  | Refused, _ | _, Some Dir => (Raise IOError, wd)
  | ending, node =>
      let row := Row index url (now w n) in
      let file :=
        match node with
        | Some (File content rows) => File content (rows ++ [row])
        | _ => File [] [row]
        end in
      (match ending with Appended => Ok tt | _ => Raise IOError end,
       with_files (<[csv_path := file]> (files wd)) wd)
  end.

(** [save_url_to_csv]: the handler turns every exception into [False]. *)
Definition save_url_to_csv (w : csv_world) (csv_path url : pystr) (index : Z)
  (wd : world) : bool * world :=
  match append_row w csv_path url index wd with
  | (Ok _, wd') => (true, wd')
  | (Raise _, wd') => (false, wd')
  end.

(** ** Extractor

    The browser is outside the program: what it shows is given, locator by
    locator and iteration by iteration.  Every read of the page in the
    gallery loop sits in a [try] of its own whose handler catches
    [Exception], so the two handlers around the loop body are not reached
    and are left out. *)

Definition googleusercontent : pystr := lit "googleusercontent.com".

(** One element a locator returned: not displayed; displayed, with the value
    its [src] read ended with (after the retries on a stale reference); one
    whose inspection raises [StaleElementReferenceException]; one whose
    inspection raises something else. *)
Inductive element :=
| Hidden
| Shown (src : option pystr)
| Stale
| Broken.

(** What the page shows during one iteration of the gallery loop. *)
Record step_obs := StepObs {
  img_selectors : list (option (list element));
  all_imgs : option (list pystr);
  next_clicked : bool
}.

(** What the current page shows to the extractor. *)
Record page := Page {
  in_gallery_view : bool;
  gallery : list step_obs;
  js_images : option (list pystr);
  image_selectors : list (option (list element))
}.

(** The dedup set, the next ledger index and the disk. *)
Record harvest := Harvest {
  image_urls : gset pystr;
  url_index : Z;
  fs : world
}.

Record gallery_state := GalleryState {
  seen : harvest;
  consecutive_errors : Z;
  last_count : nat;
  scroll_attempts : Z
}.

Definition max_consecutive_errors : Z := 5.
Definition max_scroll_attempts : Z := 30.

Section Extractor.

Variable w : csv_world.
(** The ledger, when one is kept ([self.save_csv and location_name]). *)
Variable csv_path : option pystr.

(** [image_urls.add(high_res_url)], with the real-time ledger write; the
    result of [save_url_to_csv] is not looked at. *)
Definition add_url (high_res_url : pystr) (h : harvest) : harvest :=
  let urls := {[ high_res_url ]} ∪ image_urls h in
  match csv_path with
  | Some p =>
      Harvest urls (url_index h + 1)
        (snd (save_url_to_csv w p high_res_url (url_index h) (fs h)))
  | None => Harvest urls (url_index h) (fs h)
  end.

(** The same under [if high_res_url not in image_urls]. *)
Definition add_new (high_res_url : pystr) (h : harvest) : harvest :=
  if decide (high_res_url ∈ image_urls h) then h else add_url high_res_url h.

(** The block guarded by ["googleusercontent.com" in url] in the gallery
    loop; it ends with [consecutive_errors = 0]. *)
Definition visit (url : pystr) (st : gallery_state) : gallery_state :=
  GalleryState (add_new (high_res url) (seen st)) 0
    (last_count st) (scroll_attempts st).

(** [for img_element in img_elements]: the first displayed element whose
    source is an asset URL is taken and ends this loop; an exception
    abandons the selector. *)
Fixpoint scan_elements (els : list element) (st : gallery_state)
  : gallery_state * bool :=
  match els with
  | [] => (st, false)
  | Hidden :: els' => scan_elements els' st
  | Stale :: _ | Broken :: _ => (st, false)
  | Shown None :: els' => scan_elements els' st
  | Shown (Some url) :: els' =>
      if contains googleusercontent url then (visit url st, true)
      else scan_elements els' st
  end.

(** [for selector in img_selectors]: every selector is tried, also after
    one of them found an image. *)
Fixpoint scan_selectors (sels : list (option (list element)))
  (st : gallery_state) (found_image : bool) : gallery_state * bool :=
  match sels with
  | [] => (st, found_image)
  | None :: sels' => scan_selectors sels' st found_image
  | Some els :: sels' =>
      let '(st', found) := scan_elements els st in
      scan_selectors sels' st' (found_image || found)
  end.

(** [for url in all_imgs] of the script-driven query. *)
Fixpoint scan_all_imgs (urls : list pystr) (st : gallery_state)
  (found_image : bool) : gallery_state * bool :=
  match urls with
  | [] => (st, found_image)
  | url :: urls' =>
      if contains googleusercontent url
      then scan_all_imgs urls' (visit url st) true
      else scan_all_imgs urls' st found_image
  end.

Inductive flow := Break (st : gallery_state) | Continue (st : gallery_state).

(** [max_images and len(image_urls) >= max_images] *)
Definition max_reached (max_images : option Z) (st : gallery_state) : bool :=
  match max_images with
  | None => false
  | Some m => negb (m =? 0)%Z && (m <=? Z.of_nat (size (image_urls (seen st))))%Z
  end.

(** One iteration of [while True] in [extract_image_urls]. *)
Definition gallery_step (max_images : option Z) (o : step_obs)
  (st : gallery_state) : flow :=
  let '(st, found_image) := scan_selectors (img_selectors o) st false in
  let '(st, found_image) :=
    if found_image then (st, found_image)
    else match all_imgs o with
         | Some urls => scan_all_imgs urls st found_image
         | None => (st, found_image)
         end in
  let st :=
    if found_image then st
    else GalleryState (seen st) (consecutive_errors st + 1)
           (last_count st) (scroll_attempts st) in
  if negb found_image && (max_consecutive_errors <=? consecutive_errors st)%Z
  then Break st
  else if max_reached max_images st then Break st
  else if negb (next_clicked o) then Break st
  else
    let n := size (image_urls (seen st)) in
    let sa := if decide (n = last_count st) then (scroll_attempts st + 1)%Z else 0%Z in
    let st := GalleryState (seen st) (consecutive_errors st) n sa in
    if (max_scroll_attempts <=? sa)%Z then Break st else Continue st.

(** The loop over what the page shows, iteration by iteration: the state
    reached, and whether the loop has been left by then. *)
Fixpoint gallery_loop (max_images : option Z) (trace : list step_obs)
  (st : gallery_state) : gallery_state * bool :=
  match trace with
  | [] => (st, false)
  | o :: trace' =>
      match gallery_step max_images o st with
      | Break st' => (st', true)
      | Continue st' => gallery_loop max_images trace' st'
      end
  end.

(** *** Direct scan *)

(** [for url in js_images]: added and written without a membership test. *)
Fixpoint direct_js (urls : list pystr) (h : harvest) : harvest :=
  match urls with
  | [] => h
  | url :: urls' =>
      if contains googleusercontent url
      then direct_js urls' (add_url (high_res url) h)
      else direct_js urls' h
  end.

(** [for element in elements]: a stale element is skipped, any other
    exception abandons the selector. *)
Fixpoint direct_elements (els : list element) (h : harvest) : harvest :=
  match els with
  | [] => h
  | Hidden :: els' | Stale :: els' | Shown None :: els' => direct_elements els' h
  | Broken :: _ => h
  | Shown (Some url) :: els' =>
      if contains googleusercontent url
      then direct_elements els' (add_new (high_res url) h)
      else direct_elements els' h
  end.

Fixpoint direct_selectors (sels : list (option (list element))) (h : harvest)
  : harvest :=
  match sels with
  | [] => h
  | None :: sels' => direct_selectors sels' h
  | Some els :: sels' => direct_selectors sels' (direct_elements els h)
  end.

End Extractor.

(** [_extract_images_direct(csv_path)]; an exception of the script query
    is caught and leaves the set empty.  The harvest is returned with the
    list so that the disk can be read after the ledger writes. *)
Definition _extract_images_direct (w : csv_world) (csv_path : option pystr)
  (pg : page) (wd : world) : list pystr * harvest :=
  let h0 := Harvest ∅ 1 wd in
  let h :=
    match js_images pg with
    | None => h0
    | Some urls =>
        let h := direct_js w csv_path urls h0 in
        if decide (size (image_urls h) < 5)
        then direct_selectors w csv_path (image_selectors pg) h
        else h
    end in
  (elements (image_urls h), h).

(** [for i, url in enumerate(direct_urls): save_url_to_csv(csv_path, url, i+1)] *)
Fixpoint save_enumerated (w : csv_world) (csv_path : pystr) (urls : list pystr)
  (i : Z) (wd : world) : world :=
  match urls with
  | [] => wd
  | url :: urls' =>
      save_enumerated w csv_path urls' (i + 1)
        (snd (save_url_to_csv w csv_path url (i + 1) wd))
  end.

(** The block [if self.save_csv and location_name] at the head of
    [extract_image_urls]: the path of the ledger, when one is kept. *)
Definition setup_csv (E : download_env) (w : csv_world) (save_csv : bool)
  (location_name : pystr) (wd : world) : result (option pystr) * world :=
  if save_csv && bool_decide (location_name <> []) then
    match create_csv_file E w location_name wd with
    | (Ok csv_path, wd) => (Ok (Some csv_path), wd)
    | (Raise e, wd) => (Raise e, wd)
    end
  else (Ok None, wd).

Definition gallery_start (wd : world) : gallery_state :=
  GalleryState (Harvest ∅ 1 wd) 0 0 0.

(** [extract_image_urls(max_images, location_name)], with the attempts to
    enter the gallery reduced to their outcome [in_gallery_view].  The
    first component is [None] while the gallery loop has not been left,
    the list returned or the exception raised (by [create_csv_file])
    otherwise; the second is the disk. *)
Definition extract_image_urls (E : download_env) (w : csv_world) (save_csv : bool)
  (max_images : option Z) (location_name : pystr) (pg : page) (wd : world)
  : option (result (list pystr)) * world :=
  match setup_csv E w save_csv location_name wd with
  | (Raise e, wd) => (Some (Raise e), wd)
  | (Ok csv_path, wd) =>
      if negb (in_gallery_view pg) then
        let direct_urls := fst (_extract_images_direct w None pg wd) in
        let wd :=
          match csv_path with
          | Some p =>
              if bool_decide (direct_urls <> [])
              then save_enumerated w p direct_urls 0 wd else wd
          | None => wd
          end in
        (Some (Ok direct_urls), wd)
      else
        let '(st, exited) :=
          gallery_loop w csv_path max_images (gallery pg) (gallery_start wd) in
        (if exited then Some (Ok (elements (image_urls (seen st)))) else None,
         fs (seen st))
  end.

(** ** Download manager *)

Definition max_retries : nat := 3.

Section Download.

Variable E : download_env.

(** [for retry in range(max_retries)] around [requests.get]: the first good
    answer leaves the loop, the last failure is raised again. *)
Fixpoint request_loop (url : pystr) (range : list nat) (wd : world)
  : result (list N) * world :=
  match range with
  | [] => (Raise RequestException, wd)
  | retry :: range' =>
      let wd' := World (files wd) (requests wd ++ [url]) (saves wd) in
      match get E url retry with
      | Status200 content => (Ok content, wd')
      | _ =>
          if retry <? max_retries - 1 then request_loop url range' wd'
          else (Raise RequestException, wd')
      end
  end.

Definition location_dir (location_name : pystr) : pystr :=
  path_join (download_dir E) (_sanitize_filename location_name).

(** [filepath], from the parsed URL; [None] when [urlparse] raises. *)
Definition file_path (url location_name : pystr) (index : Z) : option pystr :=
  match url_ext E url with
  | None => None
  | Some ext =>
      let ext := if bool_decide (ext = []) || bool_decide (ext = lit ".")
                 then lit ".jpg" else ext in
      let filename :=
        _sanitize_filename location_name ++ lit "_" ++ lit (pretty index) ++ ext in
      Some (path_join (location_dir location_name) filename)
  end.

(** The body of the [try] of [download_image]: the directory, the file
    name, the request loop, and only then the test for an existing file. *)
Definition download_body (url location_name : pystr) (index : Z) (wd : world)
  : result bool * world :=
  match ensure_dir E wd (location_dir location_name) with
  | Raise e => (Raise e, wd)
  | Ok wd =>
      match file_path url location_name index with
      | None => (Raise ValueError, wd)
      | Some filepath =>
          match request_loop url (seq 0 max_retries) wd with
          | (Raise e, wd) => (Raise e, wd)
          | (Ok content, wd) =>
              if path_exists wd filepath then (Ok true, wd)
              else
                match write_file E wd (location_dir location_name) filepath content with
                | Raise e => (Raise e, wd)
                | Ok wd =>
                    (Ok (path_exists wd filepath && (0 <? getsize wd filepath)), wd)
                end
          end
      end
  end.

(** [download_image]: both handlers turn an exception into [False]. *)
Definition download_image (url location_name : pystr) (index : Z) (wd : world)
  : bool * world :=
  match download_body url location_name index wd with
  | (Ok b, wd') => (b, wd')
  | (Raise _, wd') => (false, wd')
  end.

(** *** The pool

    [download_all_images] hands one call of [download_image] per URL to a
    [ThreadPoolExecutor]; the calls run side by side and meet on the disk.
    A call is cut at its system calls and requests. *)

(** Where a call of [download_image] stands. *)
Inductive task :=
| Queued
| Start
| Mkdir
| Fetch (filepath : pystr) (retry : nat)
| Found (filepath : pystr) (content : list N)
| Save (filepath : pystr) (content : list N)
| Saved (filepath : pystr)
| Done (ok : bool).

(** What follows the directory: the file name is worked out, and the first
    request is next. *)
Definition parsed (url location_name : pystr) (index : Z) : task :=
  match file_path url location_name index with
  | Some filepath => Fetch filepath 0
  | None => Done false
  end.

(** One move of a call: [Queued], a worker takes it; [Start],
    [os.path.exists(location_dir)]; [Mkdir], [os.makedirs(location_dir)];
    [Fetch], one [requests.get]; [Found], [os.path.exists(filepath)];
    [Save], the file is opened and written; [Saved], the size check. *)
Definition task_step (url location_name : pystr) (index : Z) (t : task)
  (wd : world) : task * world :=
  match t with
  | Queued => (Start, wd)
  | Start =>
      (if path_exists wd (location_dir location_name)
       then parsed url location_name index else Mkdir, wd)
  | Mkdir =>
      match makedirs E wd (location_dir location_name) with
      | Ok wd' => (parsed url location_name index, wd')
      | Raise _ => (Done false, wd)
      end
  | Fetch filepath retry =>
      let wd' := World (files wd) (requests wd ++ [url]) (saves wd) in
      match get E url retry with
      | Status200 content => (Found filepath content, wd')
      | _ =>
          (if retry <? max_retries - 1 then Fetch filepath (S retry) else Done false,
           wd')
      end
  | Found filepath content =>
      (if path_exists wd filepath then Done true else Save filepath content, wd)
  | Save filepath content =>
      match write_file E wd (location_dir location_name) filepath content with
      | Ok wd' => (Saved filepath, wd')
      | Raise _ => (Done false, wd)
      end
  | Saved filepath =>
      (Done (path_exists wd filepath && (0 <? getsize wd filepath)), wd)
  | Done ok => (Done ok, wd)
  end.

Definition under_way (t : task) : bool :=
  match t with
  | Queued | Done _ => false
  | _ => true
  end.

Definition queued (t : task) : bool :=
  match t with
  | Queued => true
  | _ => false
  end.

(** The task at position [j] of the list makes one move. *)
Definition step_at (urls : list pystr) (location_name : pystr)
  (p : list task * world) (j : nat) : list task * world :=
  match fst p !! j, urls !! j with
  | Some t, Some url =>
      let '(t', wd') := task_step url location_name (Z.of_nat j + 1) t (snd p) in
      (<[j := t']> (fst p), wd')
  | _, _ => p
  end.

(** The task at position [j] can move: a task that was taken always can; a
    queued one is taken when the tasks submitted before it have been taken
    and fewer than [max_workers] tasks are under way. *)
Definition enabled (max_workers : Z) (ts : list task) (j : nat) : bool :=
  match ts !! j with
  | Some Queued =>
      forallb (fun t => negb (queued t)) (take j ts)
      && (Z.of_nat (length (List.filter under_way ts)) <? max_workers)%Z
  | Some _ => true
  | None => false
  end.

Definition pool_move (urls : list pystr) (location_name : pystr)
  (max_workers : Z) (p : list task * world) (j : nat) : list task * world :=
  if enabled max_workers (fst p) j then step_at urls location_name p j else p.

(** Nine moves bring a task to its end from wherever it stands; the tasks
    are finished one after the other, in the order of submission. *)
Definition drain (n : nat) : list nat :=
  flat_map (fun j => replicate 9 j) (seq 0 n).

(** The tasks of the pool: the workers move in the order [schedule] names
    (a position that cannot move is passed over), and when the schedule is
    used up what is left of the tasks is finished. *)
Definition run_futures (schedule : list nat) (urls : list pystr)
  (location_name : pystr) (max_workers : Z) (wd : world) : list task * world :=
  fold_left (step_at urls location_name) (drain (length urls))
    (fold_left (pool_move urls location_name max_workers) schedule
       (replicate (length urls) Queued, wd)).

Definition succeeded (t : task) : bool :=
  match t with
  | Done true => true
  | _ => false
  end.

(** [if future.result(): successful_downloads += 1], over the futures. *)
Definition successful_downloads (ts : list task) : Z :=
  Z.of_nat (length (List.filter succeeded ts)).

(** [download_all_images]; [ThreadPoolExecutor] refuses a pool of no
    workers. *)
Definition download_all_images (schedule : list nat) (image_urls : list pystr)
  (location_name : pystr) (max_workers : Z) (wd : world) : result Z * world :=
  match image_urls with
  | [] => (Ok 0%Z, wd)
  | _ =>
      if (max_workers <=? 0)%Z then (Raise ValueError, wd)
      else
        let '(ts, wd') :=
          run_futures schedule image_urls location_name max_workers wd in
        (Ok (successful_downloads ts), wd')
  end.

End Download.

(** ** Orchestrator *)

(** One browser session: what the navigator reports and what the page then
    shows, the disk and clock the ledger meets, and the order in which the
    workers of the pool move. *)
Record session := Session {
  search_location : bool;
  open_photos_section : bool;
  shown : page;
  ledger_world : csv_world;
  workers : list nat
}.

(** [scrape_location_images]: [None] when the gallery loop was not left. *)
Definition scrape_location_images (E : download_env) (save_csv : bool)
  (b : session) (location_name : pystr) (max_images : option Z)
  (max_workers : Z) (wd : world) : option ((bool * Z) * world) :=
  if negb (search_location b) then Some ((false, 0%Z), wd)
  else if negb (open_photos_section b) then Some ((false, 0%Z), wd)
  else
    match extract_image_urls E (ledger_world b) save_csv max_images
            location_name (shown b) wd with
    | (None, _) => None
    | (Some (Raise _), wd) => Some ((false, 0%Z), wd)
    | (Some (Ok image_urls), wd) =>
        if bool_decide (image_urls = []) then Some ((true, 0%Z), wd)
        else if (max_workers =? 0)%Z
        then Some ((true, Z.of_nat (length image_urls)), wd)
        else
          match download_all_images E (workers b) image_urls location_name
                  max_workers wd with
          | (Ok downloaded_count, wd') => Some ((true, downloaded_count), wd')
          | (Raise _, wd') => Some ((false, 0%Z), wd')
          end
    end.

Record args := Args {
  location : pystr;
  max_images : option Z;
  max_workers : Z;
  retry_attempts : Z;
  no_csv : bool;
  only_csv : bool
}.

(** The variables of the retry loop of [main], the number of calls of
    [scrape_location_images] made so far, and the disk. *)
Record main_state := MainState {
  success : bool;
  downloaded_count : Z;
  attempts : Z;
  invocations : nat;
  disk : world
}.

Section Main.

Variable E : download_env.
Variable a : args.
(** The session the n-th call of [scrape_location_images] runs in. *)
Variable sessions : nat -> session.

(** [while not success and attempts < args.retry_attempts] *)
Equations? retry_loop (st : main_state) : option main_state
  by wf (Z.to_nat (retry_attempts a - attempts st)) lt :=
retry_loop st with Z_lt_dec (attempts st) (retry_attempts a) := {
  | right _ => Some st
  | left _ =>
      if success st then Some st
      else
        match scrape_location_images E (negb (no_csv a))
                (sessions (invocations st)) (location a) (max_images a)
                (if only_csv a then 0%Z else max_workers a) (disk st) with
        | None => None
        | Some ((success', downloaded_count'), wd') =>
            if success' && ((0 <? downloaded_count')%Z || only_csv a)
            then Some (MainState success' downloaded_count' (attempts st)
                         (S (invocations st)) wd')
            else retry_loop (MainState success' downloaded_count'
                               (attempts st + 1) (S (invocations st)) wd')
        end }.
Proof. simpl. lia. Qed.

(** [main] after the arguments are parsed: the final state of the loop and
    the exit code (what lies between the two only prints). *)
Definition main (wd : world) : option (main_state * Z) :=
  match retry_loop (MainState false 0 0 0 wd) with
  | None => None
  | Some st => Some (st, if success st then 0%Z else 1%Z)
  end.

End Main.

(** ** Notions the statements use *)

(** A string that is empty or starts outside the class [f]. *)
Definition stops (f : N -> bool) (s : pystr) : Prop :=
  match s with
  | [] => True
  | c :: _ => f c = false
  end.

(** [t] is empty or starts with a character no atom of [p] accepts. *)
Definition rejects (p : Re.pattern) (t : pystr) : Prop :=
  match t with
  | [] => True
  | c :: _ => Forall (fun a => Re.cls a c = false) p
  end.

Definition token : pystr := lit "=w0-h0".

Definition digits (d : pystr) : Prop :=
  d <> [] /\ Forall (fun c => Re.is_decimal c = true) d.

Definition dim_segment (d1 d2 : pystr) : pystr :=
  lit "=w" ++ d1 ++ lit "-h" ++ d2.

Definition has_dim_segment (url : pystr) : Prop :=
  exists pre d1 d2 post,
    digits d1 /\ digits d2 /\ url = pre ++ dim_segment d1 d2 ++ post.

Definition replace_unsafe (s : pystr) : pystr :=
  Re.sub [Re.Atom (in_chars unsafe_chars) Re.Once] (lit "_") s.

Definition collapse (s : pystr) : pystr :=
  Re.sub [Re.Atom Re.is_space Re.Plus] (lit "_") s.

(** First and last character outside [cs]. *)
Definition trimmed (cs s : pystr) : Prop :=
  stops (in_chars cs) s /\ stops (in_chars cs) (reverse s).

Definition strip_chars : pystr := lit ". ".

(** A run of white space. *)
Definition space_run (w : pystr) : Prop :=
  w <> [] /\ Forall (fun c => Re.is_space c = true) w.

(** A string [strip] leaves something of. *)
Definition kept (s : pystr) : Prop :=
  Exists (fun c => in_chars strip_chars c = false) s.

(** A word: no unsafe character and no white space. *)
Definition word (s : pystr) : Prop :=
  Forall (fun c => in_chars unsafe_chars c = false /\ Re.is_space c = false) s.

Definition entry (r : ledger_row) : Z * pystr := (row_index r, row_url r).

(** The rows appended to the file at [p]. *)
Definition ledger (wd : world) (p : pystr) : list ledger_row :=
  match files wd !! p with
  | Some (File _ rows) => rows
  | _ => []
  end.

(** The bytes at the head of the file at [p]. *)
Definition bytes (wd : world) (p : pystr) : list N :=
  match files wd !! p with
  | Some (File content _) => content
  | _ => []
  end.

(** The row of the next call of [save_url_to_csv] gets on disk. *)
Definition lands (w : csv_world) (p : pystr) (wd : world) : bool :=
  match csv_append w (length (saves wd)) with
  | Refused => false
  | _ => negb (is_dir wd p)
  end.

(** The file at [p] is a ledger: the header row, and rows appended. *)
Definition is_ledger (wd : world) (p : pystr) : Prop :=
  exists rows, files wd !! p = Some (File csv_header rows).

(** No call of [save_url_to_csv] finds the ledger closed to it: every row
    gets on disk (whether or not the call returns [True]). *)
Definition every_row_written (w : csv_world) : Prop :=
  forall n, csv_append w n <> Refused.

(** What holds of the ledger [p] and of the calls [cs] of [save_url_to_csv]
    made since the disk was [wd0]: the calls carry the indices 1, 2, ... in
    order and one URL each, the URLs of the dedup set; the rows of the
    ledger come from these calls, in their order, and are all of them when
    every row is written. *)
Definition ledger_inv (w : csv_world) (wd0 : world) (p : pystr) (h : harvest)
  : Prop :=
  exists cs,
    saves (fs h) = saves wd0 ++ cs /\
    is_ledger (fs h) p /\
    cs.*1 = seqZ 1 (Z.of_nat (length cs)) /\
    url_index h = (Z.of_nat (length cs) + 1)%Z /\
    NoDup cs.*2 /\
    (forall u, u ∈ image_urls h <-> u ∈ cs.*2) /\
    (entry <$> ledger (fs h) p) `sublist_of` cs /\
    (every_row_written w -> entry <$> ledger (fs h) p = cs).

Definition flow_state (f : flow) : gallery_state :=
  match f with Break st | Continue st => st end.




(** The body the requests for [url] numbered by [range] end with, if one
    of them is answered with a success status. *)
Fixpoint answer (E : download_env) (url : pystr) (range : list nat)
  : option (list N) :=
  match range with
  | [] => None
  | retry :: range' =>
      match get E url retry with
      | Status200 content => Some content
      | _ => if retry <? max_retries - 1 then answer E url range' else None
      end
  end.

(** The body the three requests for [url] end with, if one of them is
    answered with a success status. *)
Definition reachable (E : download_env) (url : pystr) : option (list N) :=
  match get E url 0 with
  | Status200 content => Some content
  | _ =>
      match get E url 1 with
      | Status200 content => Some content
      | _ =>
          match get E url 2 with
          | Status200 content => Some content
          | _ => None
          end
      end
  end.

(** The item at position [i] of the list downloads: it is answered with a
    body that is not empty, and its file has a name and can be written. *)
Definition item_ok (E : download_env) (location_name : pystr) (i : Z)
  (url : pystr) : Prop :=
  exists content filepath,
    reachable E url = Some content /\ content <> [] /\
    file_path E url location_name (i + 1) = Some filepath /\
    write_fails E filepath = false.

(** The directory of the location is there, or is not and can be made. *)
Definition dir_ready (E : download_env) (location_name : pystr) (wd : world)
  : Prop :=
  is_dir wd (location_dir E location_name) = true \/
  (path_exists wd (location_dir E location_name) = false /\
   mkdir_fails E (location_dir E location_name) = false).

Definition E0 : download_env :=
  DownloadEnv (fun _ _ => ConnectionError) (fun _ => false) (fun _ => false)
    (fun _ => Some (lit ".jpg")) (lit "downloaded_images").

Definition quiet : csv_world :=
  CsvWorld (fun _ => Appended) (fun _ => []) (lit "20240101_120000").


Definition lost_place : session :=
  Session false false (Page false [] None []) quiet [].

Definition args3 : args := Args (lit "Cafe") None 5 3 false false.

Definition nowhere : world := World ∅ [] [].


(** The claim of a ledger numbered without a gap, whatever the disk does
    with the appends. *)
Definition ledger_always_contiguous : Prop :=
  forall E w max_images location_name pg wd urls wd' csv_path,
    location_name <> [] ->
    extract_image_urls E w true max_images location_name pg wd
    = (Some (Ok urls), wd') ->
    fst (create_csv_file E w location_name wd) = Ok csv_path ->
    row_index <$> ledger wd' csv_path = seqZ 1 (Z.of_nat (length urls)).


(** ** Concrete runs *)

(** The place name of the specification's example, "Café: Déjà Vu?". *)
Definition cafe : pystr :=
  [67; 97; 102; 233; 58; 32; 68; 233; 106; 224; 32; 86; 117; 63]%N.

Definition photo_a : pystr := lit "https://lh5.googleusercontent.com/p/A=w408-h306".
Definition photo_b : pystr := lit "https://lh5.googleusercontent.com/p/B=w408-h306".
Definition photo_gone : pystr := lit "https://lh5.googleusercontent.com/p/gone".

(** The two photos as the normaliser leaves them. *)
Definition photo_a_key : pystr := lit "https://lh5.googleusercontent.com/p/A=w0-h0".
Definition photo_b_key : pystr := lit "https://lh5.googleusercontent.com/p/B=w0-h0".

(** A gallery of two photos, the second behind an element not displayed. *)
Definition two_step_gallery : page :=
  Page true
    [ StepObs [Some [Shown (Some photo_a)]] None true;
      StepObs [Some [Hidden; Shown (Some photo_b)]] None false ]
    None [].

(** A gallery whose first view answers the script query with two photos
    and no targeted locator. *)
Definition two_at_once : page :=
  Page true [StepObs [None] (Some [photo_a; photo_b]) false] None [].

(** Every host answers but the one of [photo_gone]. *)
Definition one_host_down : download_env :=
  DownloadEnv
    (fun url _ => if decide (url = photo_gone) then ConnectionError
                  else Status200 [255; 216; 255]%N)
    (fun _ => false) (fun _ => false) (fun _ => Some (lit ".jpg"))
    (lit "downloaded_images").

Definition cafe_dir : pystr := lit "downloaded_images/Cafe".
Definition cafe_1 : pystr := lit "downloaded_images/Cafe/Cafe_1.jpg".
Definition cafe_csv : pystr :=
  lit "downloaded_images/Cafe/Cafe_urls_20240101_120000.csv".

(** A disk that already holds the first image of "Cafe". *)
Definition already_there : world :=
  World {[ cafe_dir := Dir; cafe_1 := File [255; 216; 255]%N [] ]} [] [].

(** A disk with the directory of "Cafe" and nothing in it. *)
Definition cafe_made : world := World {[ cafe_dir := Dir ]} [] [].

(** ** Further notions the statements use *)

(** The sources the displayed elements of a locator carry. *)
Fixpoint element_srcs (els : list element) : list pystr :=
  match els with
  | [] => []
  | Shown (Some url) :: els' => url :: element_srcs els'
  | _ :: els' => element_srcs els'
  end.

Fixpoint selector_srcs (sels : list (option (list element))) : list pystr :=
  match sels with
  | [] => []
  | Some els :: sels' => element_srcs els ++ selector_srcs sels'
  | None :: sels' => selector_srcs sels'
  end.

(** Every source the page offers in one iteration of the gallery loop. *)
Definition step_srcs (o : step_obs) : list pystr :=
  selector_srcs (img_selectors o) ++ default [] (all_imgs o).

Fixpoint trace_srcs (trace : list step_obs) : list pystr :=
  match trace with
  | [] => []
  | o :: trace' => step_srcs o ++ trace_srcs trace'
  end.

(** Every source the page offers to [extract_image_urls]. *)
Definition observed (pg : page) : list pystr :=
  if in_gallery_view pg then trace_srcs (gallery pg)
  else default [] (js_images pg) ++ selector_srcs (image_selectors pg).

(** An iteration in which the page offers no asset URL. *)
Definition blank (o : step_obs) : Prop :=
  Forall (fun raw => contains googleusercontent raw = false) (step_srcs o).

(** [u] is the normal form of an asset URL among [offered]. *)
Definition harvested (offered : list pystr) (u : pystr) : Prop :=
  exists raw, raw ∈ offered /\ contains googleusercontent raw = true /\
              u = high_res raw.

(** An element the loop over the elements of a locator passes over. *)
Definition passed (e : element) : Prop :=
  match e with
  | Hidden | Shown None => True
  | Shown (Some url) => contains googleusercontent url = false
  | Stale | Broken => False
  end.

(** [raw] is the source the loop over the elements [els] of a locator
    stops at. *)
Definition taken (els : list element) (raw : pystr) : Prop :=
  exists pre post,
    els = pre ++ Shown (Some raw) :: post /\ Forall passed pre /\
    contains googleusercontent raw = true.

(** [raw] is a source an iteration of the gallery loop reads in the view
    [o]: the one the element loop of a locator stops at or, when no locator
    gives one, an asset URL of the script query. *)
Definition read_in (o : step_obs) (raw : pystr) : Prop :=
  (exists els, Some els ∈ img_selectors o /\ taken els raw) \/
  ((forall els u, Some els ∈ img_selectors o -> ~ taken els u) /\
   exists urls, all_imgs o = Some urls /\ raw ∈ urls /\
                contains googleusercontent raw = true).

(** [raw] is a source the extraction discovers: an asset URL the script
    query of the direct scan answers with, or a source read in a view the
    gallery loop gets to (the views before it did not end the loop). *)
Definition discovered (E : download_env) (w : csv_world) (save_csv : bool)
  (max_images : option Z) (location_name : pystr) (pg : page) (wd : world)
  (raw : pystr) : Prop :=
  if in_gallery_view pg then
    exists before o after csv_path wd1,
      gallery pg = before ++ o :: after /\
      setup_csv E w save_csv location_name wd = (Ok csv_path, wd1) /\
      snd (gallery_loop w csv_path max_images before (gallery_start wd1)) = false /\
      read_in o raw
  else
    exists urls, js_images pg = Some urls /\ raw ∈ urls /\
                 contains googleusercontent raw = true.

(** The first half of an iteration: the scans, and the error counter. *)
Definition scan_page (w : csv_world) (csv_path : option pystr) (o : step_obs)
  (st : gallery_state) : gallery_state * bool :=
  let '(st, found_image) := scan_selectors w csv_path (img_selectors o) st false in
  let '(st, found_image) :=
    if found_image then (st, found_image)
    else match all_imgs o with
         | Some urls => scan_all_imgs w csv_path urls st found_image
         | None => (st, found_image)
         end in
  (if found_image then st
   else GalleryState (seen st) (consecutive_errors st + 1)
          (last_count st) (scroll_attempts st),
   found_image).

(** The scans leave the stagnation counters alone. *)
Definition same_counters (s1 s2 : gallery_state) : Prop :=
  last_count s2 = last_count s1 /\ scroll_attempts s2 = scroll_attempts s1.

(** The stagnation measure: thirty for every URL, one for every step
    without a new one. *)
Definition progress (st : gallery_state) : Z :=
  30 * Z.of_nat (size (image_urls (seen st))) + scroll_attempts st.

(** What holds at the head of the loop. *)
Definition at_head (st : gallery_state) : Prop :=
  last_count st = size (image_urls (seen st)) /\
  (0 <= scroll_attempts st < 30)%Z.

(** A node an extraction leaves where there was none, or another: a
    directory or a ledger. *)
Definition ledger_node (n : node) : Prop :=
  n = Dir \/ exists rows, n = File csv_header rows.

(** No request was sent between [wd] and [wd'], and what is at a path of
    [wd'] is what was there in [wd], or a directory or a ledger. *)
Definition ledgers_only (wd wd' : world) : Prop :=
  requests wd' = requests wd /\
  forall q, files wd' !! q = files wd !! q \/
            exists n, files wd' !! q = Some n /\ ledger_node n.

(** The requests a task may still send. *)
Definition budget (t : task) : nat :=
  match t with
  | Queued | Start | Mkdir => 3
  | Fetch _ retry => 3 - retry
  | _ => 0
  end.

(** A task that has not sent its first request. *)
Definition owing (t : task) : nat :=
  match t with
  | Queued | Start | Mkdir | Fetch _ 0 => 1
  | _ => 0
  end.

Definition ended (t : task) : Prop := exists ok, t = Done ok.

(** The moves a task has before it, at most. *)
Definition moves_left (t : task) : nat :=
  match t with
  | Queued => 9
  | Start => 8
  | Mkdir => 7
  | Fetch _ retry => 6 - Nat.min retry 2
  | Found _ _ => 3
  | Save _ _ => 2
  | Saved _ => 1
  | Done _ => 0
  end.

(** A request loop that is within its range. *)
Definition in_range (t : task) : Prop :=
  match t with
  | Fetch _ retry => retry < max_retries
  | _ => True
  end.

(** A disk [wd'] reached from [wd] by a move that sends a request or
    writes an image that is not empty into the directory [dir]. *)
Definition calm (dir : pystr) (wd wd' : world) : Prop :=
  (forall u, u ∈ requests wd -> u ∈ requests wd') /\
  (files wd' = files wd \/
   exists q content,
     content <> [] /\ q <> dir /\ files wd' = <[q := File content []]> (files wd)).

(** Where the task of an item that downloads can stand: [content] is the
    body its requests end with and [filepath] its file. *)
Definition on_track (E : download_env) (url : pystr) (content : list N)
  (filepath : pystr) (t : task) (wd : world) : Prop :=
  match t with
  | Queued | Start => True
  | Mkdir => False
  | Fetch p retry =>
      p = filepath /\ retry < max_retries /\
      answer E url (seq retry (max_retries - retry)) = Some content /\
      (retry = 0 \/ url ∈ requests wd)
  | Found p c => p = filepath /\ c = content /\ url ∈ requests wd
  | Save p c =>
      p = filepath /\ c = content /\ url ∈ requests wd /\ is_dir wd p = false
  | Saved p =>
      p = filepath /\ url ∈ requests wd /\
      exists c, c <> [] /\ files wd !! p = Some (File c [])
  | Done ok => ok = true /\ url ∈ requests wd /\ path_exists wd filepath = true
  end.

(** Where the task of an item that is never answered can stand. *)
Definition off_track (E : download_env) (url : pystr) (t : task) : Prop :=
  match t with
  | Queued | Start => True
  | Fetch _ retry =>
      retry < max_retries /\ answer E url (seq retry (max_retries - retry)) = None
  | Done ok => ok = false
  | _ => False
  end.

(** What holds of the pool all along when the item at position [k] is
    never answered: the directory is there, the task of that item is off
    track and every other task is on track. *)
Definition isolated (E : download_env) (location_name : pystr)
  (urls : list pystr) (k : nat) (p : list task * world) : Prop :=
  is_dir (snd p) (location_dir E location_name) = true /\
  forall j t url,
    fst p !! j = Some t -> urls !! j = Some url ->
    if decide (j = k) then off_track E url t
    else exists content filepath,
           reachable E url = Some content /\ content <> [] /\
           file_path E url location_name (Z.of_nat j + 1) = Some filepath /\
           write_fails E filepath = false /\
           on_track E url content filepath t (snd p).

(** ** Further concrete runs *)

(** The run of the two-photo gallery with the ledger kept. *)
Definition two_step_run : option (result (list pystr)) * world :=
  extract_image_urls E0 quiet true None (lit "Cafe") two_step_gallery nowhere.

(** A disk that refuses the first append. *)
Definition first_append_fails : csv_world :=
  CsvWorld (fun n => if bool_decide (n = 0) then Refused else Appended)
    (fun _ => []) (lit "20240101_120000").

Definition two_step_run_flaky : option (result (list pystr)) * world :=
  extract_image_urls E0 first_append_fails true None (lit "Cafe")
    two_step_gallery nowhere.


(** Thirty views with nothing in them and a next control that works. *)
Definition thirty_empty_views : page :=
  Page true (replicate 30 (StepObs [] None true)) None [].

(** A carousel: the same photo, sixty times. *)
Definition carousel : page :=
  Page true (replicate 60 (StepObs [Some [Shown (Some photo_a)]] None true))
    None [].

(** Nothing to see for five views, a photo in the sixth. *)
Definition late_photo : page :=
  Page true
    (replicate 5 (StepObs [None] (Some []) true)
     ++ [StepObs [Some [Shown (Some photo_a)]] None false])
    None [].

(** Every host answers with a success status and no body. *)
Definition empty_answers : download_env :=
  DownloadEnv (fun _ _ => Status200 []) (fun _ => false) (fun _ => false)
    (fun _ => Some (lit ".jpg")) (lit "downloaded_images").

Definition two_photo_place : session :=
  Session true true two_step_gallery quiet [].


(** Two workers that both look for the directory before either makes it:
    each is taken, each tests [os.path.exists], the second makes the
    directory, the first then tries to. *)
Definition racing : list nat := [0; 1; 0; 1; 1; 0].

Arguments Re.is_decimal : simpl never.
Arguments Re.is_space : simpl never.
Arguments in_chars : simpl never.

(** * Proofs *)

(** * Lists of code points *)

Lemma drop_while_length f s : length (drop_while f s) <= length s.
Proof. induction s as [|c s IH]; simpl; [lia|]. destruct (f c); simpl; lia. Qed.

Lemma drop_while_app_all f l r :
  Forall (fun c => f c = true) l -> drop_while f (l ++ r) = drop_while f r.
Proof. induction 1 as [|c l Hc _ IH]; simpl; [done|]. by rewrite Hc. Qed.

Lemma drop_while_stop f c s : f c = false -> drop_while f (c :: s) = c :: s.
Proof. intros H. simpl. by rewrite H. Qed.

Lemma drop_while_stops f s : stops f (drop_while f s).
Proof.
  induction s as [|c s IH]; simpl; [done|].
  destruct (f c) eqn:Hc; simpl; done.
Qed.

Lemma drop_while_id f s : stops f s -> drop_while f s = s.
Proof. destruct s as [|c s]; simpl; [done|]. by intros ->. Qed.

Lemma drop_while_app_stops f l r :
  stops f r -> drop_while f (l ++ r) = drop_while f l ++ r.
Proof.
  intros Hr. induction l as [|c l IH]; simpl.
  - by apply drop_while_id.
  - destruct (f c); [done|reflexivity].
Qed.

Lemma drop_while_split f s :
  exists d, s = d ++ drop_while f s /\ Forall (fun c => f c = true) d.
Proof.
  induction s as [|c s (d & Hs & Hd)]; simpl.
  - by exists [].
  - destruct (f c) eqn:Hc.
    + exists (c :: d). split; [simpl; congruence|by constructor].
    + by exists [].
Qed.

(** * Matching *)

Lemma greedy_some cl s : Re.greedy cl Some s = Some (drop_while cl s).
Proof.
  induction s as [|c s IH]; simpl; [done|].
  destruct (cl c); [by rewrite IH|done].
Qed.

Lemma greedy_ext cl k k' s :
  (forall x, k x = k' x) -> Re.greedy cl k s = Re.greedy cl k' s.
Proof.
  intros Hk. induction s as [|c s IH]; simpl; [done|].
  rewrite IH, Hk. done.
Qed.

Lemma greedy_reject cl k s :
  (forall c s', cl c = true -> k (c :: s') = None) ->
  Re.greedy cl k s = k (drop_while cl s).
Proof.
  intros Hk. induction s as [|c s IH]; simpl; [done|].
  destruct (cl c) eqn:Hc; [|done].
  rewrite IH. destruct (k (drop_while cl s)) eqn:Hd; [done|].
  by apply Hk.
Qed.

Lemma greedy_suffix cl k s r :
  (forall x y, k x = Some y -> length y <= length x) ->
  Re.greedy cl k s = Some r -> length r <= length s.
Proof.
  intros Hk. induction s as [|c s IH]; simpl.
  - apply Hk.
  - destruct (cl c).
    + destruct (Re.greedy cl k s) eqn:Hg.
      * intros [= ->]. specialize (IH eq_refl). lia.
      * intros H%Hk. simpl in H. lia.
    + intros H%Hk. simpl in H. lia.
Qed.

Lemma match_here_suffix p s r :
  Re.match_here p s = Some r -> length r <= length s.
Proof.
  revert s r. induction p as [|a p IH]; simpl; intros s r H.
  - by injection H as ->.
  - destruct s as [|c s]; [done|]. destruct (Re.cls a c); [|done].
    destruct (Re.rep a).
    + apply IH in H. simpl. lia.
    + apply greedy_suffix in H; [simpl; lia|exact IH].
Qed.

Lemma match_here_progress a p c s r :
  Re.match_here (a :: p) (c :: s) = Some r -> length r <= length s.
Proof.
  simpl. destruct (Re.cls a c); [|done]. destruct (Re.rep a).
  - apply match_here_suffix.
  - apply greedy_suffix. apply match_here_suffix.
Qed.

(** * Substitution *)

Lemma sub_nil a p repl : Re.sub (a :: p) repl [] = [].
Proof. by rewrite Re.sub_equation_1. Qed.

Lemma sub_cons a p repl c s :
  Re.sub (a :: p) repl (c :: s) =
  match Re.match_here (a :: p) (c :: s) with
  | Some rest => repl ++ Re.sub (a :: p) repl rest
  | None => c :: Re.sub (a :: p) repl s
  end.
Proof.
  rewrite Re.sub_equation_2.
  destruct (Re.match_here (a :: p) (c :: s)) as [rest|] eqn:Hm.
  - rewrite Re.sub_clause_2_equation_1.
    destruct (le_dec (length rest) (length s)) as [Hle|Hgt].
    + by rewrite Re.sub_clause_2_clause_2_equation_1.
    + apply match_here_progress in Hm. lia.
  - by rewrite Re.sub_clause_2_equation_2.
Qed.

(** Strong induction on the length of a string. *)
Lemma pystr_length_ind (P : list N -> Prop) :
  (forall s, (forall t, length t < length s -> P t) -> P s) -> forall s, P s.
Proof.
  intros H s. remember (length s) as n eqn:Hn. revert s Hn.
  induction n as [n IH] using lt_wf_ind. intros s ->.
  apply H. intros t Ht. by apply (IH (length t)).
Qed.

Lemma sub_once cl r s :
  Re.sub [Re.Atom cl Re.Once] [r] s = List.map (fun c => if cl c then r else c) s.
Proof.
  induction s as [|c s IH]; [by rewrite sub_nil|].
  rewrite sub_cons. simpl. destruct (cl c); simpl; by rewrite IH.
Qed.

Lemma sub_plus_cons cl repl c s :
  Re.sub [Re.Atom cl Re.Plus] repl (c :: s) =
  if cl c then repl ++ Re.sub [Re.Atom cl Re.Plus] repl (drop_while cl s)
  else c :: Re.sub [Re.Atom cl Re.Plus] repl s.
Proof.
  rewrite sub_cons. simpl. destruct (cl c); [|done].
  by rewrite greedy_some.
Qed.

Lemma greedy_app cl k k' t s :
  stops cl t ->
  (forall x, k (x ++ t) = (.++ t) <$> k' x) ->
  Re.greedy cl k (s ++ t) = (.++ t) <$> Re.greedy cl k' s.
Proof.
  intros Ht Hk. induction s as [|c s IH]; simpl.
  - rewrite <- (Hk []). simpl. destruct t as [|c t]; simpl; [done|].
    simpl in Ht. by rewrite Ht.
  - destruct (cl c); [|apply (Hk (c :: s))].
    rewrite IH. destruct (Re.greedy cl k' s); simpl; [done|].
    apply (Hk (c :: s)).
Qed.

Lemma match_here_app p t s :
  rejects p t ->
  Re.match_here p (s ++ t) = (.++ t) <$> Re.match_here p s.
Proof.
  revert s. induction p as [|a p IH]; intros s Hp; [done|].
  assert (rejects p t /\ stops (Re.cls a) t) as [Hp' Ha].
  { destruct t as [|c t]; [done|]. by inversion Hp. }
  destruct s as [|x s]; simpl.
  - destruct t as [|c t]; [done|]. simpl in Ha. by rewrite Ha.
  - destruct (Re.cls a x); [|done]. destruct (Re.rep a).
    + by apply IH.
    + apply greedy_app; [done|]. intros y. by apply IH.
Qed.

Lemma match_here_app_cons a p t x s :
  Re.rep a = Re.Once -> rejects p t ->
  Re.match_here (a :: p) (x :: s ++ t) = (.++ t) <$> Re.match_here (a :: p) (x :: s).
Proof.
  intros Ha Hp. simpl. destruct (Re.cls a x); [|done].
  rewrite Ha. by apply match_here_app.
Qed.

Lemma sub_app a p repl t pre :
  Re.rep a = Re.Once -> rejects p t ->
  Re.sub (a :: p) repl (pre ++ t)
  = Re.sub (a :: p) repl pre ++ Re.sub (a :: p) repl t.
Proof.
  intros Ha Hp. induction pre as [pre IH] using pystr_length_ind.
  destruct pre as [|c pre]; [by rewrite sub_nil|].
  rewrite <- app_comm_cons, !sub_cons, match_here_app_cons by done.
  destruct (Re.match_here (a :: p) (c :: pre)) as [rest|] eqn:Hm; simpl.
  - rewrite IH, app_assoc; [done|].
    apply match_here_progress in Hm. simpl. lia.
  - rewrite IH; [done|simpl; lia].
Qed.

(** * The dimension segment *)

Lemma match_here_chr x p c s :
  Re.match_here (Re.chr x :: p) (c :: s)
  = if N.eqb x c then Re.match_here p s else None.
Proof. reflexivity. Qed.

Lemma match_here_plus cl p c s :
  Re.match_here (Re.Atom cl Re.Plus :: p) (c :: s)
  = if cl c then Re.greedy cl (Re.match_here p) s else None.
Proof. reflexivity. Qed.

Lemma chr_rejects_decimal x p c s :
  Re.is_decimal x = false -> Re.is_decimal c = true ->
  Re.match_here (Re.chr x :: p) (c :: s) = None.
Proof.
  intros Hx Hc. rewrite match_here_chr.
  destruct (N.eqb_spec x c) as [->|]; [congruence|done].
Qed.

Lemma dim_segment_eq d1 d2 post :
  dim_segment d1 d2 ++ post
  = 61%N :: 119%N :: d1 ++ 45%N :: 104%N :: d2 ++ post.
Proof. unfold dim_segment. rewrite <- !app_assoc. reflexivity. Qed.

Lemma match_dim_segment d1 d2 post :
  digits d1 -> digits d2 ->
  Re.match_here dim_pattern (dim_segment d1 d2 ++ post)
  = Some (drop_while Re.is_decimal post).
Proof.
  intros [Hn1 Hd1] [Hn2 Hd2]. rewrite dim_segment_eq. unfold dim_pattern.
  destruct d1 as [|c1 d1]; [done|]. destruct d2 as [|c2 d2]; [done|].
  inversion_clear Hd1 as [|? ? Hc1 Hd1']. inversion_clear Hd2 as [|? ? Hc2 Hd2'].
  rewrite !match_here_chr, !N.eqb_refl. simpl app.
  rewrite match_here_plus, Hc1.
  rewrite greedy_reject by (intros; by apply chr_rejects_decimal).
  rewrite drop_while_app_all by done.
  rewrite drop_while_stop by done.
  rewrite !match_here_chr, !N.eqb_refl, match_here_plus, Hc2.
  simpl Re.match_here. rewrite (greedy_ext _ _ Some) by done.
  rewrite greedy_some. by rewrite drop_while_app_all.
Qed.

Lemma match_dim_inv s r :
  Re.match_here dim_pattern s = Some r ->
  exists d1 d2, digits d1 /\ digits d2 /\ s = dim_segment d1 d2 ++ r
                /\ stops Re.is_decimal r.
Proof.
  unfold dim_pattern.
  destruct s as [|c0 s]; [done|].
  rewrite match_here_chr. destruct (N.eqb_spec 61 c0) as [<-|]; [|done].
  destruct s as [|c1 s]; [done|].
  rewrite match_here_chr. destruct (N.eqb_spec 119 c1) as [<-|]; [|done].
  destruct s as [|c2 s]; [done|].
  rewrite match_here_plus. destruct (Re.is_decimal c2) eqn:Hc2; [|done].
  rewrite greedy_reject by (intros; by apply chr_rejects_decimal).
  destruct (drop_while_split Re.is_decimal s) as (d1 & Hs & Hd1).
  destruct (drop_while Re.is_decimal s) as [|c3 s3]; [done|].
  rewrite match_here_chr. destruct (N.eqb_spec 45 c3) as [<-|]; [|done].
  destruct s3 as [|c4 s4]; [done|].
  rewrite match_here_chr. destruct (N.eqb_spec 104 c4) as [<-|]; [|done].
  destruct s4 as [|c5 s5]; [done|].
  rewrite match_here_plus. destruct (Re.is_decimal c5) eqn:Hc5; [|done].
  simpl Re.match_here. rewrite (greedy_ext _ _ Some) by done.
  rewrite greedy_some. intros [= <-].
  destruct (drop_while_split Re.is_decimal s5) as (d2 & Hs5 & Hd2).
  exists (c2 :: d1), (c5 :: d2). repeat split; try done; try by constructor.
  - rewrite dim_segment_eq, Hs. simpl. rewrite <- Hs5. done.
  - apply drop_while_stops.
Qed.

(** * The normaliser *)

Lemma high_res_nil : high_res [] = [].
Proof. apply sub_nil. Qed.

Lemma high_res_cons c s :
  high_res (c :: s) =
  match Re.match_here dim_pattern (c :: s) with
  | Some rest => token ++ high_res rest
  | None => c :: high_res s
  end.
Proof. apply sub_cons. Qed.

Lemma dim_rejects_equals t : rejects (tail dim_pattern) (61%N :: t).
Proof. repeat constructor. Qed.

Lemma high_res_app pre t :
  high_res (pre ++ 61%N :: t) = high_res pre ++ high_res (61%N :: t).
Proof. apply sub_app; [done|apply dim_rejects_equals]. Qed.

Lemma high_res_segment pre d1 d2 post :
  digits d1 -> digits d2 ->
  high_res (pre ++ dim_segment d1 d2 ++ post)
  = high_res pre ++ token ++ high_res (drop_while Re.is_decimal post).
Proof.
  intros H1 H2. pose proof (match_dim_segment d1 d2 post H1 H2) as Hm.
  rewrite dim_segment_eq in *. by rewrite high_res_app, high_res_cons, Hm.
Qed.

Lemma high_res_unchanged url : ~ has_dim_segment url -> high_res url = url.
Proof.
  induction url as [|c url IH]; intros Hno; [apply high_res_nil|].
  rewrite high_res_cons.
  destruct (Re.match_here dim_pattern (c :: url)) as [rest|] eqn:Hm.
  - destruct (match_dim_inv _ _ Hm) as (d1 & d2 & H1 & H2 & Hs & _).
    destruct Hno. by exists [], d1, d2, rest.
  - rewrite IH; [done|]. intros (pre & d1 & d2 & post & H1 & H2 & ->).
    apply Hno. by exists (c :: pre), d1, d2, post.
Qed.

Lemma high_res_stops s :
  stops Re.is_decimal s -> stops Re.is_decimal (high_res s).
Proof.
  destruct s as [|c s]; [by rewrite high_res_nil|]. intros Hc.
  rewrite high_res_cons. by destruct (Re.match_here _ _).
Qed.

(** What the normaliser returns before its first [=] was in the URL, at the
    same place. *)
Lemma high_res_prefix x : forall s y,
  Forall (fun c => c <> 61%N) x -> high_res s = x ++ y ->
  exists y', s = x ++ y'.
Proof.
  induction x as [|a x IH]; intros s y Hx Hs; [by exists s|].
  inversion_clear Hx as [|? ? Ha Hx']. destruct s as [|c s].
  - by rewrite high_res_nil in Hs.
  - rewrite high_res_cons in Hs.
    destruct (Re.match_here dim_pattern (c :: s)) as [rest|].
    + by injection Hs as <-.
    + injection Hs as -> Hs. destruct (IH _ _ Hx' Hs) as [y' ->]. by exists y'.
Qed.

Lemma decimal_not_equals c : Re.is_decimal c = true -> c <> 61%N.
Proof. by intros H ->. Qed.

Lemma high_res_no_new_match c s :
  Re.match_here dim_pattern (c :: s) = None ->
  Re.match_here dim_pattern (c :: high_res s) = None.
Proof.
  intros Hnone.
  destruct (Re.match_here dim_pattern (c :: high_res s)) as [r|] eqn:Hm; [|done].
  destruct (match_dim_inv _ _ Hm) as (d1 & d2 & H1 & [Hn2 Hd2] & Hs & _).
  destruct d2 as [|c2 d2]; [done|].
  rewrite dim_segment_eq in Hs. injection Hs as -> Hs.
  destruct (high_res_prefix (119%N :: d1 ++ [45; 104; c2]%N) s (d2 ++ r)) as [y' ->].
  - destruct H1 as [_ Hd1]. inversion_clear Hd2.
    constructor; [done|]. apply Forall_app. split.
    + eapply Forall_impl; [exact Hd1|]. intros ?. apply decimal_not_equals.
    + repeat constructor; try done. by apply decimal_not_equals.
  - rewrite Hs. simpl. by rewrite <- app_assoc.
  - pose proof (match_dim_segment d1 [c2] y' H1) as Hok.
    rewrite dim_segment_eq in Hok. simpl in Hok.
    simpl in Hnone. rewrite <- app_assoc in Hnone. simpl in Hnone.
    rewrite Hok in Hnone; [done|]. inversion_clear Hd2. split; [done|by constructor].
Qed.

Lemma high_res_token x :
  stops Re.is_decimal x -> high_res (token ++ x) = token ++ high_res x.
Proof.
  intros Hx.
  pose proof (high_res_segment [] [48%N] [48%N] x) as H.
  rewrite high_res_nil, (drop_while_id _ _ Hx) in H.
  apply H; split; try done; by repeat constructor.
Qed.

Lemma high_res_idempotent url : high_res (high_res url) = high_res url.
Proof.
  induction url as [url IH] using pystr_length_ind.
  destruct url as [|c url]; [by rewrite !high_res_nil|].
  rewrite high_res_cons.
  destruct (Re.match_here dim_pattern (c :: url)) as [rest|] eqn:Hm.
  - destruct (match_dim_inv _ _ Hm) as (d1 & d2 & _ & _ & _ & Hstop).
    rewrite high_res_token by by apply high_res_stops.
    rewrite IH; [done|]. apply match_here_progress in Hm. simpl. lia.
  - rewrite high_res_cons, (high_res_no_new_match _ _ Hm).
    rewrite IH; [done|simpl; lia].
Qed.

Lemma high_res_same_key pre d1 d2 e1 e2 post :
  digits d1 -> digits d2 -> digits e1 -> digits e2 ->
  high_res (pre ++ dim_segment d1 d2 ++ post)
  = high_res (pre ++ dim_segment e1 e2 ++ post).
Proof. intros. by rewrite !high_res_segment. Qed.

(** * File names *)

Lemma sanitize_unfold s :
  _sanitize_filename s = collapse (strip (lit ". ") (replace_unsafe s)).
Proof. reflexivity. Qed.

Lemma replace_unsafe_map s :
  replace_unsafe s
  = List.map (fun c => if in_chars unsafe_chars c then 95%N else c) s.
Proof. apply sub_once. Qed.

Lemma collapse_nil : collapse [] = [].
Proof. apply sub_nil. Qed.

Lemma collapse_cons c s :
  collapse (c :: s) =
  if Re.is_space c then 95%N :: collapse (drop_while Re.is_space s)
  else c :: collapse s.
Proof. unfold collapse. by rewrite sub_plus_cons. Qed.

Lemma Forall_drop_while (P : N -> Prop) f s :
  Forall P s -> Forall P (drop_while f s).
Proof.
  induction 1 as [|c s Hc Hs IH]; simpl; [done|].
  destruct (f c); [done|by constructor].
Qed.

Lemma collapse_Forall (P : N -> Prop) s :
  P 95%N -> Forall P s -> Forall P (collapse s).
Proof.
  intros H95. induction s as [s IH] using pystr_length_ind. intros Hs.
  destruct s as [|c s]; [by rewrite collapse_nil|].
  inversion_clear Hs as [|? ? Hc Hs']. rewrite collapse_cons.
  destruct (Re.is_space c); constructor; try done.
  - apply IH; [|by apply Forall_drop_while].
    pose proof (drop_while_length Re.is_space s). simpl. lia.
  - apply IH; [simpl; lia|done].
Qed.

Lemma collapse_no_space s : Forall (fun c => Re.is_space c = false) (collapse s).
Proof.
  induction s as [s IH] using pystr_length_ind.
  destruct s as [|c s]; [by rewrite collapse_nil|].
  rewrite collapse_cons. destruct (Re.is_space c) eqn:Hc; constructor; try done.
  - apply IH. pose proof (drop_while_length Re.is_space s). simpl. lia.
  - apply IH. simpl. lia.
Qed.

Lemma collapse_id s : Forall (fun c => Re.is_space c = false) s -> collapse s = s.
Proof.
  induction 1 as [|c s Hc _ IH]; [apply collapse_nil|].
  by rewrite collapse_cons, Hc, IH.
Qed.

Lemma collapse_app pre t :
  stops Re.is_space t -> collapse (pre ++ t) = collapse pre ++ collapse t.
Proof.
  intros Ht. induction pre as [pre IH] using pystr_length_ind.
  destruct pre as [|c pre]; [by rewrite collapse_nil|].
  rewrite <- app_comm_cons, !collapse_cons. destruct (Re.is_space c).
  - rewrite drop_while_app_stops by done. rewrite IH; [done|].
    pose proof (drop_while_length Re.is_space pre). simpl. lia.
  - rewrite IH; [done|simpl; lia].
Qed.

Lemma collapse_run w t :
  w <> [] -> Forall (fun c => Re.is_space c = true) w -> stops Re.is_space t ->
  collapse (w ++ t) = 95%N :: collapse t.
Proof.
  intros Hw Hall Ht. destruct w as [|c w]; [done|].
  inversion_clear Hall as [|? ? Hc Hw'].
  rewrite <- app_comm_cons, collapse_cons, Hc.
  by rewrite drop_while_app_all, drop_while_id.
Qed.

Lemma collapse_stops f s :
  f 95%N = false -> stops f s -> stops f (collapse s).
Proof.
  intros H95. destruct s as [|c s]; [by rewrite collapse_nil|].
  rewrite collapse_cons. by destruct (Re.is_space c).
Qed.

Lemma collapse_nonempty s : s <> [] -> collapse s <> [].
Proof.
  destruct s as [|c s]; [done|]. intros _. rewrite collapse_cons.
  by destruct (Re.is_space c).
Qed.

Lemma drop_while_last f s :
  drop_while f s <> [] -> last (drop_while f s) = last s.
Proof.
  induction s as [|c s IH]; simpl; [done|].
  destruct (f c); [|done]. intros Hne. rewrite IH by done.
  destruct s; [done|]. by rewrite last_cons_cons.
Qed.

Lemma collapse_last s :
  s <> [] -> last (collapse s) = Some 95%N \/ last (collapse s) = last s.
Proof.
  induction s as [s IH] using pystr_length_ind. intros Hs.
  destruct s as [|c s]; [done|]. rewrite collapse_cons.
  destruct (Re.is_space c).
  - destruct (drop_while Re.is_space s) as [|c' s'] eqn:Hd.
    + left. by rewrite collapse_nil.
    + pose proof (drop_while_length Re.is_space s) as Hlen.
      pose proof (drop_while_last Re.is_space s) as Hlast.
      rewrite Hd in Hlen, Hlast. specialize (Hlast ltac:(done)).
      assert (length (c' :: s') < length (c :: s)) as Hlt by (simpl in *; lia).
      rewrite last_cons.
      destruct (IH (c' :: s') Hlt ltac:(done)) as [H|H]; rewrite H.
      * by left.
      * right. rewrite Hlast, (last_cons c s). destruct (last s) eqn:Hl; [done|].
        apply last_None in Hl. by subst s.
  - destruct s as [|c' s']; [right; by rewrite collapse_nil|].
    assert (length (c' :: s') < length (c :: c' :: s')) as Hlt by (simpl; lia).
    rewrite last_cons.
    destruct (IH (c' :: s') Hlt ltac:(done)) as [H|H]; rewrite H.
    + by left.
    + right. rewrite (last_cons c (c' :: s')). by destruct (last (c' :: s')).
Qed.

(** [str.strip] *)

Lemma lstrip_stops cs s : stops (in_chars cs) (lstrip cs s).
Proof. apply drop_while_stops. Qed.

Lemma rstrip_prefix cs s :
  exists r, s = rstrip cs s ++ r.
Proof.
  unfold rstrip.
  destruct (drop_while_split (in_chars cs) (reverse s)) as (d & Hs & _).
  exists (reverse d). rewrite <- reverse_app, <- Hs. by rewrite reverse_involutive.
Qed.

Lemma rstrip_last_stops cs s : stops (in_chars cs) (reverse (rstrip cs s)).
Proof. unfold rstrip. rewrite reverse_involutive. apply drop_while_stops. Qed.

Lemma rstrip_stops cs s : stops (in_chars cs) s -> stops (in_chars cs) (rstrip cs s).
Proof.
  intros Hs. destruct (rstrip_prefix cs s) as [r Hr].
  destruct (rstrip cs s) as [|c t]; [done|].
  rewrite Hr in Hs. exact Hs.
Qed.

Lemma lstrip_id cs s : stops (in_chars cs) s -> lstrip cs s = s.
Proof. apply drop_while_id. Qed.

Lemma rstrip_id cs s : stops (in_chars cs) (reverse s) -> rstrip cs s = s.
Proof.
  intros Hs. unfold rstrip. rewrite drop_while_id by done.
  apply reverse_involutive.
Qed.

Lemma strip_Forall (P : N -> Prop) cs s : Forall P s -> Forall P (strip cs s).
Proof.
  intros Hs. unfold strip, rstrip, lstrip.
  apply Forall_reverse, Forall_drop_while, Forall_reverse.
  by apply Forall_drop_while.
Qed.

Lemma strip_trimmed cs s : trimmed cs (strip cs s).
Proof.
  split; [apply rstrip_stops, lstrip_stops|apply rstrip_last_stops].
Qed.

Lemma strip_id cs s : trimmed cs s -> strip cs s = s.
Proof.
  intros [Hh Hl]. unfold strip. rewrite lstrip_id by done. by apply rstrip_id.
Qed.

Lemma stops_reverse_last f s :
  stops f (reverse s) <-> forall c, last s = Some c -> f c = false.
Proof.
  rewrite <- head_reverse. destruct (reverse s) as [|c t]; simpl; [done|].
  split; [by intros H c' [= <-]|by intros H; apply H].
Qed.

Lemma stops_head f s :
  stops f s <-> forall c, head s = Some c -> f c = false.
Proof.
  destruct s as [|c t]; simpl; [done|].
  split; [by intros H c' [= <-]|by intros H; apply H].
Qed.

Lemma collapse_trimmed cs s :
  in_chars cs 95%N = false -> trimmed cs s -> trimmed cs (collapse s).
Proof.
  intros H95 [Hh Hl]. split; [by apply collapse_stops|].
  apply stops_reverse_last. intros c Hc.
  destruct s as [|c0 s0]; [by rewrite collapse_nil in Hc|].
  destruct (collapse_last (c0 :: s0)) as [H|H]; [done| |].
  - rewrite H in Hc. by injection Hc as <-.
  - rewrite H in Hc. by eapply stops_reverse_last.
Qed.

(** * [_sanitize_filename] *)

Lemma replace_unsafe_safe s :
  Forall (fun c => in_chars unsafe_chars c = false) (replace_unsafe s).
Proof.
  rewrite replace_unsafe_map. induction s as [|c s IH]; simpl; constructor; [|done].
  by destruct (in_chars unsafe_chars c) eqn:Hc.
Qed.

Lemma replace_unsafe_id s :
  Forall (fun c => in_chars unsafe_chars c = false) s -> replace_unsafe s = s.
Proof.
  rewrite replace_unsafe_map. induction 1 as [|c s Hc _ IH]; simpl; [done|].
  by rewrite Hc, IH.
Qed.

Lemma sanitize_safe s :
  Forall (fun c => in_chars unsafe_chars c = false) (_sanitize_filename s).
Proof.
  rewrite sanitize_unfold. apply collapse_Forall; [done|].
  apply strip_Forall, replace_unsafe_safe.
Qed.

Lemma sanitize_no_space s :
  Forall (fun c => Re.is_space c = false) (_sanitize_filename s).
Proof. rewrite sanitize_unfold. apply collapse_no_space. Qed.

Lemma sanitize_trimmed s : trimmed strip_chars (_sanitize_filename s).
Proof.
  rewrite sanitize_unfold. apply collapse_trimmed; [done|]. apply strip_trimmed.
Qed.

(** C10: sanitising a sanitised name changes nothing. *)
Theorem sanitize_idempotent s :
  _sanitize_filename (_sanitize_filename s) = _sanitize_filename s.
Proof.
  rewrite (sanitize_unfold (_sanitize_filename s)).
  rewrite replace_unsafe_id by apply sanitize_safe.
  rewrite strip_id by apply sanitize_trimmed.
  apply collapse_id, sanitize_no_space.
Qed.

Lemma space_not_unsafe c :
  Re.is_space c = true -> in_chars unsafe_chars c = false.
Proof.
  unfold Re.is_space, in_chars at 1. intros H.
  apply existsb_exists in H as (x & Hx & Heq). apply N.eqb_eq in Heq as ->.
  revert x Hx. apply List.Forall_forall. vm_compute. repeat constructor.
Qed.

(** * White-space runs inside a name *)

Lemma replace_unsafe_app s t :
  replace_unsafe (s ++ t) = replace_unsafe s ++ replace_unsafe t.
Proof. rewrite !replace_unsafe_map. apply map_app. Qed.

Lemma replace_unsafe_spaces w :
  Forall (fun c => Re.is_space c = true) w -> replace_unsafe w = w.
Proof.
  intros Hw. apply replace_unsafe_id. eapply Forall_impl; [exact Hw|].
  intros c. apply space_not_unsafe.
Qed.

Lemma replace_unsafe_reverse s :
  replace_unsafe (reverse s) = reverse (replace_unsafe s).
Proof. rewrite !replace_unsafe_map. by rewrite <- fmap_reverse. Qed.

Lemma replace_unsafe_space c :
  Re.is_space (if in_chars unsafe_chars c then 95%N else c) = Re.is_space c.
Proof.
  destruct (in_chars unsafe_chars c) eqn:Hc; [|done].
  destruct (Re.is_space c) eqn:Hs; [|done].
  apply space_not_unsafe in Hs. congruence.
Qed.

Lemma replace_unsafe_stops s :
  stops Re.is_space s -> stops Re.is_space (replace_unsafe s).
Proof.
  rewrite replace_unsafe_map. destruct s as [|c s]; simpl; [done|].
  by rewrite replace_unsafe_space.
Qed.

Lemma replace_unsafe_kept s : kept s -> kept (replace_unsafe s).
Proof.
  unfold kept. rewrite replace_unsafe_map.
  induction 1 as [c l Hc|c l _ IH]; simpl; [left|by right].
  by destruct (in_chars unsafe_chars c).
Qed.

Lemma drop_while_app_exists f l r :
  Exists (fun c => f c = false) l -> drop_while f (l ++ r) = drop_while f l ++ r.
Proof.
  induction 1 as [c l Hc|c l _ IH]; simpl; [by rewrite Hc|by destruct (f c)].
Qed.

Lemma drop_while_exists f l :
  Exists (fun c => f c = false) l -> drop_while f l <> [].
Proof.
  induction 1 as [c l Hc|c l _ IH]; simpl; [by rewrite Hc|by destruct (f c)].
Qed.

Lemma Exists_rev (P : N -> Prop) (l : list N) : Exists P l -> Exists P (reverse l).
Proof.
  rewrite !Exists_exists. intros (x & Hx & HP). exists x.
  split; [by apply elem_of_reverse|done].
Qed.

Lemma lstrip_app cs l r :
  Exists (fun c => in_chars cs c = false) l -> lstrip cs (l ++ r) = lstrip cs l ++ r.
Proof. apply drop_while_app_exists. Qed.

Lemma rstrip_app cs l r :
  Exists (fun c => in_chars cs c = false) r -> rstrip cs (l ++ r) = l ++ rstrip cs r.
Proof.
  intros H. unfold rstrip.
  rewrite reverse_app, drop_while_app_exists by by apply Exists_rev.
  by rewrite reverse_app, reverse_involutive.
Qed.

(** What [lstrip] leaves of a string ends as the string does, and what
    [rstrip] leaves of it starts as it does. *)
Lemma lstrip_last cs s :
  Exists (fun c => in_chars cs c = false) s -> last (lstrip cs s) = last s.
Proof. intros H. by apply drop_while_last, drop_while_exists. Qed.

Lemma rstrip_head cs s :
  Exists (fun c => in_chars cs c = false) s -> head (rstrip cs s) = head s.
Proof.
  intros H. unfold rstrip.
  by rewrite head_reverse, drop_while_last, last_reverse
    by by apply drop_while_exists, Exists_rev.
Qed.

(** A string that does not end in white space is collapsed on its own. *)
Lemma collapse_app_l p t :
  stops Re.is_space (reverse p) -> collapse (p ++ t) = collapse p ++ collapse t.
Proof.
  induction p as [p IH] using pystr_length_ind. intros Hp.
  destruct p as [|c p]; [by rewrite collapse_nil|].
  assert (forall x, last p = Some x -> Re.is_space x = false) as Hlast.
  { intros x Hx. apply (proj1 (stops_reverse_last _ _) Hp).
    by rewrite last_cons, Hx. }
  rewrite <- app_comm_cons, !collapse_cons. destruct (Re.is_space c) eqn:Hc.
  - assert (Exists (fun x => Re.is_space x = false) p) as Hex.
    { destruct (last p) as [x|] eqn:Hl.
      - apply Exists_exists. exists x. split; [by eapply last_Some_elem_of|by apply Hlast].
      - apply last_None in Hl. subst p. rewrite reverse_singleton in Hp.
        simpl in Hp. congruence. }
    rewrite drop_while_app_exists by done. rewrite IH; [done| |].
    + pose proof (drop_while_length Re.is_space p). simpl. lia.
    + apply stops_reverse_last. intros x Hx. apply Hlast.
      rewrite <- (drop_while_last Re.is_space p); [done|].
      by apply drop_while_exists.
  - rewrite IH; [done|simpl; lia|]. by apply stops_reverse_last.
Qed.

(** What is left and right of a run of white space inside a name. *)
Lemma sanitize_sides a m b :
  stops Re.is_space (reverse a) -> stops Re.is_space b -> kept a -> kept b ->
  replace_unsafe m = m ->
  _sanitize_filename (a ++ m ++ b)
  = collapse (lstrip strip_chars (replace_unsafe a)) ++
    collapse (m ++ rstrip strip_chars (replace_unsafe b)) /\
  stops Re.is_space (rstrip strip_chars (replace_unsafe b)).
Proof.
  intros Ha Hb Hka Hkb Hrm.
  apply replace_unsafe_kept in Hka, Hkb.
  rewrite sanitize_unfold, !replace_unsafe_app, Hrm.
  fold strip_chars. unfold strip.
  rewrite lstrip_app by done. rewrite app_assoc, rstrip_app, <- app_assoc by done.
  split.
  - apply collapse_app_l, stops_reverse_last. intros c Hc.
    rewrite lstrip_last in Hc by done.
    apply replace_unsafe_stops in Ha. rewrite replace_unsafe_reverse in Ha.
    by apply (proj1 (stops_reverse_last _ _) Ha).
  - apply stops_head. intros c Hc. rewrite rstrip_head in Hc by done.
    apply replace_unsafe_stops in Hb. by apply (proj1 (stops_head _ _) Hb).
Qed.

(** A run of white space inside a name gives what one underscore in its
    place gives. *)
Lemma sanitize_inner_run a w b :
  space_run w ->
  stops Re.is_space (reverse a) -> stops Re.is_space b -> kept a -> kept b ->
  _sanitize_filename (a ++ w ++ b) = _sanitize_filename (a ++ [95%N] ++ b).
Proof.
  intros [Hne Hw] Ha Hb Hka Hkb.
  destruct (sanitize_sides a w b) as [-> Hs]; try done.
  { by apply replace_unsafe_spaces. }
  destruct (sanitize_sides a [95%N] b) as [-> _]; try done.
  rewrite collapse_run by done. simpl app. by rewrite collapse_cons.
Qed.

Lemma word_safe s :
  word s -> Forall (fun c => in_chars unsafe_chars c = false) s /\
            Forall (fun c => Re.is_space c = false) s.
Proof. intros H. split; eapply Forall_impl; try exact H; by intros c [? ?]. Qed.

Lemma word_app s t : word s -> word t -> word (s ++ t).
Proof. intros Hs Ht. apply Forall_app. by split. Qed.

Lemma strip_chars_spec c : in_chars strip_chars c = true <-> c = 46%N \/ c = 32%N.
Proof.
  change (in_chars strip_chars c) with ((c =? 46)%N || ((c =? 32)%N || false)).
  rewrite !orb_true_iff, !N.eqb_eq. split; [|tauto].
  by intros [?|[?|?]]; [left|right|].
Qed.

(** Words with one run of white space between them: the name is the words
    with one underscore between them, also when a word ends or starts with
    a period next to the run. *)
Lemma sanitize_words a w b x y :
  word a -> word b -> space_run w ->
  head a = Some x -> x <> 46%N -> last b = Some y -> y <> 46%N ->
  _sanitize_filename (a ++ w ++ b) = a ++ 95%N :: b.
Proof.
  intros Ha Hb Hw Hx Hx' Hy Hy'.
  destruct (word_safe a Ha) as [Ha1 Ha2], (word_safe b Hb) as [Hb1 Hb2].
  assert (forall s c, word s -> c ∈ s -> c <> 46%N -> in_chars strip_chars c = false)
    as Hout.
  { intros s c Hs Hin Hc. destruct (in_chars strip_chars c) eqn:Hi; [|done].
    apply strip_chars_spec in Hi as [->| ->]; [done|].
    apply word_safe in Hs as [_ Hs]. rewrite Forall_forall in Hs.
    by specialize (Hs _ Hin). }
  assert (in_chars strip_chars x = false) as Hsx.
  { apply (Hout a); [done| |done]. destruct a; [done|]. injection Hx as ->. by left. }
  assert (in_chars strip_chars y = false) as Hsy.
  { apply (Hout b); [done| |done]. by eapply last_Some_elem_of. }
  rewrite sanitize_inner_run; try done.
  - assert (word (a ++ [95%N] ++ b)) as Hab.
    { apply word_app; [done|]. apply word_app; [|done]. by repeat constructor. }
    apply word_safe in Hab as [H1 H2].
    rewrite sanitize_unfold, replace_unsafe_id by done. fold strip_chars.
    rewrite strip_id; [by rewrite collapse_id|].
    split.
    + destruct a; [done|]. injection Hx as ->. exact Hsx.
    + apply stops_reverse_last. intros c. rewrite !last_app, Hy. by intros [= <-].
  - apply stops_reverse_last. intros c Hc%last_Some_elem_of.
    rewrite Forall_forall in Ha2. by apply Ha2.
  - destruct b as [|c b]; [done|]. by inversion Hb2.
  - apply Exists_exists. exists x. split; [|done]. destruct a; [done|].
    injection Hx as ->. by left.
  - apply Exists_exists. exists y. split; [by eapply last_Some_elem_of|done].
Qed.

(** * Ledger *)

Lemma save_calls w p url index wd :
  saves (snd (save_url_to_csv w p url index wd)) = saves wd ++ [(index, url)].
Proof.
  unfold save_url_to_csv, append_row. simpl.
  by destruct (csv_append w _), (files wd !! p) as [[|]|].
Qed.

Lemma save_requests w p url index wd :
  requests (snd (save_url_to_csv w p url index wd)) = requests wd.
Proof.
  unfold save_url_to_csv, append_row. simpl.
  by destruct (csv_append w _), (files wd !! p) as [[|]|].
Qed.

Lemma save_files w p url index wd :
  files (snd (save_url_to_csv w p url index wd))
  = if lands w p wd
    then <[p := File (bytes wd p)
                  (ledger wd p ++ [Row index url (now w (length (saves wd)))])]>
           (files wd)
    else files wd.
Proof.
  unfold save_url_to_csv, append_row, lands, is_dir, bytes, ledger. simpl.
  by destruct (csv_append w _), (files wd !! p) as [[|]|].
Qed.


Lemma save_ledger w p url index wd :
  ledger (snd (save_url_to_csv w p url index wd)) p
  = if lands w p wd
    then ledger wd p ++ [Row index url (now w (length (saves wd)))]
    else ledger wd p.
Proof.
  unfold ledger at 1. rewrite save_files.
  destruct (lands w p wd); [by rewrite lookup_insert_eq|done].
Qed.

Lemma save_other w p url index wd q :
  q <> p -> files (snd (save_url_to_csv w p url index wd)) !! q = files wd !! q.
Proof.
  intros Hq. rewrite save_files. destruct (lands w p wd); [|done].
  by rewrite lookup_insert_ne.
Qed.

Lemma is_ledger_not_dir wd p : is_ledger wd p -> is_dir wd p = false.
Proof. intros [rows H]. unfold is_dir. by rewrite H. Qed.

Lemma save_is_ledger w p url index wd :
  is_ledger wd p -> is_ledger (snd (save_url_to_csv w p url index wd)) p.
Proof.
  intros [rows H]. unfold is_ledger. rewrite save_files.
  destruct (lands w p wd); [|by exists rows].
  rewrite lookup_insert_eq. unfold bytes. rewrite H. by eexists.
Qed.

Lemma lands_when_written w p wd :
  every_row_written w -> is_ledger wd p -> lands w p wd = true.
Proof.
  intros Hw Hl. unfold lands. rewrite is_ledger_not_dir by done.
  specialize (Hw (length (saves wd))). by destruct (csv_append w _).
Qed.

(** * What the scans preserve *)

Section Preserved.

Variable w : csv_world.
Variable csv_path : option pystr.
Variable P : harvest -> Prop.
Hypothesis add_new_P : forall u h, P h -> P (add_new w csv_path u h).

Lemma visit_P url st : P (seen st) -> P (seen (visit w csv_path url st)).
Proof. apply add_new_P. Qed.

Lemma scan_elements_P els st :
  P (seen st) -> P (seen (fst (scan_elements w csv_path els st))).
Proof.
  induction els as [|[|[url|]| |] els IH]; simpl; try done.
  destruct (contains googleusercontent url); [apply visit_P|done].
Qed.

Lemma scan_selectors_P sels st found :
  P (seen st) -> P (seen (fst (scan_selectors w csv_path sels st found))).
Proof.
  revert st found. induction sels as [|[els|] sels IH]; simpl; intros st found H.
  - done.
  - pose proof (scan_elements_P els st H) as H'.
    destruct (scan_elements w csv_path els st) as [st' f]. by apply IH.
  - by apply IH.
Qed.

Lemma scan_all_imgs_P urls st found :
  P (seen st) -> P (seen (fst (scan_all_imgs w csv_path urls st found))).
Proof.
  revert st found. induction urls as [|url urls IH]; simpl; intros st found H.
  - done.
  - destruct (contains googleusercontent url); apply IH; [by apply visit_P|done].
Qed.

Lemma gallery_step_P max_images o st :
  P (seen st) -> P (seen (flow_state (gallery_step w csv_path max_images o st))).
Proof.
  intros H. unfold gallery_step.
  pose proof (scan_selectors_P (img_selectors o) st false H) as H1.
  destruct (scan_selectors w csv_path (img_selectors o) st false) as [st1 f1].
  simpl in H1.
  assert (P (seen (fst (if f1 then (st1, f1)
            else match all_imgs o with
                 | Some urls => scan_all_imgs w csv_path urls st1 f1
                 | None => (st1, f1)
                 end)))) as H2.
  { destruct f1; [done|]. destruct (all_imgs o); [by apply scan_all_imgs_P|done]. }
  destruct (if f1 then _ else _) as [st2 f2]. simpl in H2.
  repeat match goal with
         | |- context [if ?b then _ else _] => destruct b; simpl; try done
         end.
Qed.

(** The loop is left at the latest in the iteration whose next control
    cannot be engaged. *)
Lemma gallery_step_no_next max_images o st :
  next_clicked o = false ->
  exists st', gallery_step w csv_path max_images o st = Break st'.
Proof.
  intros Hn. unfold gallery_step.
  destruct (scan_selectors w csv_path (img_selectors o) st false) as [st1 f1].
  destruct (if f1 then _ else _) as [st2 f2]. rewrite Hn.
  repeat match goal with
         | |- context [if ?b then _ else _] => destruct b; simpl
         end; by eexists.
Qed.

Lemma gallery_loop_exits max_images trace st :
  Exists (fun o => next_clicked o = false) trace ->
  snd (gallery_loop w csv_path max_images trace st) = true.
Proof.
  intros H. revert st. induction H as [o trace Ho|o trace _ IH]; intros st; simpl.
  - by destruct (gallery_step_no_next max_images o st Ho) as [st' ->].
  - destruct (gallery_step w csv_path max_images o st); [done|apply IH].
Qed.

Lemma gallery_loop_P max_images trace st :
  P (seen st) -> P (seen (fst (gallery_loop w csv_path max_images trace st))).
Proof.
  revert st. induction trace as [|o trace IH]; simpl; intros st H; [done|].
  pose proof (gallery_step_P max_images o st H) as H'.
  destruct (gallery_step w csv_path max_images o st); simpl in *; [done|by apply IH].
Qed.

End Preserved.

(** * The ledger in the gallery loop *)

Lemma create_csv_file_ok E w location_name wd p wd1 :
  create_csv_file E w location_name wd = (Ok p, wd1) ->
  files wd1 !! p = Some (File csv_header []) /\
  is_dir wd1 (location_dir E location_name) = true /\
  saves wd1 = saves wd /\ requests wd1 = requests wd.
Proof.
  unfold create_csv_file. fold (location_dir E location_name).
  destruct (ensure_dir E wd _) as [wd0|e] eqn:He; [|done].
  assert (saves wd0 = saves wd /\ requests wd0 = requests wd) as [Hs Hr].
  { revert He. unfold ensure_dir, makedirs.
    destruct (path_exists _ _); [by intros [= <-]|].
    destruct (mkdir_fails _ _); by intros [= <-]. }
  unfold write_file. set (cp := path_join _ _).
  destruct (is_dir wd0 (location_dir E location_name)) eqn:Hd; [|done]. simpl.
  destruct (is_dir wd0 cp) eqn:Hp; [done|].
  destruct (write_fails _ _); [done|]. intros [= <- <-]. simpl.
  rewrite lookup_insert_eq. repeat split; try done.
  unfold is_dir in *. simpl.
  destruct (decide (cp = location_dir E location_name)) as [Heq|Hne].
  - rewrite Heq in Hp. by rewrite Hp in Hd.
  - by rewrite lookup_insert_ne.
Qed.

Lemma ledger_inv_init w wd p :
  files wd !! p = Some (File csv_header []) ->
  ledger_inv w wd p (Harvest ∅ 1 wd).
Proof.
  intros Hp. exists []. simpl. unfold ledger. rewrite Hp, app_nil_r.
  repeat split; try done; try constructor; try set_solver. by exists [].
Qed.

Lemma add_url_ledger_inv w wd0 p u h :
  u ∉ image_urls h ->
  ledger_inv w wd0 p h -> ledger_inv w wd0 p (add_url w (Some p) u h).
Proof.
  intros Hnew (cs & Hs & Hl & Hidx & Hnext & Hnd & Hin & Hsub & Hall).
  exists (cs ++ [(url_index h, u)]). unfold add_url. simpl.
  rewrite save_calls, save_ledger, Hs, <- app_assoc.
  rewrite !fmap_app, length_app. simpl.
  replace (length cs + 1) with (S (length cs)) by lia.
  split; [done|]. split; [by apply save_is_ledger|]. split; [|split; [|split; [|split]]].
  - rewrite seqZ_S, Hidx, Hnext. f_equal. f_equal. lia.
  - lia.
  - apply NoDup_app. repeat split; [done| |apply NoDup_singleton].
    intros x Hx ->%list_elem_of_singleton. by apply Hnew, Hin.
  - intros x.
    rewrite elem_of_union, elem_of_singleton, elem_of_app, list_elem_of_singleton, Hin.
    tauto.
  - split.
    + destruct (lands w p (fs h)).
      * rewrite fmap_app. by apply sublist_app.
      * by apply sublist_inserts_r.
    + intros Hw. rewrite lands_when_written by done.
      rewrite fmap_app, (Hall Hw). done.
Qed.

Lemma add_new_ledger_inv w wd0 p u h :
  ledger_inv w wd0 p h -> ledger_inv w wd0 p (add_new w (Some p) u h).
Proof.
  intros H. unfold add_new. destruct (decide (u ∈ image_urls h)); [done|].
  by apply add_url_ledger_inv.
Qed.

(** The rows and the returned list, from the invariant. *)
Lemma ledger_inv_elements w wd0 p h :
  ledger_inv w wd0 p h ->
  exists cs,
    saves (fs h) = saves wd0 ++ cs /\
    cs.*1 = seqZ 1 (Z.of_nat (length (elements (image_urls h)))) /\
    cs.*2 ≡ₚ elements (image_urls h) /\
    (entry <$> ledger (fs h) p) `sublist_of` cs /\
    (every_row_written w -> entry <$> ledger (fs h) p = cs).
Proof.
  intros (cs & Hs & _ & Hidx & _ & Hnd & Hin & Hsub & Hall). exists cs.
  assert (cs.*2 ≡ₚ elements (image_urls h)) as Hperm.
  { apply NoDup_Permutation; [done|apply NoDup_elements|].
    intros u. by rewrite elem_of_elements, Hin. }
  repeat split; try done.
  rewrite Hidx. do 2 f_equal.
  by rewrite <- (Permutation_length Hperm), length_fmap.
Qed.

(** * The ledger of the direct scan *)

Lemma zip_seqZ_cons (u : pystr) (urls : list pystr) i :
  zip (seqZ i (Z.of_nat (length (u :: urls)))) (u :: urls)
  = (i, u) :: zip (seqZ (i + 1) (Z.of_nat (length urls))) urls.
Proof.
  simpl length. rewrite (seqZ_cons i) by lia. simpl zip.
  do 2 f_equal. f_equal; lia.
Qed.

Lemma save_enumerated_calls w p urls i wd :
  saves (save_enumerated w p urls i wd)
  = saves wd ++ zip (seqZ (i + 1) (Z.of_nat (length urls))) urls.
Proof.
  revert i wd. induction urls as [|u urls IH]; intros i wd.
  - simpl. by rewrite app_nil_r.
  - rewrite zip_seqZ_cons. simpl save_enumerated.
    by rewrite IH, save_calls, <- app_assoc.
Qed.


Lemma save_enumerated_rows w p urls : forall i wd cs,
  is_ledger wd p ->
  (entry <$> ledger wd p) `sublist_of` cs ->
  (every_row_written w -> entry <$> ledger wd p = cs) ->
  is_ledger (save_enumerated w p urls i wd) p /\
  (entry <$> ledger (save_enumerated w p urls i wd) p)
    `sublist_of` (cs ++ zip (seqZ (i + 1) (Z.of_nat (length urls))) urls) /\
  (every_row_written w ->
   entry <$> ledger (save_enumerated w p urls i wd) p
   = cs ++ zip (seqZ (i + 1) (Z.of_nat (length urls))) urls).
Proof.
  induction urls as [|u urls IH]; intros i wd cs Hl Hsub Hall.
  - simpl. by rewrite app_nil_r.
  - rewrite zip_seqZ_cons. simpl save_enumerated.
    replace (cs ++ (i + 1, u)%Z :: zip (seqZ (i + 1 + 1) (Z.of_nat (length urls))) urls)
      with ((cs ++ [(i + 1, u)%Z])
            ++ zip (seqZ (i + 1 + 1) (Z.of_nat (length urls))) urls)
      by by rewrite <- app_assoc.
    apply IH.
    + by apply save_is_ledger.
    + rewrite save_ledger. destruct (lands w p wd).
      * rewrite fmap_app. by apply sublist_app.
      * by apply sublist_inserts_r.
    + intros Hw. rewrite save_ledger, lands_when_written by done.
      by rewrite fmap_app, (Hall Hw).
Qed.

Lemma zip_seqZ_fst (urls : list pystr) i :
  (zip (seqZ i (Z.of_nat (length urls))) urls).*1 = seqZ i (Z.of_nat (length urls)).
Proof. apply fst_zip. rewrite length_seqZ. lia. Qed.

Lemma zip_seqZ_snd (urls : list pystr) i :
  (zip (seqZ i (Z.of_nat (length urls))) urls).*2 = urls.
Proof. apply snd_zip. rewrite length_seqZ. lia. Qed.

Lemma direct_returns w csv_path pg wd :
  fst (_extract_images_direct w csv_path pg wd)
  = elements (image_urls (snd (_extract_images_direct w csv_path pg wd))).
Proof. reflexivity. Qed.

(** Without a ledger the scans leave the disk alone. *)
Lemma add_new_no_ledger w u h : fs (add_new w None u h) = fs h.
Proof. unfold add_new, add_url. by destruct (decide _). Qed.

Lemma add_url_no_ledger w u h : fs (add_url w None u h) = fs h.
Proof. reflexivity. Qed.

Lemma setup_csv_on E w location_name wd :
  location_name <> [] ->
  setup_csv E w true location_name wd
  = match create_csv_file E w location_name wd with
    | (Ok csv_path, wd) => (Ok (Some csv_path), wd)
    | (Raise e, wd) => (Raise e, wd)
    end.
Proof. intros H. unfold setup_csv. by rewrite bool_decide_eq_true_2. Qed.

(** The calls of [save_url_to_csv] one extraction makes, and what the disk
    keeps of them. *)
Lemma extract_calls E w max_images location_name pg wd urls wd' :
  location_name <> [] ->
  extract_image_urls E w true max_images location_name pg wd
  = (Some (Ok urls), wd') ->
  exists p wd1 cs,
    create_csv_file E w location_name wd = (Ok p, wd1) /\
    NoDup urls /\
    saves wd' = saves wd ++ cs /\
    cs.*1 = seqZ 1 (Z.of_nat (length urls)) /\
    cs.*2 ≡ₚ urls /\
    (entry <$> ledger wd' p) `sublist_of` cs /\
    (every_row_written w -> entry <$> ledger wd' p = cs).
Proof.
  intros Hloc. unfold extract_image_urls. rewrite setup_csv_on by done.
  destruct (create_csv_file E w location_name wd) as [[p|e] wd1] eqn:Hc; [|done].
  destruct (create_csv_file_ok _ _ _ _ _ _ Hc) as (Hp & _ & Hs & _).
  intros Hrun. exists p, wd1. rewrite <- Hs. revert Hrun.
  destruct (in_gallery_view pg); simpl negb; cbv iota.
  - pose proof (gallery_loop_P w (Some p) (ledger_inv w wd1 p)
                  (add_new_ledger_inv w wd1 p) max_images (gallery pg)
                  (gallery_start wd1) (ledger_inv_init w wd1 p Hp)) as Hinv.
    destruct (gallery_loop w (Some p) max_images (gallery pg) (gallery_start wd1))
      as [st [|]]; simpl in *; intros [= <- <-].
    destruct (ledger_inv_elements _ _ _ _ Hinv) as (cs & H1 & H2 & H3 & H4 & H5).
    exists cs. repeat split; try done. apply NoDup_elements.
  - rewrite direct_returns. set (urls0 := elements _).
    destruct urls0 as [|u us] eqn:Hurls.
    + rewrite bool_decide_eq_false_2 by (intros H; by apply H). intros [= <- <-].
      exists []. rewrite app_nil_r. unfold ledger. rewrite Hp.
      repeat split; try done. constructor.
    + rewrite bool_decide_eq_true_2 by done. rewrite <- Hurls. intros [= <- <-].
      exists (zip (seqZ 1 (Z.of_nat (length urls0))) urls0).
      rewrite save_enumerated_calls. simpl Z.add.
      rewrite zip_seqZ_fst, zip_seqZ_snd.
      destruct (save_enumerated_rows w p urls0 0 wd1 [])
        as (_ & H1 & H2); try (unfold ledger; by rewrite Hp).
      { by exists []. }
      repeat split; try done. apply NoDup_elements.
Qed.

(** * The ledger does not steer the extraction *)

Section Independent.

Variables w1 w2 : csv_world.
Variable csv_path : option pystr.









End Independent.

Lemma direct_no_ledger w pg wd :
  fs (snd (_extract_images_direct w None pg wd)) = wd.
Proof.
  unfold _extract_images_direct. simpl. destruct (js_images pg) as [urls|]; [|done].
  assert (forall urls h, fs (direct_js w None urls h) = fs h) as Hjs.
  { clear. induction urls as [|u urls IH]; intros h; simpl; [done|].
    destruct (contains _ _); by rewrite IH. }
  assert (forall els h, fs (direct_elements w None els h) = fs h) as Hel.
  { clear. induction els as [|[|[u|]| |] els IH]; intros h; simpl; try done.
    destruct (contains _ _); rewrite IH; [apply add_new_no_ledger|done]. }
  assert (forall sels h, fs (direct_selectors w None sels h) = fs h) as Hsel.
  { intros sels. induction sels as [|[els|] sels IH]; intros h; simpl; try done.
    by rewrite IH, Hel. }
  destruct (decide _); by rewrite ?Hsel, Hjs.
Qed.





(** * What the scans do with the sources they are offered *)

Section Offered.

Variable w : csv_world.
Variable csv_path : option pystr.
Variable P : harvest -> Prop.
Variable Q : pystr -> Prop.
Hypothesis add_new_Q : forall raw h,
  Q raw -> contains googleusercontent raw = true ->
  P h -> P (add_new w csv_path (high_res raw) h).
Hypothesis add_url_Q : forall raw h,
  Q raw -> contains googleusercontent raw = true ->
  P h -> P (add_url w csv_path (high_res raw) h).

Lemma scan_elements_Q els st :
  Forall Q (element_srcs els) -> P (seen st) ->
  P (seen (fst (scan_elements w csv_path els st))).
Proof.
  induction els as [|[|[url|]| |] els IH]; simpl; try done.
  intros [Hq Hrest]%Forall_cons_1 Hp.
  destruct (contains googleusercontent url) eqn:Hc; [by apply add_new_Q|by apply IH].
Qed.

Lemma scan_selectors_Q sels st found :
  Forall Q (selector_srcs sels) -> P (seen st) ->
  P (seen (fst (scan_selectors w csv_path sels st found))).
Proof.
  revert st found. induction sels as [|[els|] sels IH]; simpl; intros st found Hq Hp.
  - done.
  - apply Forall_app in Hq as [Hq1 Hq2].
    pose proof (scan_elements_Q els st Hq1 Hp) as H'.
    destruct (scan_elements w csv_path els st) as [st' f]. by apply IH.
  - by apply IH.
Qed.

Lemma scan_all_imgs_Q urls st found :
  Forall Q urls -> P (seen st) ->
  P (seen (fst (scan_all_imgs w csv_path urls st found))).
Proof.
  revert st found. induction urls as [|url urls IH]; simpl; intros st found Hq Hp.
  - done.
  - apply Forall_cons_1 in Hq as [Hq1 Hq2].
    destruct (contains googleusercontent url) eqn:Hc; apply IH; try done.
    by apply add_new_Q.
Qed.

Lemma gallery_step_Q max_images o st :
  Forall Q (step_srcs o) -> P (seen st) ->
  P (seen (flow_state (gallery_step w csv_path max_images o st))).
Proof.
  intros [Hq1 Hq2]%Forall_app Hp. unfold gallery_step.
  pose proof (scan_selectors_Q (img_selectors o) st false Hq1 Hp) as H1.
  destruct (scan_selectors w csv_path (img_selectors o) st false) as [st1 f1].
  simpl in H1.
  assert (P (seen (fst (if f1 then (st1, f1)
            else match all_imgs o with
                 | Some urls => scan_all_imgs w csv_path urls st1 f1
                 | None => (st1, f1)
                 end)))) as H2.
  { destruct f1; [done|]. destruct (all_imgs o); [by apply scan_all_imgs_Q|done]. }
  destruct (if f1 then _ else _) as [st2 f2]. simpl in H2.
  repeat match goal with
         | |- context [if ?b then _ else _] => destruct b; simpl; try done
         end.
Qed.

Lemma gallery_loop_Q max_images trace st :
  Forall Q (trace_srcs trace) -> P (seen st) ->
  P (seen (fst (gallery_loop w csv_path max_images trace st))).
Proof.
  revert st. induction trace as [|o trace IH]; simpl; intros st Hq Hp; [done|].
  apply Forall_app in Hq as [Hq1 Hq2].
  pose proof (gallery_step_Q max_images o st Hq1 Hp) as H'.
  destruct (gallery_step w csv_path max_images o st); simpl in *; [done|by apply IH].
Qed.

Lemma direct_js_Q urls h :
  Forall Q urls -> P h -> P (direct_js w csv_path urls h).
Proof.
  revert h. induction urls as [|url urls IH]; simpl; intros h Hq Hp; [done|].
  apply Forall_cons_1 in Hq as [Hq1 Hq2].
  destruct (contains googleusercontent url) eqn:Hc; apply IH; try done.
  by apply add_url_Q.
Qed.

Lemma direct_elements_Q els h :
  Forall Q (element_srcs els) -> P h -> P (direct_elements w csv_path els h).
Proof.
  revert h. induction els as [|[|[url|]| |] els IH]; simpl; intros h Hq Hp;
    try done; try by apply IH.
  apply Forall_cons_1 in Hq as [Hq1 Hq2].
  destruct (contains googleusercontent url) eqn:Hc; apply IH; try done.
  by apply add_new_Q.
Qed.

Lemma direct_selectors_Q sels h :
  Forall Q (selector_srcs sels) -> P h -> P (direct_selectors w csv_path sels h).
Proof.
  revert h. induction sels as [|[els|] sels IH]; simpl; intros h Hq Hp.
  - done.
  - apply Forall_app in Hq as [Hq1 Hq2]. apply IH; [done|].
    by apply direct_elements_Q.
  - by apply IH.
Qed.

End Offered.

Lemma direct_harvest_Q w csv_path pg wd (P : harvest -> Prop) (Q : pystr -> Prop) :
  (forall raw h, Q raw -> contains googleusercontent raw = true ->
     P h -> P (add_new w csv_path (high_res raw) h)) ->
  (forall raw h, Q raw -> contains googleusercontent raw = true ->
     P h -> P (add_url w csv_path (high_res raw) h)) ->
  Forall Q (default [] (js_images pg) ++ selector_srcs (image_selectors pg)) ->
  P (Harvest ∅ 1 wd) ->
  P (snd (_extract_images_direct w csv_path pg wd)).
Proof.
  intros Hnew Hurl [Hq1 Hq2]%Forall_app Hp. unfold _extract_images_direct. simpl.
  destruct (js_images pg) as [urls|]; [|done]. simpl in Hq1.
  pose proof (direct_js_Q w _ P Q Hurl urls _ Hq1 Hp) as H1.
  destruct (decide _); [|done]. by apply (direct_selectors_Q w _ P Q Hnew).
Qed.

(** * The URLs returned were offered by the page *)

Lemma add_url_urls w csv_path u h :
  image_urls (add_url w csv_path u h) = {[ u ]} ∪ image_urls h.
Proof. unfold add_url. by destruct csv_path. Qed.

Lemma add_new_urls w csv_path u h :
  image_urls (add_new w csv_path u h) = {[ u ]} ∪ image_urls h.
Proof.
  unfold add_new. destruct (decide _) as [Hin|]; [|apply add_url_urls].
  apply set_eq. intros x. rewrite elem_of_union, elem_of_singleton.
  split; [by right|]. by intros [->|?].
Qed.

Lemma add_new_harvested w csv_path offered raw h :
  raw ∈ offered -> contains googleusercontent raw = true ->
  (forall u, u ∈ image_urls h -> harvested offered u) ->
  forall u, u ∈ image_urls (add_new w csv_path (high_res raw) h) ->
            harvested offered u.
Proof.
  intros Hin Hc Hh u. rewrite add_new_urls.
  intros [->%elem_of_singleton|Hu]%elem_of_union; [by exists raw|by apply Hh].
Qed.

Lemma add_url_harvested w csv_path offered raw h :
  raw ∈ offered -> contains googleusercontent raw = true ->
  (forall u, u ∈ image_urls h -> harvested offered u) ->
  forall u, u ∈ image_urls (add_url w csv_path (high_res raw) h) ->
            harvested offered u.
Proof.
  intros Hin Hc Hh u. rewrite add_url_urls.
  intros [->%elem_of_singleton|Hu]%elem_of_union; [by exists raw|by apply Hh].
Qed.

Lemma Forall_elem_of_self (l : list pystr) : Forall (fun x => x ∈ l) l.
Proof. by apply Forall_forall. Qed.

(** X4: every URL [extract_image_urls] returns is the normal form of a
    source the page offered that names the asset host, and is its own
    normal form. *)
Theorem extracted_urls_offered E w save_csv max_images location_name pg wd urls wd' :
  extract_image_urls E w save_csv max_images location_name pg wd
  = (Some (Ok urls), wd') ->
  forall u, u ∈ urls -> harvested (observed pg) u /\ high_res u = u.
Proof.
  intros Hrun u Hu.
  assert (harvested (observed pg) u) as Hh.
  { revert Hrun. unfold extract_image_urls, observed.
    destruct (setup_csv E w save_csv location_name wd) as [[cp|e] wd1]; [|done].
    destruct (in_gallery_view pg); simpl negb; cbv iota.
    - pose proof (gallery_loop_Q w cp
                    (fun h => forall u, u ∈ image_urls h ->
                                        harvested (trace_srcs (gallery pg)) u)
                    (fun raw => raw ∈ trace_srcs (gallery pg))
                    (fun raw h => add_new_harvested w cp _ raw h)
                    max_images (gallery pg) (gallery_start wd1)
                    (Forall_elem_of_self _)) as Hinv.
      destruct (gallery_loop w cp max_images (gallery pg) (gallery_start wd1))
        as [st [|]]; intros [= <- <-]. simpl in Hinv.
      apply Hinv; [set_solver|]. by apply elem_of_elements.
    - rewrite direct_returns. intros [= <- _].
      apply elem_of_elements in Hu. revert u Hu.
      apply (direct_harvest_Q w None pg wd1
               (fun h => forall u, u ∈ image_urls h -> harvested _ u)
               (fun raw => raw ∈ default [] (js_images pg)
                                 ++ selector_srcs (image_selectors pg))).
      + intros raw h. apply add_new_harvested.
      + intros raw h. apply add_url_harvested.
      + apply Forall_elem_of_self.
      + set_solver. }
  split; [done|]. destruct Hh as (raw & _ & _ & ->). apply high_res_idempotent.
Qed.

(** * The ledger when writes fail *)

(** X5: whatever the disk does with the appends, the indices of the
    ledger rows are taken in order from 1, ..., N without a repeat, N the
    number of URLs returned, and every row carries a URL that was returned,
    none twice. *)
Theorem ledger_rows_under_failures E w max_images location_name pg wd urls wd' :
  location_name <> [] ->
  extract_image_urls E w true max_images location_name pg wd
  = (Some (Ok urls), wd') ->
  exists csv_path,
    fst (create_csv_file E w location_name wd) = Ok csv_path /\
    (row_index <$> ledger wd' csv_path)
      `sublist_of` seqZ 1 (Z.of_nat (length urls)) /\
    NoDup (row_url <$> ledger wd' csv_path) /\
    (forall r, r ∈ ledger wd' csv_path -> row_url r ∈ urls).
Proof.
  intros Hloc Hrun.
  destruct (extract_calls _ _ _ _ _ _ _ _ Hloc Hrun)
    as (p & wd1 & cs & Hc & Hnd & _ & Hidx & Hurls & Hsub & _).
  exists p. rewrite Hc. split; [done|].
  assert ((row_url <$> ledger wd' p) `sublist_of` cs.*2) as H2.
  { rewrite (list_fmap_compose entry snd). by apply fmap_sublist. }
  split; [|split].
  - rewrite <- Hidx, (list_fmap_compose entry fst). by apply fmap_sublist.
  - eapply sublist_NoDup; [|exact H2]. by rewrite Hurls.
  - intros r Hr. rewrite <- Hurls. eapply elem_of_sublist; [|exact H2].
    apply list_elem_of_fmap. by exists r.
Qed.

(** * The loop as the trace grows *)

Lemma gallery_loop_app w csv_path max_images t1 t2 st :
  gallery_loop w csv_path max_images (t1 ++ t2) st
  = if snd (gallery_loop w csv_path max_images t1 st)
    then gallery_loop w csv_path max_images t1 st
    else gallery_loop w csv_path max_images t2
           (fst (gallery_loop w csv_path max_images t1 st)).
Proof.
  revert st. induction t1 as [|o t1 IH]; intros st; simpl; [done|].
  destruct (gallery_step w csv_path max_images o st); [done|apply IH].
Qed.

Lemma save_ledger_grows w p url index wd q :
  ledger wd q `prefix_of` ledger (snd (save_url_to_csv w p url index wd)) q.
Proof.
  destruct (decide (q = p)) as [->|Hne].
  - rewrite save_ledger. destruct (lands w p wd); [by apply prefix_app_r|done].
  - unfold ledger. by rewrite save_other.
Qed.

Lemma add_new_grows w csv_path (h0 : harvest) u h :
  (forall q, ledger (fs h0) q `prefix_of` ledger (fs h) q) /\
  image_urls h0 ⊆ image_urls h ->
  (forall q, ledger (fs h0) q `prefix_of` ledger (fs (add_new w csv_path u h)) q) /\
  image_urls h0 ⊆ image_urls (add_new w csv_path u h).
Proof.
  intros [Hr Hu]. split; [|rewrite add_new_urls; set_solver].
  intros q. unfold add_new, add_url. destruct (decide _); [done|].
  destruct csv_path as [p|]; simpl; [|done].
  etrans; [apply Hr|apply save_ledger_grows].
Qed.

(** X6: the ledger is only appended to and the dedup set only grows as
    the gallery loop goes on: the rows a file holds after a part of the run
    are a prefix of the rows it holds later. *)
Theorem ledger_grows_with_trace w csv_path max_images t1 t2 st :
  (forall q,
     ledger (fs (seen (fst (gallery_loop w csv_path max_images t1 st)))) q
       `prefix_of`
     ledger (fs (seen (fst (gallery_loop w csv_path max_images (t1 ++ t2) st)))) q) /\
  image_urls (seen (fst (gallery_loop w csv_path max_images t1 st)))
    ⊆ image_urls (seen (fst (gallery_loop w csv_path max_images (t1 ++ t2) st))).
Proof.
  rewrite gallery_loop_app.
  destruct (snd (gallery_loop w csv_path max_images t1 st)); [done|].
  set (st1 := fst (gallery_loop w csv_path max_images t1 st)).
  apply (gallery_loop_P w csv_path
           (fun h => (forall q, ledger (fs (seen st1)) q `prefix_of` ledger (fs h) q) /\
                     image_urls (seen st1) ⊆ image_urls h)).
  - intros u h. apply add_new_grows.
  - done.
Qed.

(** * One iteration, in two halves *)

Lemma gallery_step_scan w csv_path max_images o st :
  gallery_step w csv_path max_images o st =
  let '(st2, found_image) := scan_page w csv_path o st in
  if negb found_image && (max_consecutive_errors <=? consecutive_errors st2)%Z
  then Break st2
  else if max_reached max_images st2 then Break st2
  else if negb (next_clicked o) then Break st2
  else
    let n := size (image_urls (seen st2)) in
    let sa := if decide (n = last_count st2)
              then (scroll_attempts st2 + 1)%Z else 0%Z in
    let st3 := GalleryState (seen st2) (consecutive_errors st2) n sa in
    if (max_scroll_attempts <=? sa)%Z then Break st3 else Continue st3.
Proof.
  unfold gallery_step, scan_page.
  destruct (scan_selectors w csv_path (img_selectors o) st false) as [st1 f1].
  destruct (if f1 then _ else _) as [st2 f2]. by destruct f2.
Qed.

Section Counters.

Variable w : csv_world.
Variable csv_path : option pystr.

Lemma scan_elements_counters els st :
  same_counters st (fst (scan_elements w csv_path els st)).
Proof.
  induction els as [|[|[url|]| |] els IH]; simpl; try done.
  by destruct (contains googleusercontent url).
Qed.

Lemma scan_selectors_counters sels st found :
  same_counters st (fst (scan_selectors w csv_path sels st found)).
Proof.
  revert st found. induction sels as [|[els|] sels IH]; simpl; intros st found.
  - done.
  - destruct (scan_elements_counters els st) as [H1 H2].
    destruct (scan_elements w csv_path els st) as [st' f]. simpl in *.
    destruct (IH st' (found || f)) as [H3 H4]. split; congruence.
  - apply IH.
Qed.

Lemma scan_all_imgs_counters urls st found :
  same_counters st (fst (scan_all_imgs w csv_path urls st found)).
Proof.
  revert st found. induction urls as [|url urls IH]; simpl; intros st found; [done|].
  destruct (contains googleusercontent url); [|apply IH].
  destruct (IH (visit w csv_path url st) true) as [H1 H2]. by split.
Qed.

Lemma scan_page_counters o st :
  same_counters st (fst (scan_page w csv_path o st)).
Proof.
  unfold scan_page.
  destruct (scan_selectors_counters (img_selectors o) st false) as [H1 H2].
  destruct (scan_selectors w csv_path (img_selectors o) st false) as [st1 f1].
  simpl in H1, H2.
  assert (same_counters st1
            (fst (if f1 then (st1, f1)
                  else match all_imgs o with
                       | Some urls => scan_all_imgs w csv_path urls st1 f1
                       | None => (st1, f1)
                       end))) as [H3 H4].
  { destruct f1; [done|]. destruct (all_imgs o); [apply scan_all_imgs_counters|done]. }
  destruct (if f1 then _ else _) as [st2 f2]. simpl in H3, H4.
  unfold same_counters. destruct f2; simpl; split; congruence.
Qed.

Lemma scan_page_P (P : harvest -> Prop) o st :
  (forall u h, P h -> P (add_new w csv_path u h)) ->
  P (seen st) -> P (seen (fst (scan_page w csv_path o st))).
Proof.
  intros Hadd Hp. unfold scan_page.
  pose proof (scan_selectors_P w csv_path P Hadd (img_selectors o) st false Hp) as H1.
  destruct (scan_selectors w csv_path (img_selectors o) st false) as [st1 f1].
  simpl in H1.
  assert (P (seen (fst (if f1 then (st1, f1)
            else match all_imgs o with
                 | Some urls => scan_all_imgs w csv_path urls st1 f1
                 | None => (st1, f1)
                 end)))) as H2.
  { destruct f1; [done|]. destruct (all_imgs o); [by apply scan_all_imgs_P|done]. }
  destruct (if f1 then _ else _) as [st2 f2]. simpl in H2. by destruct f2.
Qed.

Lemma scan_page_grows o st :
  image_urls (seen st) ⊆ image_urls (seen (fst (scan_page w csv_path o st))).
Proof.
  apply (scan_page_P (fun h => image_urls (seen st) ⊆ image_urls h)); [|done].
  intros u h Hh. rewrite add_new_urls. set_solver.
Qed.

(** An iteration that does not leave the loop moves the measure on. *)
Lemma gallery_step_progress max_images o st st' :
  at_head st ->
  gallery_step w csv_path max_images o st = Continue st' ->
  at_head st' /\ (progress st + 1 <= progress st')%Z /\
  max_reached max_images st' = false.
Proof.
  intros [Hl Hs]. rewrite gallery_step_scan.
  destruct (scan_page_counters o st) as [Hc1 Hc2].
  pose proof (scan_page_grows o st) as Hg%subseteq_size.
  destruct (scan_page w csv_path o st) as [st2 f2]. simpl in Hc1, Hc2, Hg.
  destruct (negb f2 && _); [done|].
  destruct (max_reached max_images st2) eqn:Hmax; [done|].
  destruct (negb (next_clicked o)); [done|]. cbv zeta.
  destruct (max_scroll_attempts <=? _)%Z eqn:Hsa; [done|]. intros [= <-].
  apply Z.leb_gt in Hsa. unfold max_scroll_attempts in Hsa.
  unfold at_head, progress. simpl. rewrite Hc1, Hc2 in *.
  split; [|split].
  - split; [done|]. destruct (decide _); lia.
  - destruct (decide _) as [He|Hne]; [rewrite He; lia|lia].
  - unfold max_reached in *. by destruct max_images.
Qed.

(** While the number of URLs stays within [B], the loop is left before the
    measure passes [30 * B + 29]. *)
Lemma gallery_loop_bounded max_images (B : nat) (J : gallery_state -> Prop) :
  (forall st, J st -> size (image_urls (seen st)) <= B) ->
  forall trace,
    (forall o st st', o ∈ trace -> J st ->
       gallery_step w csv_path max_images o st = Continue st' -> J st') ->
    forall st, J st -> at_head st ->
      (30 * Z.of_nat B + 29 < progress st + Z.of_nat (length trace))%Z ->
      snd (gallery_loop w csv_path max_images trace st) = true.
Proof.
  intros HB trace. induction trace as [|o trace IH]; intros HJ st Hj Hh Hlen.
  - specialize (HB st Hj). destruct Hh as [_ Hs]. unfold progress in Hlen.
    simpl in Hlen. lia.
  - simpl. destruct (gallery_step w csv_path max_images o st) as [|st'] eqn:Hstep;
      [done|].
    destruct (gallery_step_progress max_images o st st' Hh Hstep) as (Hh' & Hp & _).
    apply IH; try done.
    + intros o' s s' Ho'. apply HJ. by right.
    + apply (HJ o st st'); [by left|done|done].
    + simpl length in Hlen. lia.
Qed.

End Counters.

Lemma gallery_start_urls wd : image_urls (seen (gallery_start wd)) = ∅.
Proof. reflexivity. Qed.

Lemma at_head_start wd : at_head (gallery_start wd).
Proof. split; [done|]. simpl. lia. Qed.

Lemma extract_gallery E w save_csv max_images location_name pg wd :
  in_gallery_view pg = true ->
  extract_image_urls E w save_csv max_images location_name pg wd
  = match setup_csv E w save_csv location_name wd with
    | (Raise e, wd1) => (Some (Raise e), wd1)
    | (Ok csv_path, wd1) =>
        let r := gallery_loop w csv_path max_images (gallery pg) (gallery_start wd1) in
        (if snd r then Some (Ok (elements (image_urls (seen (fst r))))) else None,
         fs (seen (fst r)))
    end.
Proof.
  intros Hg. unfold extract_image_urls. rewrite Hg. simpl negb. cbv iota.
  destruct (setup_csv _ _ _ _ _) as [[cp|e] wd1]; [|done].
  by destruct (gallery_loop _ _ _ _ _).
Qed.

Lemma gallery_step_below_cap w csv_path max_images o st st' :
  gallery_step w csv_path max_images o st = Continue st' ->
  max_reached max_images st' = false.
Proof.
  rewrite gallery_step_scan.
  destruct (scan_page w csv_path o st) as [st2 f2].
  destruct (negb f2 && _); [done|].
  destruct (max_reached max_images st2) eqn:Hmax; [done|].
  destruct (negb (next_clicked o)); [done|]. cbv zeta.
  destruct (max_scroll_attempts <=? _)%Z; [done|]. intros [= <-].
  unfold max_reached in *. by destruct max_images.
Qed.

(** X7: with a cap of [m >= 1] images the gallery loop is left within
    [30 * m] iterations, whatever the page shows: on every page that shows
    that many, [extract_image_urls] returns a list, unless the ledger could
    not be created and the exception of [create_csv_file] ends it. *)
Theorem extraction_ends_under_cap E w save_csv (m : Z) location_name pg wd :
  in_gallery_view pg = true ->
  (1 <= m)%Z ->
  (30 * m <= Z.of_nat (length (gallery pg)))%Z ->
  exists r,
    fst (extract_image_urls E w save_csv (Some m) location_name pg wd) = Some r /\
    (forall e, r = Raise e ->
       fst (setup_csv E w save_csv location_name wd) = Raise e).
Proof.
  intros Hg Hm Hlen. rewrite (extract_gallery _ _ _ _ _ _ _ Hg).
  destruct (setup_csv E w save_csv location_name wd) as [[cp|e] wd1];
    [|exists (Raise e); split; [done|by intros ? [= <-]]].
  cbv zeta. simpl fst.
  rewrite (gallery_loop_bounded w cp (Some m) (Z.to_nat (m - 1))
             (fun st => (Z.of_nat (size (image_urls (seen st))) < m)%Z)).
  - by eexists.
  - intros st Hst. lia.
  - intros o st st' _ _ Hstep%gallery_step_below_cap.
    simpl in Hstep. destruct (Z.eqb_spec m 0); [lia|]. simpl in Hstep. lia.
  - rewrite gallery_start_urls, size_empty. lia.
  - apply at_head_start.
  - unfold progress. rewrite gallery_start_urls, size_empty. simpl. lia.
Qed.

Lemma trace_srcs_step (Q : pystr -> Prop) trace o :
  Forall Q (trace_srcs trace) -> o ∈ trace -> Forall Q (step_srcs o).
Proof.
  induction trace as [|o' trace IH]; simpl; [by intros _ ?%elem_of_nil|].
  intros [H1 H2]%Forall_app [->|Ho]%elem_of_cons; [done|by apply IH].
Qed.

(** X8: on a page that only ever shows the photos of a finite set [photos],
    the gallery loop is left within [30 * (size photos + 1)] iterations, with or
    without a cap and even if the next control never fails: a carousel does
    not keep [extract_image_urls] going for ever.  It returns URLs of the
    set, unless the exception of [create_csv_file] ends it. *)
Theorem extraction_ends_on_carousel (E : download_env) (w : csv_world)
    (save_csv : bool) (max_images : option Z) (location_name : pystr)
    (pg : page) (wd : world) (photos : gset pystr) :
  in_gallery_view pg = true ->
  (forall raw, raw ∈ observed pg -> contains googleusercontent raw = true ->
     high_res raw ∈ photos) ->
  30 * (size photos + 1) <= length (gallery pg) ->
  exists r,
    fst (extract_image_urls E w save_csv max_images location_name pg wd) = Some r /\
    (forall e, r = Raise e ->
       fst (setup_csv E w save_csv location_name wd) = Raise e) /\
    (forall urls u, r = Ok urls -> u ∈ urls -> u ∈ photos).
Proof.
  intros Hg HS Hlen. rewrite (extract_gallery _ _ _ _ _ _ _ Hg).
  destruct (setup_csv E w save_csv location_name wd) as [[cp|e] wd1];
    [|exists (Raise e); split; [done|split; [by intros ? [= <-]|done]]].
  cbv zeta. simpl fst.
  unfold observed in HS. rewrite Hg in HS.
  set (Q := fun raw : pystr => contains googleusercontent raw = true -> high_res raw ∈ photos).
  assert (Forall Q (trace_srcs (gallery pg))) as HQ by by apply Forall_forall.
  assert (forall raw h, Q raw -> contains googleusercontent raw = true ->
            image_urls h ⊆ photos -> image_urls (add_new w cp (high_res raw) h) ⊆ photos)
    as Hadd.
  { intros raw h Hq Hc Hh. specialize (Hq Hc). rewrite add_new_urls.
    apply union_subseteq; split; [by apply singleton_subseteq_l|done]. }
  rewrite (gallery_loop_bounded w cp max_images (size photos)
             (fun st => image_urls (seen st) ⊆ photos)).
  - eexists. split; [reflexivity|]. split; [done|].
    intros urls u [= <-] Hu%elem_of_elements.
    pose proof (gallery_loop_Q w cp (fun h => image_urls h ⊆ photos) Q Hadd
                  max_images (gallery pg) (gallery_start wd1) HQ) as H.
    apply H; [rewrite gallery_start_urls; set_solver|done].
  - intros st Hst. by apply subseteq_size.
  - intros o st st' Ho Hst Hstep.
    pose proof (gallery_step_Q w cp (fun h => image_urls h ⊆ photos) Q Hadd
                  max_images o st (trace_srcs_step Q _ _ HQ Ho) Hst) as H.
    by rewrite Hstep in H.
  - rewrite gallery_start_urls. set_solver.
  - apply at_head_start.
  - unfold progress. rewrite gallery_start_urls, size_empty. simpl. lia.
Qed.

(** * The error budget *)

Section Blank.

Variable w : csv_world.
Variable csv_path : option pystr.

Lemma scan_elements_blank els st :
  Forall (fun raw => contains googleusercontent raw = false) (element_srcs els) ->
  scan_elements w csv_path els st = (st, false).
Proof.
  induction els as [|[|[url|]| |] els IH]; simpl; try done.
  intros [Hc Hrest]%Forall_cons_1. rewrite Hc. by apply IH.
Qed.

Lemma scan_selectors_blank sels st :
  Forall (fun raw => contains googleusercontent raw = false) (selector_srcs sels) ->
  scan_selectors w csv_path sels st false = (st, false).
Proof.
  induction sels as [|[els|] sels IH]; simpl; try done.
  intros [H1 H2]%Forall_app. rewrite scan_elements_blank by done. by apply IH.
Qed.

Lemma scan_all_imgs_blank urls st :
  Forall (fun raw => contains googleusercontent raw = false) urls ->
  scan_all_imgs w csv_path urls st false = (st, false).
Proof.
  induction 1 as [|url urls Hc _ IH]; simpl; [done|]. by rewrite Hc.
Qed.

Lemma scan_page_blank o st :
  blank o ->
  scan_page w csv_path o st
  = (GalleryState (seen st) (consecutive_errors st + 1)
       (last_count st) (scroll_attempts st), false).
Proof.
  intros [H1 H2]%Forall_app. unfold scan_page.
  rewrite scan_selectors_blank by done.
  destruct (all_imgs o) as [urls|]; [|done].
  by rewrite scan_all_imgs_blank.
Qed.

(** Blank iterations leave the harvest alone and use up the budget. *)
Lemma gallery_loop_blank max_images trace : forall st,
  Forall blank trace ->
  (consecutive_errors st < 5)%Z ->
  (5 <= consecutive_errors st + Z.of_nat (length trace))%Z ->
  snd (gallery_loop w csv_path max_images trace st) = true /\
  seen (fst (gallery_loop w csv_path max_images trace st)) = seen st.
Proof.
  induction trace as [|o trace IH]; intros st Hb Hlt Hlen; [simpl in Hlen; lia|].
  apply Forall_cons_1 in Hb as [Hb1 Hb2].
  simpl gallery_loop. rewrite gallery_step_scan, scan_page_blank by done.
  simpl negb. unfold max_consecutive_errors. simpl consecutive_errors.
  destruct (5 <=? consecutive_errors st + 1)%Z eqn:He; [done|].
  simpl andb. cbv iota.
  destruct (max_reached _ _); [done|]. destruct (negb (next_clicked o)); [done|].
  cbv zeta. destruct (max_scroll_attempts <=? _)%Z; [done|].
  apply Z.leb_gt in He.
  match goal with
  | |- context [gallery_loop _ _ _ _ ?s] => destruct (IH s) as [H1 H2]
  end; try done; simpl; try lia.
  simpl length in Hlen. lia.
Qed.

End Blank.

(** X9: when the first five views of the gallery offer no asset URL,
    [extract_image_urls] returns the empty list and leaves the disk as the
    creation of the ledger left it, with no row written, whatever the page
    shows afterwards. *)
Theorem five_blank_views_end_extraction E w save_csv max_images location_name pg wd
    (blanks rest : list step_obs) :
  in_gallery_view pg = true ->
  gallery pg = blanks ++ rest ->
  length blanks = 5 ->
  Forall blank blanks ->
  extract_image_urls E w save_csv max_images location_name pg wd
  = (match fst (setup_csv E w save_csv location_name wd) with
     | Ok _ => Some (Ok [])
     | Raise e => Some (Raise e)
     end,
     snd (setup_csv E w save_csv location_name wd)).
Proof.
  intros Hg Htr Hlen Hb. rewrite (extract_gallery _ _ _ _ _ _ _ Hg).
  destruct (setup_csv E w save_csv location_name wd) as [[cp|e] wd1]; [|done].
  cbv zeta. rewrite Htr, gallery_loop_app.
  destruct (gallery_loop_blank w cp max_images blanks (gallery_start wd1) Hb)
    as [Hex Hseen].
  - simpl. lia.
  - simpl. lia.
  - rewrite Hex, Hex, Hseen. by rewrite gallery_start_urls, elements_empty.
Qed.

(** * A cap of zero *)

Lemma gallery_loop_zero_cap w csv_path trace st :
  gallery_loop w csv_path (Some 0%Z) trace st
  = gallery_loop w csv_path None trace st.
Proof.
  revert st. induction trace as [|o trace IH]; intros st; simpl; [done|].
  assert (gallery_step w csv_path (Some 0%Z) o st
          = gallery_step w csv_path None o st) as ->.
  { rewrite !gallery_step_scan. by destruct (scan_page w csv_path o st). }
  destruct (gallery_step w csv_path None o st); [done|apply IH].
Qed.

(** X10: a cap of zero images is no cap: [extract_image_urls] does with
    [max_images = 0] what it does with no [max_images]. *)
Theorem zero_cap_is_no_cap E w save_csv location_name pg wd :
  extract_image_urls E w save_csv (Some 0%Z) location_name pg wd
  = extract_image_urls E w save_csv None location_name pg wd.
Proof.
  unfold extract_image_urls.
  destruct (setup_csv _ _ _ _ _) as [[cp|e] wd1]; [|done].
  destruct (in_gallery_view pg); [|done].
  simpl negb. cbv iota. by rewrite gallery_loop_zero_cap.
Qed.

(** * What the scans take from a view *)

Section Reads.

Variable w : csv_world.
Variable csv_path : option pystr.

Lemma add_new_keeps (v u : pystr) h :
  v ∈ image_urls h -> v ∈ image_urls (add_new w csv_path u h).
Proof. rewrite add_new_urls. set_unfold. by right. Qed.

Lemma add_new_adds (u : pystr) h : u ∈ image_urls (add_new w csv_path u h).
Proof. rewrite add_new_urls. set_unfold. by left. Qed.

Lemma add_url_keeps (v u : pystr) h :
  v ∈ image_urls h -> v ∈ image_urls (add_url w csv_path u h).
Proof. rewrite add_url_urls. set_unfold. by right. Qed.

Lemma add_url_adds (u : pystr) h : u ∈ image_urls (add_url w csv_path u h).
Proof. rewrite add_url_urls. set_unfold. by left. Qed.

Lemma scan_elements_taken els raw st :
  taken els raw ->
  high_res raw ∈ image_urls (seen (fst (scan_elements w csv_path els st))) /\
  snd (scan_elements w csv_path els st) = true.
Proof.
  intros (pre & post & -> & Hpre & Hc).
  induction Hpre as [|e pre He _ IH]; simpl.
  - rewrite Hc. split; [apply add_new_adds|done].
  - destruct e as [|[url|]| |]; simpl in He; try done. by rewrite He.
Qed.

Lemma scan_elements_none els st :
  (forall u, ~ taken els u) -> scan_elements w csv_path els st = (st, false).
Proof.
  assert (forall e els, passed e -> (forall u, ~ taken (e :: els) u) ->
            forall u, ~ taken els u) as Hcons.
  { intros e els' He H u (pre & post & -> & Hpre & Hc). apply (H u).
    exists (e :: pre), post. split; [done|]. split; [by constructor|done]. }
  induction els as [|[|[url|]| |] els IH]; simpl; intros H; try done.
  - apply IH. by apply (Hcons Hidden).
  - destruct (contains googleusercontent url) eqn:Hc.
    + destruct (H url). by exists [], els.
    + apply IH. by apply (Hcons (Shown (Some url))).
  - apply IH. by apply (Hcons (Shown None)).
Qed.

Lemma scan_selectors_found sels st :
  snd (scan_selectors w csv_path sels st true) = true.
Proof.
  revert st. induction sels as [|[els|] sels IH]; intros st; simpl; try done.
  by destruct (scan_elements w csv_path els st).
Qed.

Lemma scan_selectors_taken sels els raw : forall st found,
  Some els ∈ sels -> taken els raw ->
  high_res raw ∈ image_urls (seen (fst (scan_selectors w csv_path sels st found))) /\
  snd (scan_selectors w csv_path sels st found) = true.
Proof.
  induction sels as [|sel sels IH]; intros st found Hin Ht;
    [by apply elem_of_nil in Hin|].
  apply elem_of_cons in Hin as [<-|Hin].
  - simpl. destruct (scan_elements_taken els raw st Ht) as [H1 H2].
    destruct (scan_elements w csv_path els st) as [st' f]. simpl in H1, H2. subst f.
    rewrite orb_true_r. split; [|apply scan_selectors_found].
    apply (scan_selectors_P w csv_path (fun h => high_res raw ∈ image_urls h));
      [|done].
    intros u h. apply add_new_keeps.
  - destruct sel as [els'|]; simpl; [|by apply IH].
    destruct (scan_elements w csv_path els' st). by apply IH.
Qed.

Lemma scan_selectors_none sels st :
  (forall els u, Some els ∈ sels -> ~ taken els u) ->
  scan_selectors w csv_path sels st false = (st, false).
Proof.
  induction sels as [|[els|] sels IH]; simpl; intros H; [done| |].
  - rewrite scan_elements_none by (intros u; apply H; by left).
    apply IH. intros els' u Hin. apply H. by right.
  - apply IH. intros els' u Hin. apply H. by right.
Qed.

Lemma scan_all_imgs_reads urls raw : forall st found,
  raw ∈ urls -> contains googleusercontent raw = true ->
  high_res raw ∈ image_urls (seen (fst (scan_all_imgs w csv_path urls st found))).
Proof.
  induction urls as [|url urls IH]; intros st found Hin Hc;
    [by apply elem_of_nil in Hin|].
  apply elem_of_cons in Hin as [<-|Hin]; simpl.
  - rewrite Hc.
    apply (scan_all_imgs_P w csv_path (fun h => high_res raw ∈ image_urls h)).
    + intros u h. apply add_new_keeps.
    + apply add_new_adds.
  - destruct (contains googleusercontent url); by apply IH.
Qed.

Lemma scan_page_reads o raw st :
  read_in o raw ->
  high_res raw ∈ image_urls (seen (fst (scan_page w csv_path o st))).
Proof.
  intros Hr. unfold scan_page. destruct Hr as [(els & Hin & Ht)|[Hno Hr]].
  - destruct (scan_selectors_taken (img_selectors o) els raw st false Hin Ht)
      as [H1 H2].
    destruct (scan_selectors w csv_path (img_selectors o) st false) as [st1 f1].
    simpl in H1, H2. by subst f1.
  - rewrite scan_selectors_none by done.
    destruct Hr as (urls & -> & Hin & Hc).
    pose proof (scan_all_imgs_reads urls raw st false Hin Hc) as H.
    destruct (scan_all_imgs w csv_path urls st false) as [st2 f2]. simpl in H.
    by destruct f2.
Qed.

Lemma gallery_step_reads max_images o raw st :
  read_in o raw ->
  high_res raw
    ∈ image_urls (seen (flow_state (gallery_step w csv_path max_images o st))).
Proof.
  intros Hr. rewrite gallery_step_scan.
  pose proof (scan_page_reads o raw st Hr) as H.
  destruct (scan_page w csv_path o st) as [st2 f2]. simpl in H.
  repeat match goal with
         | |- context [if ?b then _ else _] => destruct b; simpl; try done
         end.
Qed.

(** What is read in a view the loop gets to is in the set the loop ends
    with. *)
Lemma gallery_loop_reads max_images before o after raw st :
  snd (gallery_loop w csv_path max_images before st) = false ->
  read_in o raw ->
  high_res raw
    ∈ image_urls (seen (fst (gallery_loop w csv_path max_images
                               (before ++ o :: after) st))).
Proof.
  intros Hb Hr. rewrite gallery_loop_app, Hb. simpl gallery_loop.
  pose proof (gallery_step_reads max_images o raw
                (fst (gallery_loop w csv_path max_images before st)) Hr) as H.
  destruct (gallery_step w csv_path max_images o _) as [st'|st']; simpl in H;
    [done|].
  apply (gallery_loop_P w csv_path (fun h => high_res raw ∈ image_urls h));
    [|done].
  intros u h. apply add_new_keeps.
Qed.

Lemma direct_js_reads urls raw : forall h,
  raw ∈ urls -> contains googleusercontent raw = true ->
  high_res raw ∈ image_urls (direct_js w csv_path urls h).
Proof.
  induction urls as [|url urls IH]; intros h Hin Hc; [by apply elem_of_nil in Hin|].
  apply elem_of_cons in Hin as [<-|Hin]; simpl.
  - rewrite Hc.
    apply (direct_js_Q w csv_path (fun h => high_res raw ∈ image_urls h)
             (fun _ => True)).
    + intros r h' _ _. apply add_url_keeps.
    + by apply Forall_forall.
    + apply add_url_adds.
  - destruct (contains googleusercontent url); by apply IH.
Qed.

End Reads.

Lemma direct_reads w csv_path pg wd urls raw :
  js_images pg = Some urls ->
  raw ∈ urls -> contains googleusercontent raw = true ->
  high_res raw ∈ fst (_extract_images_direct w csv_path pg wd).
Proof.
  intros Hjs Hin Hc. rewrite direct_returns. apply elem_of_elements.
  unfold _extract_images_direct. rewrite Hjs. simpl.
  pose proof (direct_js_reads w csv_path urls raw (Harvest ∅ 1 wd) Hin Hc) as H.
  destruct (decide _); [|done].
  apply (direct_selectors_Q w csv_path (fun h => high_res raw ∈ image_urls h)
           (fun _ => True)); [|by apply Forall_forall|done].
  intros r h _ _. apply add_new_keeps.
Qed.

(** Every source the extraction discovers has its normal form in the list
    returned. *)
Lemma extract_complete E w save_csv max_images location_name pg wd urls wd' raw :
  extract_image_urls E w save_csv max_images location_name pg wd
  = (Some (Ok urls), wd') ->
  discovered E w save_csv max_images location_name pg wd raw ->
  high_res raw ∈ urls.
Proof.
  unfold extract_image_urls, discovered.
  destruct (in_gallery_view pg); simpl negb; cbv iota.
  - intros Hrun (before & o & after & cp & wd1 & Hg & Hc & Hb & Hr).
    rewrite Hc in Hrun.
    pose proof (gallery_loop_reads w cp max_images before o after raw
                  (gallery_start wd1) Hb Hr) as H.
    rewrite <- Hg in H.
    destruct (gallery_loop w cp max_images (gallery pg) (gallery_start wd1))
      as [st [|]]; [|done].
    injection Hrun as <- <-. by apply elem_of_elements.
  - intros Hrun (l & Hjs & Hin & Hc).
    destruct (setup_csv _ _ _ _ _) as [[cp|e] wd1]; [|done].
    injection Hrun as <- _. by apply (direct_reads w None pg wd1 l).
Qed.

(** C3, as the code has it: when the ledger is kept and every append is
    written, the rows of the ledger after an extraction that returned carry
    the indices 1, 2, ..., N in this order, N the number of URLs returned;
    these URLs are pairwise distinct, the URLs of the rows are the URLs
    returned, each once, and every source the extraction discovered has its
    row; in the gallery loop and in the direct scan alike. *)
Theorem ledger_indices_contiguous E w max_images location_name pg wd urls wd' :
  location_name <> [] ->
  every_row_written w ->
  extract_image_urls E w true max_images location_name pg wd
  = (Some (Ok urls), wd') ->
  exists csv_path,
    fst (create_csv_file E w location_name wd) = Ok csv_path /\
    NoDup urls /\
    row_index <$> ledger wd' csv_path = seqZ 1 (Z.of_nat (length urls)) /\
    row_url <$> ledger wd' csv_path ≡ₚ urls /\
    (forall raw,
       discovered E w true max_images location_name pg wd raw ->
       high_res raw ∈ urls /\
       exists r, r ∈ ledger wd' csv_path /\ row_url r = high_res raw).
Proof.
  intros Hloc Hw Hrun.
  destruct (extract_calls _ _ _ _ _ _ _ _ Hloc Hrun)
    as (p & wd1 & cs & Hc & Hnd & _ & Hidx & Hurls & _ & Hall).
  specialize (Hall Hw). exists p. rewrite Hc.
  rewrite <- Hall in Hidx, Hurls. rewrite <- list_fmap_compose in Hidx, Hurls.
  repeat split; try done.
  - by apply (extract_complete _ _ _ _ _ _ _ _ _ _ Hrun).
  - pose proof (extract_complete _ _ _ _ _ _ _ _ _ _ Hrun H) as Hin.
    rewrite <- Hurls in Hin. apply list_elem_of_fmap in Hin as (r & Hr & Hin).
    by exists r.
Qed.

(** The ledger of the two-photo gallery on a disk that refuses the first
    append: two URLs are returned and the only row carries the index 2. *)
Lemma lost_row_leaves_a_gap : ~ ledger_always_contiguous.
Proof.
  intros H.
  specialize (H E0 first_append_fails None (lit "Cafe") two_step_gallery nowhere
                [high_res photo_b; high_res photo_a] (snd two_step_run_flaky)
                cafe_csv ltac:(discriminate)
                ltac:(vm_compute; reflexivity) ltac:(vm_compute; reflexivity)).
  vm_compute in H. discriminate H.
Qed.

(** C6: with [max_images = 1], a first view of the gallery that answers
    the script query with two photos makes [extract_image_urls] return two
    URLs: the cap is looked at once per iteration, after everything the
    iteration found was added. *)
Theorem max_images_exceeded :
  exists urls,
    fst (extract_image_urls E0 quiet true (Some 1%Z) (lit "Cafe") two_at_once
           nowhere) = Some (Ok urls) /\
    length urls = 2.
Proof. eexists. split; vm_compute; reflexivity. Qed.



(** * Download manager *)

Lemma reachable_answer E url : reachable E url = answer E url (seq 0 max_retries).
Proof.
  unfold reachable. simpl.
  destruct (get E url 0); try done; destruct (get E url 1); try done;
    destruct (get E url 2); done.
Qed.

Lemma request_loop_result E url wd :
  fst (request_loop E url (seq 0 max_retries) wd)
  = match reachable E url with
    | Some content => Ok content
    | None => Raise RequestException
    end.
Proof.
  unfold reachable. simpl.
  destruct (get E url 0); try done; destruct (get E url 1); try done;
    destruct (get E url 2); done.
Qed.

Lemma request_loop_world E url wd :
  files (snd (request_loop E url (seq 0 max_retries) wd)) = files wd /\
  saves (snd (request_loop E url (seq 0 max_retries) wd)) = saves wd /\
  exists k, 1 <= k <= 3 /\
    requests (snd (request_loop E url (seq 0 max_retries) wd))
    = requests wd ++ replicate k url.
Proof.
  simpl.
  destruct (get E url 0); simpl; try (repeat split; exists 1; split; [lia|done]);
    destruct (get E url 1); simpl;
    try (repeat split; exists 2; split; [lia|by rewrite <- app_assoc]);
    destruct (get E url 2); simpl;
    (repeat split; exists 3; split; [lia|by rewrite <- !app_assoc]).
Qed.

Lemma path_exists_lookup wd p : path_exists wd p = true <-> is_Some (files wd !! p).
Proof. unfold path_exists. apply bool_decide_eq_true. Qed.

Lemma path_exists_false wd p : path_exists wd p = false <-> files wd !! p = None.
Proof.
  unfold path_exists. rewrite bool_decide_eq_false, <- eq_None_not_Some. done.
Qed.

Lemma is_dir_exists wd p : is_dir wd p = true -> path_exists wd p = true.
Proof.
  unfold is_dir. intros H. apply path_exists_lookup.
  destruct (files wd !! p); [by eexists|done].
Qed.

Lemma path_exists_insert wd p q x :
  path_exists wd p = true ->
  path_exists (with_files (<[q := x]> (files wd)) wd) p = true.
Proof.
  rewrite !path_exists_lookup. simpl. intros H.
  destruct (decide (q = p)) as [->|Hne].
  - rewrite lookup_insert_eq. by eexists.
  - by rewrite lookup_insert_ne.
Qed.

Lemma path_exists_written wd p x :
  path_exists (with_files (<[p := x]> (files wd)) wd) p = true.
Proof. apply path_exists_lookup. simpl. rewrite lookup_insert_eq. by eexists. Qed.

(** What [makedirs], [ensure_dir] and [write_file] leave behind. *)
Lemma makedirs_ok E wd p wd1 :
  makedirs E wd p = Ok wd1 ->
  files wd !! p = None /\ mkdir_fails E p = false /\
  wd1 = with_files (<[p := Dir]> (files wd)) wd.
Proof.
  unfold makedirs. destruct (path_exists wd p) eqn:Hp; [done|].
  destruct (mkdir_fails E p); [done|]. intros [= <-].
  by apply path_exists_false in Hp.
Qed.

Lemma ensure_dir_ok E wd p wd1 :
  ensure_dir E wd p = Ok wd1 ->
  path_exists wd1 p = true /\ requests wd1 = requests wd /\ saves wd1 = saves wd /\
  files wd ⊆ files wd1 /\
  (forall q, q <> p -> files wd1 !! q = files wd !! q).
Proof.
  unfold ensure_dir. destruct (path_exists wd p) eqn:Hp.
  - by intros [= <-].
  - intros (Hn & _ & ->)%makedirs_ok. simpl. repeat split; try done.
    + apply path_exists_written.
    + by apply insert_subseteq.
    + intros q Hq. by rewrite lookup_insert_ne.
Qed.

Lemma ensure_dir_ready E location_name wd :
  dir_ready E location_name wd ->
  exists wd1, ensure_dir E wd (location_dir E location_name) = Ok wd1 /\
              is_dir wd1 (location_dir E location_name) = true.
Proof.
  unfold ensure_dir, makedirs. intros [Hd|[Hp Hm]].
  - rewrite (is_dir_exists _ _ Hd). by eexists.
  - rewrite Hp, Hm. eexists. split; [done|]. unfold is_dir. simpl.
    by rewrite lookup_insert_eq.
Qed.

Lemma ensure_dir_there E wd p :
  path_exists wd p = true -> ensure_dir E wd p = Ok wd.
Proof. unfold ensure_dir. by intros ->. Qed.

Lemma write_file_ok E wd dir p content wd1 :
  write_file E wd dir p content = Ok wd1 ->
  is_dir wd dir = true /\ is_dir wd p = false /\ write_fails E p = false /\
  wd1 = with_files (<[p := File content []]> (files wd)) wd.
Proof.
  unfold write_file. destruct (is_dir wd dir); [|done]. simpl.
  destruct (is_dir wd p); [done|]. destruct (write_fails E p); [done|].
  by intros [= <-].
Qed.

Lemma write_file_can E wd dir p content :
  is_dir wd dir = true -> is_dir wd p = false -> write_fails E p = false ->
  write_file E wd dir p content
  = Ok (with_files (<[p := File content []]> (files wd)) wd).
Proof. unfold write_file. by intros -> -> ->. Qed.

Lemma getsize_written wd p content :
  getsize (with_files (<[p := File content []]> (files wd)) wd) p = length content.
Proof. unfold getsize. simpl. rewrite lookup_insert_eq. simpl. lia. Qed.

(** The requests of one call: none when the directory cannot be made or
    the URL cannot be parsed, and one, two or three otherwise. *)
Lemma download_image_requests_exact E url location_name index wd :
  exists k, k <= 3 /\
    requests (snd (download_image E url location_name index wd))
    = requests wd ++ replicate k url /\
    (1 <= k <->
     (exists wd1, ensure_dir E wd (location_dir E location_name) = Ok wd1) /\
     is_Some (file_path E url location_name index)).
Proof.
  unfold download_image, download_body.
  destruct (ensure_dir E wd _) as [wd1|e] eqn:He.
  2:{ exists 0. rewrite app_nil_r. split; [lia|]. split; [done|].
      split; [lia|]. by intros [[? ?] _]. }
  apply ensure_dir_ok in He as (_ & Hr & _).
  destruct (file_path E url location_name index) as [p|].
  2:{ exists 0. simpl. rewrite app_nil_r. split; [lia|]. split; [done|].
      split; [lia|]. by intros [_ [? ?]]. }
  destruct (request_loop_world E url wd1) as (_ & _ & k & Hk & Hreq).
  rewrite Hr in Hreq. exists k. split; [lia|].
  split; [|split; [by split; eexists|lia]].
  destruct (request_loop E url (seq 0 max_retries) wd1) as [[content|e] wd2];
    simpl in Hreq; [|done].
  destruct (path_exists wd2 p); [done|].
  by destruct (write_file E wd2 _ p content) as [wd3|e] eqn:Hw;
    [apply write_file_ok in Hw as (_ & _ & _ & ->)|].
Qed.

Lemma download_image_unreachable E url location_name index wd :
  reachable E url = None ->
  fst (download_image E url location_name index wd) = false.
Proof.
  intros Hr. unfold download_image, download_body.
  destruct (ensure_dir E wd _) as [wd1|e]; [|done].
  destruct (file_path E url location_name index) as [p|]; [|done].
  pose proof (request_loop_result E url wd1) as H. rewrite Hr in H.
  destruct (request_loop E url (seq 0 max_retries) wd1) as [[content|e] wd2];
    simpl in H; done.
Qed.

(** What a call that returns [True] has done. *)
Lemma download_image_true E url location_name index wd :
  fst (download_image E url location_name index wd) = true ->
  exists p content,
    file_path E url location_name index = Some p /\
    reachable E url = Some content /\
    path_exists (snd (download_image E url location_name index wd)) p = true /\
    path_exists (snd (download_image E url location_name index wd))
      (location_dir E location_name) = true.
Proof.
  unfold download_image, download_body.
  destruct (ensure_dir E wd _) as [wd1|e] eqn:He; [|done].
  apply ensure_dir_ok in He as (Hd & _).
  destruct (file_path E url location_name index) as [p|]; [|done].
  pose proof (request_loop_result E url wd1) as Hr.
  destruct (request_loop_world E url wd1) as (Hf & _).
  destruct (request_loop E url (seq 0 max_retries) wd1) as [[content|e] wd2];
    simpl in Hr, Hf; cbv beta iota; [|done].
  assert (path_exists wd2 (location_dir E location_name) = true) as Hd2.
  { unfold path_exists in *. by rewrite Hf. }
  destruct (reachable E url) as [c|]; [|done].
  destruct (path_exists wd2 p) eqn:Hex; simpl.
  - intros _. by exists p, c.
  - destruct (write_file E wd2 _ p content) as [wd3|e] eqn:Hw; simpl; [|done].
    apply write_file_ok in Hw as (_ & _ & _ & ->).
    intros [H1 _]%andb_prop. exists p, c. repeat split; try done.
    by apply path_exists_insert.
Qed.

(** A call that finds its file on disk: the requests are sent all the
    same, and nothing is written. *)
Lemma download_image_existing E url location_name index wd p :
  file_path E url location_name index = Some p ->
  path_exists wd (location_dir E location_name) = true ->
  path_exists wd p = true ->
  fst (download_image E url location_name index wd)
  = bool_decide (is_Some (reachable E url)) /\
  files (snd (download_image E url location_name index wd)) = files wd /\
  exists more,
    requests (snd (download_image E url location_name index wd))
    = requests wd ++ url :: more.
Proof.
  intros Hp Hd Hex. unfold download_image, download_body.
  rewrite (ensure_dir_there _ _ _ Hd), Hp.
  pose proof (request_loop_result E url wd) as H.
  destruct (request_loop_world E url wd) as (Hf & _ & k & Hk & Hreq).
  assert (exists more, requests wd ++ replicate k url = requests wd ++ url :: more)
    as [more Hmore].
  { destruct k as [|k]; [lia|]. by exists (replicate k url). }
  rewrite Hmore in Hreq.
  destruct (request_loop E url (seq 0 max_retries) wd) as [[c|e] wd2];
    simpl in H, Hf, Hreq.
  - assert (path_exists wd2 p = true) as -> by (unfold path_exists in *; by rewrite Hf).
    destruct (reachable E url); [|done]. simpl. repeat split; try done. by exists more.
  - destruct (reachable E url); [done|]. simpl. repeat split; try done. by exists more.
Qed.

(** C1: [download_image] sends its request before it looks for the file.
    Every call that gets to its request loop (the directory of the location
    is there or can be made, and the URL can be parsed) sends at least one
    request, whether the destination is on disk or not; so does a call
    whose destination is on disk.  With the first image of "Cafe" already
    on disk and a host that does not answer, the call sends three requests
    and returns [False]. *)
Theorem existing_file_is_fetched_again :
  (forall E url location_name index wd wd1 p,
     ensure_dir E wd (location_dir E location_name) = Ok wd1 ->
     file_path E url location_name index = Some p ->
     exists more,
       requests (snd (download_image E url location_name index wd))
       = requests wd ++ url :: more) /\
  (forall E url location_name index wd p,
     file_path E url location_name index = Some p ->
     path_exists wd (location_dir E location_name) = true ->
     path_exists wd p = true ->
     exists more,
       requests (snd (download_image E url location_name index wd))
       = requests wd ++ url :: more) /\
  file_path E0 photo_a (lit "Cafe") 1 = Some cafe_1 /\
  path_exists already_there cafe_1 = true /\
  fst (download_image E0 photo_a (lit "Cafe") 1 already_there) = false /\
  requests (snd (download_image E0 photo_a (lit "Cafe") 1 already_there))
  = [photo_a; photo_a; photo_a].
Proof.
  split.
  { intros E url location_name index wd wd1 p Hd Hp.
    destruct (download_image_requests_exact E url location_name index wd)
      as (k & _ & Hreq & Hk).
    assert (1 <= k) as Hpos by (apply Hk; split; [by exists wd1|by exists p]).
    destruct k as [|k]; [lia|]. exists (replicate k url). by rewrite Hreq. }
  split.
  { intros E url location_name index wd p Hp Hd Hex.
    by destruct (download_image_existing E url location_name index wd p Hp Hd Hex)
      as (_ & _ & H). }
  split; [vm_compute; reflexivity|].
  split; [vm_compute; reflexivity|].
  split; [apply download_image_unreachable; reflexivity|].
  vm_compute. reflexivity.
Qed.

(** X11: one call of [download_image] sends at most three requests, all
    for its own URL: none when the directory of the location cannot be made
    or the URL cannot be parsed, and at least one otherwise, whether its
    file is on disk or not. *)
Theorem download_image_request_count E url location_name index wd :
  exists k, k <= 3 /\
    requests (snd (download_image E url location_name index wd))
    = requests wd ++ replicate k url /\
    (1 <= k <->
     (exists wd1, ensure_dir E wd (location_dir E location_name) = Ok wd1) /\
     is_Some (file_path E url location_name index)).
Proof. apply download_image_requests_exact. Qed.

(** X13: when [download_image] returns [True], the destination file is on
    disk and its URL was answered with a success status. *)
Theorem download_success_leaves_file E url location_name index wd :
  fst (download_image E url location_name index wd) = true ->
  (exists p, file_path E url location_name index = Some p /\
             path_exists (snd (download_image E url location_name index wd)) p
             = true) /\
  exists content, reachable E url = Some content.
Proof.
  intros H. destruct (download_image_true _ _ _ _ _ H) as (p & c & ? & ? & ? & ?).
  split; [by exists p|by exists c].
Qed.

(** X14: a download that succeeded, repeated under the same conditions,
    succeeds again and leaves every file as it is. *)
Theorem download_repeat_is_stable E url location_name index wd :
  fst (download_image E url location_name index wd) = true ->
  let wd1 := snd (download_image E url location_name index wd) in
  fst (download_image E url location_name index wd1) = true /\
  files (snd (download_image E url location_name index wd1)) = files wd1.
Proof.
  intros H. destruct (download_image_true _ _ _ _ _ H) as (p & c & Hp & Hc & He & Hd).
  destruct (download_image_existing E url location_name index _ p Hp Hd He)
    as (H1 & H2 & _).
  cbv zeta. rewrite H1, Hc. split; [|done].
  apply bool_decide_eq_true. by eexists.
Qed.

Lemma starts_with_slash s :
  starts_with (lit "/") s = true -> head s = Some 47%N.
Proof.
  destruct s as [|c s]; [done|].
  change (starts_with (lit "/") (c :: s)) with ((47 =? c)%N && true).
  destruct (N.eqb_spec 47 c) as [<-|]; done.
Qed.

(** A file whose name starts with the name of the location and an
    underscore never is the directory it lies in. *)
Lemma path_join_name_not_dir dir location_name rest :
  path_join dir (_sanitize_filename location_name ++ 95%N :: rest) <> dir.
Proof.
  set (filename := _sanitize_filename location_name ++ 95%N :: rest).
  assert (filename <> [] /\ starts_with (lit "/") filename = false) as [Hne Habs].
  { unfold filename. destruct (_sanitize_filename location_name) as [|c t] eqn:Hs.
    - split; [done|]. reflexivity.
    - split; [done|]. destruct (starts_with _ _) eqn:Hsw; [|done].
      apply starts_with_slash in Hsw. injection Hsw as ->.
      pose proof (sanitize_safe location_name) as Hsafe. rewrite Hs in Hsafe.
      by inversion Hsafe. }
  unfold path_join. rewrite Habs.
  destruct (bool_decide (dir = []) || _);
    intros H%(f_equal length); rewrite !length_app in H.
  - destruct filename; [done|]. simpl in H. lia.
  - simpl in H. lia.
Qed.

Lemma file_path_not_dir E url location_name index p :
  file_path E url location_name index = Some p -> p <> location_dir E location_name.
Proof.
  unfold file_path. destruct (url_ext E url) as [ext|]; [|done].
  intros [= <-]. apply path_join_name_not_dir.
Qed.

(** X15: an answer with an empty body is reported as a failure but
    leaves an empty file behind, and a later download of the same item
    then returns [True] with the file still empty. *)
Theorem empty_body_leaves_empty_file E url location_name index wd p :
  reachable E url = Some [] ->
  file_path E url location_name index = Some p ->
  path_exists wd p = false ->
  write_fails E p = false ->
  dir_ready E location_name wd ->
  let wd1 := snd (download_image E url location_name index wd) in
  fst (download_image E url location_name index wd) = false /\
  files wd1 !! p = Some (File [] []) /\
  fst (download_image E url location_name index wd1) = true /\
  files (snd (download_image E url location_name index wd1)) = files wd1.
Proof.
  intros Hr Hp Hex Hw Hdir.
  assert (fst (download_image E url location_name index wd) = false /\
          files (snd (download_image E url location_name index wd)) !! p
          = Some (File [] []) /\
          path_exists (snd (download_image E url location_name index wd))
            (location_dir E location_name) = true) as (H1 & H2 & H3).
  { unfold download_image, download_body.
    destruct (ensure_dir_ready E location_name wd Hdir) as (wd1 & He & Hd).
    rewrite He, Hp.
    apply ensure_dir_ok in He as (_ & _ & _ & _ & Hoth).
    assert (files wd1 !! p = None) as Hn.
    { rewrite Hoth; [by apply path_exists_false|].
      by apply (file_path_not_dir E url location_name index). }
    pose proof (request_loop_result E url wd1) as H. rewrite Hr in H.
    destruct (request_loop_world E url wd1) as (Hf & _).
    destruct (request_loop E url (seq 0 max_retries) wd1) as [[c|e] wd2];
      simpl in H, Hf; [injection H as ->|done].
    assert (path_exists wd2 p = false) as ->.
    { apply path_exists_false. by rewrite Hf. }
    rewrite write_file_can; try done.
    - cbn [fst snd]. rewrite path_exists_written, getsize_written.
      split; [done|]. split; [simpl; by rewrite lookup_insert_eq|].
      apply path_exists_insert, is_dir_exists. unfold is_dir in *. by rewrite Hf.
    - unfold is_dir in *. by rewrite Hf.
    - unfold is_dir. by rewrite Hf, Hn. }
  cbv zeta. split; [done|]. split; [done|].
  destruct (download_image_existing E url location_name index _ p Hp H3)
    as (H4 & H5 & _).
  { apply path_exists_lookup. rewrite H2. by eexists. }
  by rewrite H4, Hr.
Qed.

(** * The pool *)

Lemma fold_left_inv {A B} (f : A -> B -> A) (I : A -> Prop) (l : list B) :
  (forall a x, I a -> I (f a x)) -> forall a, I a -> I (fold_left f l a).
Proof.
  intros Hf. induction l as [|x l IH]; intros a Ha; simpl; [done|].
  by apply IH, Hf.
Qed.

Lemma sum_list_with_insert (f : task -> nat) ts : forall j t t',
  ts !! j = Some t ->
  sum_list_with f (<[j := t']> ts) + f t = sum_list_with f ts + f t'.
Proof.
  induction ts as [|x ts IH]; intros [|j] t t' Hj; simpl in *; try done.
  - injection Hj as ->. lia.
  - specialize (IH j t t' Hj). lia.
Qed.

Lemma sum_list_with_replicate (f : task -> nat) n t :
  sum_list_with f (replicate n t) = n * f t.
Proof. induction n as [|n IH]; simpl; [done|]. rewrite IH. lia. Qed.

Lemma sum_list_with_ended (f : task -> nat) ts :
  (forall ok, f (Done ok) = 0) -> Forall ended ts -> sum_list_with f ts = 0.
Proof.
  intros Hf. induction 1 as [|t ts [ok ->] _ IH]; simpl; [done|].
  by rewrite Hf, IH.
Qed.

Lemma filter_length_le {A} (f : A -> bool) (l : list A) :
  length (List.filter f l) <= length l.
Proof. induction l as [|x l IH]; simpl; [done|]. destruct (f x); simpl; lia. Qed.

Section Pool.

Variable E : download_env.
Variable urls : list pystr.
Variable location_name : pystr.

Lemma task_step_done url index ok wd :
  task_step E url location_name index (Done ok) wd = (Done ok, wd).
Proof. reflexivity. Qed.

Lemma parsed_cases url index :
  parsed E url location_name index = Done false \/
  exists p, file_path E url location_name index = Some p /\
            parsed E url location_name index = Fetch p 0.
Proof. unfold parsed. destruct (file_path _ _ _ _); [right; by eexists|by left]. Qed.

Lemma parsed_moves url index : moves_left (parsed E url location_name index) <= 6.
Proof. unfold parsed. destruct (file_path _ _ _ _); simpl; lia. Qed.

Lemma task_step_moves url index t wd :
  moves_left (fst (task_step E url location_name index t wd))
  <= pred (moves_left t).
Proof.
  pose proof (parsed_moves url index) as Hp.
  destruct t as [| | |p r|p c|p c|p|ok]; simpl; try lia.
  - destruct (path_exists wd _); simpl; lia.
  - destruct (makedirs E wd _); simpl; lia.
  - destruct (get E url r); simpl; try lia;
      destruct r as [|[|r]]; simpl; lia.
  - destruct (path_exists wd p); simpl; lia.
  - destruct (write_file E wd _ p c); simpl; lia.
Qed.

(** One move changes the task that moves and no other. *)
Lemma step_at_spec p j :
  step_at E urls location_name p j = p \/
  exists t url,
    fst p !! j = Some t /\ urls !! j = Some url /\
    step_at E urls location_name p j
    = (<[j := fst (task_step E url location_name (Z.of_nat j + 1) t (snd p))]> (fst p),
       snd (task_step E url location_name (Z.of_nat j + 1) t (snd p))).
Proof.
  unfold step_at. destruct (fst p !! j) as [t|] eqn:Ht; [|by left].
  destruct (urls !! j) as [url|] eqn:Hu; [|by left].
  right. exists t, url. by destruct (task_step _ _ _ _ _ _).
Qed.

Lemma step_at_inv (I : list task * world -> Prop) :
  (forall ts wd j t url,
     ts !! j = Some t -> urls !! j = Some url -> I (ts, wd) ->
     I (<[j := fst (task_step E url location_name (Z.of_nat j + 1) t wd)]> ts,
        snd (task_step E url location_name (Z.of_nat j + 1) t wd))) ->
  forall p j, I p -> I (step_at E urls location_name p j).
Proof.
  intros H [ts wd] j Hp.
  destruct (step_at_spec (ts, wd) j) as [->|(t & url & Ht & Hu & ->)]; [done|].
  by apply H.
Qed.

(** What holds when the tasks are submitted and is kept by every move holds
    when the pool is done. *)
Lemma run_futures_inv (I : list task * world -> Prop) schedule max_workers wd :
  I (replicate (length urls) Queued, wd) ->
  (forall p j, I p -> I (step_at E urls location_name p j)) ->
  I (run_futures E schedule urls location_name max_workers wd).
Proof.
  intros H0 Hstep. unfold run_futures.
  apply fold_left_inv; [done|]. apply fold_left_inv; [|done].
  intros p j Hp. unfold pool_move. destruct (enabled _ _ _); [by apply Hstep|done].
Qed.

Lemma step_at_length p j :
  length (fst (step_at E urls location_name p j)) = length (fst p).
Proof.
  destruct (step_at_spec p j) as [->|(t & url & _ & _ & ->)]; [done|].
  simpl. apply length_insert.
Qed.

Lemma step_at_ended p j i :
  (exists t, fst p !! i = Some t /\ ended t) ->
  exists t, fst (step_at E urls location_name p j) !! i = Some t /\ ended t.
Proof.
  intros (t & Hi & [ok ->]).
  destruct (step_at_spec p j) as [->|(t' & url & Ht & _ & ->)];
    [by exists (Done ok); split; [|eexists]|].
  simpl. exists (Done ok). split; [|by eexists].
  destruct (decide (j = i)) as [->|Hne].
  - rewrite Hi in Ht. injection Ht as <-. simpl.
    rewrite list_lookup_insert_eq; [done|]. by eapply lookup_lt_Some.
  - by rewrite list_lookup_insert_ne.
Qed.

(** Enough moves of one task end it. *)
Lemma moves_end_task (n : nat) j : forall p t,
  fst p !! j = Some t -> j < length urls -> moves_left t <= n ->
  exists t', fst (fold_left (step_at E urls location_name) (replicate n j) p) !! j
             = Some t' /\ ended t'.
Proof.
  induction n as [|n IH]; intros p t Ht Hj Hn; simpl.
  - exists t. split; [done|]. destruct t; simpl in Hn; try lia. by eexists.
  - destruct (lookup_lt_is_Some_2 urls j Hj) as [url Hu].
    assert (step_at E urls location_name p j
            = (<[j := fst (task_step E url location_name (Z.of_nat j + 1) t (snd p))]>
                 (fst p),
               snd (task_step E url location_name (Z.of_nat j + 1) t (snd p)))) as ->.
    { unfold step_at. rewrite Ht, Hu. by destruct (task_step _ _ _ _ _ _). }
    eapply IH; [|done|].
    + simpl. apply list_lookup_insert_eq. by eapply lookup_lt_Some.
    + pose proof (task_step_moves url (Z.of_nat j + 1) t (snd p)). lia.
Qed.

Lemma fold_step_ended js : forall p i,
  (exists t, fst p !! i = Some t /\ ended t) ->
  exists t, fst (fold_left (step_at E urls location_name) js p) !! i = Some t
            /\ ended t.
Proof.
  induction js as [|j js IH]; intros p i H; simpl; [done|].
  by apply IH, step_at_ended.
Qed.

Lemma fold_step_length js : forall p,
  length (fst (fold_left (step_at E urls location_name) js p)) = length (fst p).
Proof.
  induction js as [|j js IH]; intros p; simpl; [done|].
  by rewrite IH, step_at_length.
Qed.

Lemma drain_ends (n : nat) : forall s p,
  length (fst p) = length urls -> s + n <= length urls ->
  (forall i, i < s -> exists t, fst p !! i = Some t /\ ended t) ->
  forall i, i < s + n ->
    exists t,
      fst (fold_left (step_at E urls location_name)
             (flat_map (fun j => replicate 9 j) (seq s n)) p) !! i = Some t
      /\ ended t.
Proof.
  induction n as [|n IH]; intros s p Hlen Hs Hdone i Hi; cbn [seq flat_map].
  - apply Hdone. lia.
  - rewrite fold_left_app. apply (IH (S s)); try lia.
    + by rewrite fold_step_length.
    + intros i' Hi'. destruct (decide (i' = s)) as [->|Hne].
      * destruct (lookup_lt_is_Some_2 (fst p) s ltac:(lia)) as [t Ht].
        apply (moves_end_task 9 s p t); [done|lia|].
        destruct t; simpl; lia.
      * apply fold_step_ended, Hdone. lia.
Qed.

(** Every task of the pool comes to its end. *)
Lemma run_futures_ended schedule max_workers wd :
  length (fst (run_futures E schedule urls location_name max_workers wd))
  = length urls /\
  Forall ended (fst (run_futures E schedule urls location_name max_workers wd)).
Proof.
  unfold run_futures, drain.
  set (p := fold_left (pool_move E urls location_name max_workers) schedule _).
  assert (length (fst p) = length urls) as Hlen.
  { apply (fold_left_inv _ (fun p => length (fst p) = length urls)).
    - intros q j Hq. unfold pool_move. destruct (enabled _ _ _); [|done].
      by rewrite step_at_length.
    - simpl. apply length_replicate. }
  split; [by rewrite fold_step_length|].
  apply Forall_lookup. intros i t Hi.
  destruct (drain_ends (length urls) 0 p Hlen ltac:(lia) ltac:(intros; lia) i)
    as (t' & Ht' & He).
  - apply lookup_lt_Some in Hi. rewrite fold_step_length in Hi. simpl. lia.
  - rewrite Hi in Ht'. by injection Ht' as <-.
Qed.

Lemma successful_bounds ts :
  (0 <= successful_downloads ts <= Z.of_nat (length ts))%Z.
Proof.
  unfold successful_downloads.
  pose proof (filter_length_le succeeded ts). lia.
Qed.

End Pool.

(** * What a batch does to the disk and the network *)

Section Batch.

Variable E : download_env.
Variable urls : list pystr.
Variable location_name : pystr.

(** Nothing that was on disk when the tasks were submitted is lost: a task
    writes only where it found no file, and there was none before. *)
Lemma step_keeps_files (wd0 : world) p j :
  (files wd0 ⊆ files (snd p) /\
   forall i q c, fst p !! i = Some (Save q c) -> files wd0 !! q = None) ->
  files wd0 ⊆ files (snd (step_at E urls location_name p j)) /\
  forall i q c, fst (step_at E urls location_name p j) !! i = Some (Save q c) ->
                files wd0 !! q = None.
Proof.
  revert p j.
  apply (step_at_inv E urls location_name
           (fun p => files wd0 ⊆ files (snd p) /\
                     forall i q c, fst p !! i = Some (Save q c) ->
                                   files wd0 !! q = None)).
  intros ts wd j t url Ht Hu [Hsub Hsave]. simpl in *.
  assert (forall t' wd',
            files wd0 ⊆ files wd' ->
            (forall q c, t' = Save q c -> files wd0 !! q = None) ->
            files wd0 ⊆ files wd' /\
            forall i q c, <[j := t']> ts !! i = Some (Save q c) ->
                          files wd0 !! q = None) as Hnew.
  { intros t' wd' H1 H2. split; [done|]. intros i q c Hi.
    apply list_lookup_insert_Some in Hi as [(-> & Heq & _)|[_ Hi]];
      [by apply (H2 q c)|by apply (Hsave i q c)]. }
  assert (forall q c, parsed E url location_name (Z.of_nat j + 1) <> Save q c)
    as Hparsed.
  { intros q c.
    by destruct (parsed_cases E location_name url (Z.of_nat j + 1))
      as [->|(p & _ & ->)]. }
  destruct t as [| | |p r|p c|p c|p|ok]; simpl.
  - by apply Hnew.
  - apply Hnew; [done|]. intros q c.
    destruct (path_exists wd (location_dir E location_name)); [|done].
    intros H. by destruct (Hparsed q c).
  - destruct (makedirs E wd _) as [wd'|e] eqn:Hm; simpl; [|by apply Hnew].
    apply makedirs_ok in Hm as (Hn & _ & ->). apply Hnew.
    + simpl. etrans; [exact Hsub|]. by apply insert_subseteq.
    + intros q c H. by destruct (Hparsed q c).
  - destruct (get E url r); simpl; apply Hnew; try done; by destruct (r <? _).
  - destruct (path_exists wd p) eqn:Hp; simpl; apply Hnew; try done.
    intros q c' [= <- <-]. apply path_exists_false in Hp.
    by eapply lookup_weaken_None.
  - destruct (write_file E wd _ p c) as [wd'|e] eqn:Hw; simpl; [|by apply Hnew].
    apply write_file_ok in Hw as (_ & _ & _ & ->). apply Hnew; [|done].
    simpl. apply insert_subseteq_r; [|done]. by apply (Hsave j p c).
  - by apply Hnew.
  - by apply Hnew.
Qed.

Lemma run_futures_keeps_files schedule max_workers wd :
  files wd ⊆ files (snd (run_futures E schedule urls location_name max_workers wd)).
Proof.
  apply (run_futures_inv E urls location_name
           (fun p => files wd ⊆ files (snd p) /\
                     forall i q c, fst p !! i = Some (Save q c) ->
                                   files wd !! q = None)).
  - split; [done|]. intros i q c Hi. by apply lookup_replicate in Hi as [? _].
  - intros p j. apply step_keeps_files.
Qed.

(** The requests of a batch: each for a URL of the batch, and no more than
    three for each task. *)
Lemma step_budget (wd0 : world) p j :
  (Forall in_range (fst p) /\
   exists more,
     requests (snd p) = requests wd0 ++ more /\
     Forall (fun u => u ∈ urls) more /\
     length more + sum_list_with budget (fst p) <= 3 * length urls) ->
  Forall in_range (fst (step_at E urls location_name p j)) /\
  exists more,
    requests (snd (step_at E urls location_name p j)) = requests wd0 ++ more /\
    Forall (fun u => u ∈ urls) more /\
    length more + sum_list_with budget (fst (step_at E urls location_name p j))
    <= 3 * length urls.
Proof.
  revert p j.
  apply (step_at_inv E urls location_name
           (fun p => Forall in_range (fst p) /\
                     exists more,
                       requests (snd p) = requests wd0 ++ more /\
                       Forall (fun u => u ∈ urls) more /\
                       length more + sum_list_with budget (fst p)
                       <= 3 * length urls)).
  intros ts wd j t url Ht Hu (Hr & more & Hreq & Hin & Hlen). simpl in *.
  pose proof (proj1 (Forall_lookup _ _) Hr j t Ht) as Hrt.
  assert (forall t' wd' more',
            in_range t' -> requests wd' = requests wd0 ++ more' ->
            Forall (fun u => u ∈ urls) more' ->
            length more' + budget t' <= length more + budget t ->
            Forall in_range (<[j := t']> ts) /\
            exists more0,
              requests wd' = requests wd0 ++ more0 /\
              Forall (fun u => u ∈ urls) more0 /\
              length more0 + sum_list_with budget (<[j := t']> ts)
              <= 3 * length urls) as Hnew.
  { intros t' wd' more' H1 H2 H3 H4. split; [by apply Forall_insert|].
    exists more'. repeat split; try done.
    pose proof (sum_list_with_insert budget ts j t t' Ht). lia. }
  assert (in_range (parsed E url location_name (Z.of_nat j + 1)) /\
          budget (parsed E url location_name (Z.of_nat j + 1)) <= 3) as [Hp1 Hp2].
  { unfold parsed. destruct (file_path _ _ _ _); simpl; unfold max_retries; lia. }
  destruct t as [| | |p r|p c|p c|p|ok]; simpl.
  - apply (Hnew Start wd more); simpl; try done; lia.
  - destruct (path_exists wd _); apply (Hnew _ wd more); simpl; try done; lia.
  - destruct (makedirs E wd _) as [wd'|e] eqn:Hm; simpl;
      [|apply (Hnew _ wd more); simpl; try done; lia].
    apply makedirs_ok in Hm as (_ & _ & ->).
    apply (Hnew _ _ more); simpl; try done; lia.
  - simpl in Hrt. unfold max_retries in Hrt.
    assert (Forall (fun u => u ∈ urls) (more ++ [url])) as Hin'.
    { apply Forall_app. split; [done|]. constructor; [|done].
      by eapply list_elem_of_lookup_2. }
    assert (requests wd ++ [url] = requests wd0 ++ more ++ [url]) as Hreq'
      by by rewrite Hreq, <- app_assoc.
    set (wd' := World (files wd) (requests wd ++ [url]) (saves wd)).
    destruct (get E url r); cbn [fst snd];
      [|destruct (r <? 2) eqn:Hlt..];
      apply (Hnew _ wd' (more ++ [url])); try done;
      try apply Nat.ltb_lt in Hlt; rewrite ?length_app; simpl;
      unfold max_retries in *; lia.
  - destruct (path_exists wd p); apply (Hnew _ wd more); simpl; try done; lia.
  - destruct (write_file E wd _ p c) as [wd'|e] eqn:Hw; simpl;
      [|apply (Hnew _ wd more); simpl; try done; lia].
    apply write_file_ok in Hw as (_ & _ & _ & ->).
    apply (Hnew _ _ more); simpl; try done; lia.
  - apply (Hnew _ wd more); simpl; try done; lia.
  - apply (Hnew _ wd more); simpl; try done; lia.
Qed.

(** With the directory there and every URL parsed, each task sends a
    request before it ends. *)
Lemma step_owing (wd0 : world) p j :
  (forall u, u ∈ urls -> is_Some (url_ext E u)) ->
  (path_exists (snd p) (location_dir E location_name) = true /\
   Forall (fun t => t <> Mkdir) (fst p) /\
   exists more,
     requests (snd p) = requests wd0 ++ more /\
     length (fst p) <= length more + sum_list_with owing (fst p)) ->
  path_exists (snd (step_at E urls location_name p j))
    (location_dir E location_name) = true /\
  Forall (fun t => t <> Mkdir) (fst (step_at E urls location_name p j)) /\
  exists more,
    requests (snd (step_at E urls location_name p j)) = requests wd0 ++ more /\
    length (fst (step_at E urls location_name p j))
    <= length more + sum_list_with owing (fst (step_at E urls location_name p j)).
Proof.
  intros Hext. revert p j.
  apply (step_at_inv E urls location_name
           (fun p => path_exists (snd p) (location_dir E location_name) = true /\
                     Forall (fun t => t <> Mkdir) (fst p) /\
                     exists more,
                       requests (snd p) = requests wd0 ++ more /\
                       length (fst p)
                       <= length more + sum_list_with owing (fst p))).
  intros ts wd j t url Ht Hu (Hd & Hm & more & Hreq & Hlen). simpl in *.
  pose proof (proj1 (Forall_lookup _ _) Hm j t Ht) as Hmt.
  assert (forall t' wd' more',
            path_exists wd' (location_dir E location_name) = true ->
            t' <> Mkdir -> requests wd' = requests wd0 ++ more' ->
            length more + owing t <= length more' + owing t' ->
            path_exists wd' (location_dir E location_name) = true /\
            Forall (fun t => t <> Mkdir) (<[j := t']> ts) /\
            exists more0,
              requests wd' = requests wd0 ++ more0 /\
              length (<[j := t']> ts)
              <= length more0 + sum_list_with owing (<[j := t']> ts)) as Hnew.
  { intros t' wd' more' H1 H2 H3 H4. split; [done|].
    split; [by apply Forall_insert|]. exists more'. split; [done|].
    rewrite length_insert.
    pose proof (sum_list_with_insert owing ts j t t' Ht). lia. }
  assert (exists p, parsed E url location_name (Z.of_nat j + 1) = Fetch p 0)
    as [p0 Hp0].
  { unfold parsed, file_path.
    destruct (Hext url) as [ext ->]; [by eapply list_elem_of_lookup_2|].
    by eexists. }
  destruct t as [| | |p r|p c|p c|p|ok]; simpl; try done.
  - by apply (Hnew Start wd more).
  - apply (Hnew _ wd more); try done; rewrite Hd, Hp0; [done|simpl; lia].
  - set (wd' := World (files wd) (requests wd ++ [url]) (saves wd)).
    assert (path_exists wd' (location_dir E location_name) = true) as Hd' by done.
    assert (requests wd' = requests wd0 ++ more ++ [url]) as Hreq'
      by (simpl; by rewrite Hreq, <- app_assoc).
    destruct (get E url r); cbn [fst snd];
      [|destruct (r <? 2)..];
      apply (Hnew _ wd' (more ++ [url])); try done;
      rewrite ?length_app; simpl; destruct r; lia.
  - destruct (path_exists wd p); by apply (Hnew _ wd more).
  - destruct (write_file E wd _ p c) as [wd'|e] eqn:Hw; simpl;
      [|by apply (Hnew _ wd more)].
    apply write_file_ok in Hw as (_ & _ & _ & ->).
    apply (Hnew _ _ more); try done. by apply path_exists_insert.
  - by apply (Hnew _ wd more).
  - by apply (Hnew _ wd more).
Qed.

Lemma run_futures_bounds schedule max_workers wd :
  exists more,
    requests (snd (run_futures E schedule urls location_name max_workers wd))
    = requests wd ++ more /\
    length more <= 3 * length urls /\
    Forall (fun u => u ∈ urls) more /\
    (path_exists wd (location_dir E location_name) = true ->
     (forall u, u ∈ urls -> is_Some (url_ext E u)) ->
     length urls <= length more).
Proof.
  destruct (run_futures_inv E urls location_name
              (fun p => Forall in_range (fst p) /\
                        exists more,
                          requests (snd p) = requests wd ++ more /\
                          Forall (fun u => u ∈ urls) more /\
                          length more + sum_list_with budget (fst p)
                          <= 3 * length urls)
              schedule max_workers wd) as (_ & more & Hreq & Hin & Hlen).
  { simpl. split; [by apply Forall_replicate|]. exists [].
    rewrite app_nil_r, sum_list_with_replicate. simpl. repeat split; [done|lia]. }
  { intros p j. apply step_budget. }
  exists more. repeat split; try done; [lia|].
  intros Hd Hext.
  destruct (run_futures_inv E urls location_name
              (fun p => path_exists (snd p) (location_dir E location_name) = true /\
                        Forall (fun t => t <> Mkdir) (fst p) /\
                        exists more,
                          requests (snd p) = requests wd ++ more /\
                          length (fst p)
                          <= length more + sum_list_with owing (fst p))
              schedule max_workers wd) as (_ & _ & more' & Hreq' & Hlen').
  { simpl. split; [done|]. split; [by apply Forall_replicate|]. exists [].
    rewrite app_nil_r, sum_list_with_replicate, length_replicate. simpl.
    split; [done|lia]. }
  { intros p j. by apply step_owing. }
  rewrite Hreq in Hreq'. apply app_inv_head in Hreq' as <-.
  destruct (run_futures_ended E urls location_name schedule max_workers wd)
    as [Hl He].
  rewrite Hl, (sum_list_with_ended owing) in Hlen' by done. lia.
Qed.

End Batch.

(** X12: a batch never removes or overwrites what is on disk: every file
    (and directory) there before [download_all_images] is there after it,
    with the same content, however the workers take their turns. *)
Theorem batch_keeps_existing_files E schedule urls location_name max_workers wd :
  files wd
  ⊆ files (snd (download_all_images E schedule urls location_name max_workers wd)).
Proof.
  unfold download_all_images. destruct urls as [|u urls]; [done|].
  destruct (max_workers <=? 0)%Z; [done|].
  pose proof (run_futures_keeps_files E (u :: urls) location_name schedule
                max_workers wd) as H.
  by destruct (run_futures E schedule (u :: urls) location_name max_workers wd).
Qed.

(** X16: a batch with at least one worker ends with a count between 0
    and the number N of URLs, after at most 3 N requests, each for a URL of
    the batch, however the workers take their turns; when the directory of
    the location is there before the batch and every URL can be parsed, at
    least N requests are sent. *)
Theorem batch_bounds E schedule urls location_name max_workers wd :
  (0 < max_workers)%Z ->
  exists n more,
    fst (download_all_images E schedule urls location_name max_workers wd) = Ok n /\
    (0 <= n <= Z.of_nat (length urls))%Z /\
    requests (snd (download_all_images E schedule urls location_name max_workers wd))
    = requests wd ++ more /\
    length more <= 3 * length urls /\
    (forall u, u ∈ more -> u ∈ urls) /\
    (path_exists wd (location_dir E location_name) = true ->
     (forall u, u ∈ urls -> is_Some (url_ext E u)) ->
     length urls <= length more).
Proof.
  intros Hw. unfold download_all_images. destruct urls as [|v urls].
  - exists 0%Z, []. simpl. rewrite app_nil_r. repeat split; try done; try lia.
  - rewrite (proj2 (Z.leb_gt _ _) Hw).
    destruct (run_futures_bounds E (v :: urls) location_name schedule max_workers wd)
      as (more & Hreq & Hlen & Hin & Hlow).
    destruct (run_futures_ended E (v :: urls) location_name schedule max_workers wd)
      as [Hl _].
    destruct (run_futures E schedule (v :: urls) location_name max_workers wd)
      as [ts wd'].
    exists (successful_downloads ts), more. simpl in Hreq, Hl |- *.
    pose proof (successful_bounds ts) as Hb. rewrite Hl in Hb. simpl in Hb.
    rewrite Forall_forall in Hin. repeat split; try done; try lia.
Qed.

(** * One item that fails, in a directory that is there *)

Lemma calm_refl dir wd : calm dir wd wd.
Proof. split; [done|by left]. Qed.

Lemma calm_is_dir dir wd wd' :
  calm dir wd wd' -> is_dir wd dir = true -> is_dir wd' dir = true.
Proof.
  intros [_ [Hf|(q & c & _ & Hq & Hf)]]; unfold is_dir; rewrite Hf; [done|].
  by rewrite lookup_insert_ne.
Qed.

Lemma calm_on_track dir E url content p t wd wd' :
  calm dir wd wd' ->
  on_track E url content p t wd -> on_track E url content p t wd'.
Proof.
  intros [Hreq Hfiles].
  assert (forall q, is_dir wd q = false -> is_dir wd' q = false) as Hnd.
  { intros q. unfold is_dir. destruct Hfiles as [->|(q' & c & _ & _ & ->)]; [done|].
    destruct (decide (q' = q)) as [->|Hne];
      [by rewrite lookup_insert_eq|by rewrite lookup_insert_ne]. }
  assert (forall q, path_exists wd q = true -> path_exists wd' q = true) as Hex.
  { intros q. rewrite !path_exists_lookup.
    destruct Hfiles as [->|(q' & c & _ & _ & ->)]; [done|].
    destruct (decide (q' = q)) as [->|Hne];
      [rewrite lookup_insert_eq; by eexists|by rewrite lookup_insert_ne]. }
  destruct t as [| | |q r|q c|q c|q|ok]; simpl; try done.
  - intros (? & ? & ? & [?|?]); repeat split; try done; [by left|right; by apply Hreq].
  - intros (? & ? & ?). repeat split; try done. by apply Hreq.
  - intros (? & ? & ? & ?). repeat split; try done; [by apply Hreq|by apply Hnd].
  - intros (? & ? & c & Hc & Hq). repeat split; try done; [by apply Hreq|].
    destruct Hfiles as [->|(q' & c' & Hc' & _ & ->)]; [by exists c|].
    destruct (decide (q' = q)) as [->|Hne].
    + exists c'. by rewrite lookup_insert_eq.
    + exists c. by rewrite lookup_insert_ne.
  - intros (? & ? & ?). repeat split; try done; [by apply Hreq|by apply Hex].
Qed.

Lemma answer_next E url r :
  r < 2 ->
  (forall c, get E url r <> Status200 c) ->
  answer E url (seq r (max_retries - r)) = answer E url (seq (S r) (max_retries - S r)).
Proof.
  intros Hr Hget. destruct r as [|[|r]]; try lia; simpl;
    by destruct (get E url _) eqn:Hg; [destruct (Hget content)|..].
Qed.

Lemma answer_last E url r :
  r < max_retries -> ~ r < 2 ->
  (forall c, get E url r <> Status200 c) ->
  answer E url (seq r (max_retries - r)) = None.
Proof.
  unfold max_retries. intros Hr Hr' Hget. assert (r = 2) as -> by lia. simpl.
  by destruct (get E url 2) eqn:Hg; [destruct (Hget content)|..].
Qed.

Lemma answer_now E url r c :
  r < max_retries -> get E url r = Status200 c ->
  answer E url (seq r (max_retries - r)) = Some c.
Proof.
  unfold max_retries. intros Hr Hget.
  destruct r as [|[|[|r]]]; try lia; simpl; by rewrite Hget.
Qed.

Section Isolated.

Variable E : download_env.
Variable location_name : pystr.

(** One move of the task of an item that downloads. *)
Lemma on_track_step url index content p t wd :
  is_dir wd (location_dir E location_name) = true ->
  reachable E url = Some content -> content <> [] ->
  file_path E url location_name index = Some p -> write_fails E p = false ->
  on_track E url content p t wd ->
  calm (location_dir E location_name) wd
    (snd (task_step E url location_name index t wd)) /\
  on_track E url content p (fst (task_step E url location_name index t wd))
    (snd (task_step E url location_name index t wd)).
Proof.
  intros Hd Hr Hne Hp Hw Ht.
  assert (parsed E url location_name index = Fetch p 0) as Hparsed
    by (unfold parsed; by rewrite Hp).
  destruct t as [| | |q r|q c|q c|q|ok]; simpl in *; try done.
  - split; [apply calm_refl|done].
  - rewrite (is_dir_exists _ _ Hd), Hparsed. split; [apply calm_refl|].
    simpl. split; [done|]. split; [unfold max_retries; lia|].
    split; [exact (eq_trans (eq_sym (reachable_answer E url)) Hr)|by left].
  - destruct Ht as (-> & Hlt & Hans & _).
    set (wd' := World (files wd) (requests wd ++ [url]) (saves wd)).
    assert (calm (location_dir E location_name) wd wd') as Hcalm.
    { split; [|by left]. intros u Hu. simpl. set_solver. }
    assert (url ∈ requests wd') as Hin by (simpl; set_solver).
    destruct (get E url r) as [c| |] eqn:Hg; cbn [fst snd]; (split; [done|]).
    + rewrite (answer_now E url r c Hlt Hg) in Hans. injection Hans as ->. done.
    + destruct (Nat.ltb_spec r 2) as [Hlt2|Hge]; simpl.
      * rewrite (answer_next E url r) in Hans
          by (congruence || (unfold max_retries in *; lia)).
        split; [done|]. split; [unfold max_retries in *; lia|].
        split; [done|by right].
      * rewrite (answer_last E url r) in Hans;
          [done|done|unfold max_retries in *; lia|congruence].
    + destruct (Nat.ltb_spec r 2) as [Hlt2|Hge]; simpl.
      * rewrite (answer_next E url r) in Hans
          by (congruence || (unfold max_retries in *; lia)).
        split; [done|]. split; [unfold max_retries in *; lia|].
        split; [done|by right].
      * rewrite (answer_last E url r) in Hans;
          [done|done|unfold max_retries in *; lia|congruence].
  - destruct Ht as (-> & -> & Hin). split; [apply calm_refl|].
    destruct (path_exists wd p) eqn:Hex; simpl; [done|].
    repeat split; try done. apply path_exists_false in Hex. unfold is_dir.
    by rewrite Hex.
  - destruct Ht as (-> & -> & Hin & Hnd).
    rewrite write_file_can by done. simpl.
    assert (p <> location_dir E location_name) as Hpd
      by by apply (file_path_not_dir E url location_name index).
    split.
    + split; [done|]. right. by exists p, content.
    + repeat split; try done. exists content. by rewrite lookup_insert_eq.
  - destruct Ht as (-> & Hin & c & Hc & Hf). split; [apply calm_refl|].
    assert (path_exists wd p = true) as Hex
      by (apply path_exists_lookup; rewrite Hf; by eexists).
    unfold getsize. rewrite Hex, Hf. destruct c; [done|]. by simpl.
  - split; [apply calm_refl|done].
Qed.

(** One move of the task of an item that is never answered. *)
Lemma off_track_step url index t wd :
  is_dir wd (location_dir E location_name) = true ->
  reachable E url = None ->
  off_track E url t ->
  calm (location_dir E location_name) wd
    (snd (task_step E url location_name index t wd)) /\
  off_track E url (fst (task_step E url location_name index t wd)).
Proof.
  intros Hd Hr Ht.
  destruct t as [| | |q r|q c|q c|q|ok]; simpl in *; try done.
  - split; [apply calm_refl|done].
  - rewrite (is_dir_exists _ _ Hd). split; [apply calm_refl|].
    destruct (parsed_cases E location_name url index) as [->|(p & _ & ->)]; [done|].
    simpl. split; [unfold max_retries; lia|].
    exact (eq_trans (eq_sym (reachable_answer E url)) Hr).
  - destruct Ht as (Hlt & Hans).
    assert (calm (location_dir E location_name) wd
              (World (files wd) (requests wd ++ [url]) (saves wd))) as Hcalm.
    { split; [|by left]. intros u Hu. simpl. set_solver. }
    destruct (get E url r) as [c| |] eqn:Hg; cbn [fst snd]; (split; [done|]).
    + by rewrite (answer_now E url r c Hlt Hg) in Hans.
    + destruct (Nat.ltb_spec r 2) as [Hlt2|Hge]; simpl; [|done].
      rewrite (answer_next E url r) in Hans
        by (congruence || (unfold max_retries in *; lia)).
      split; [unfold max_retries in *; lia|done].
    + destruct (Nat.ltb_spec r 2) as [Hlt2|Hge]; simpl; [|done].
      rewrite (answer_next E url r) in Hans
        by (congruence || (unfold max_retries in *; lia)).
      split; [unfold max_retries in *; lia|done].
  - split; [apply calm_refl|done].
Qed.

Variable urls : list pystr.
Variable k : nat.

Lemma isolated_step u p j :
  urls !! k = Some u -> reachable E u = None ->
  isolated E location_name urls k p ->
  isolated E location_name urls k (step_at E urls location_name p j).
Proof.
  intros Hk Hu. revert p j.
  apply (step_at_inv E urls location_name (isolated E location_name urls k)).
  intros ts wd j t url Ht Hurl [Hd Hall]. unfold isolated in *. simpl in *.
  assert (calm (location_dir E location_name) wd
            (snd (task_step E url location_name (Z.of_nat j + 1) t wd)) /\
          if decide (j = k)
          then off_track E url
                 (fst (task_step E url location_name (Z.of_nat j + 1) t wd))
          else exists content filepath,
                 reachable E url = Some content /\ content <> [] /\
                 file_path E url location_name (Z.of_nat j + 1) = Some filepath /\
                 write_fails E filepath = false /\
                 on_track E url content filepath
                   (fst (task_step E url location_name (Z.of_nat j + 1) t wd))
                   (snd (task_step E url location_name (Z.of_nat j + 1) t wd)))
    as [Hcalm Hown].
  { specialize (Hall j t url Ht Hurl). destruct (decide (j = k)) as [->|Hne].
    - rewrite Hk in Hurl. injection Hurl as <-. by apply off_track_step.
    - destruct Hall as (c & p & H1 & H2 & H3 & H4 & H5).
      destruct (on_track_step url (Z.of_nat j + 1) c p t wd) as [? ?]; try done.
      split; [done|]. by exists c, p. }
  split; [by eapply calm_is_dir|].
  intros i t' url' Hi Hurl'.
  apply list_lookup_insert_Some in Hi as [(-> & <- & _)|[Hne Hi]].
  - rewrite Hurl in Hurl'. by injection Hurl' as <-.
  - specialize (Hall i t' url' Hi Hurl'). destruct (decide (i = k)); [done|].
    destruct Hall as (c & p & H1 & H2 & H3 & H4 & H5). exists c, p.
    repeat split; try done. by eapply calm_on_track.
Qed.

End Isolated.

Lemma count_all_succeeded ts :
  (forall j t, ts !! j = Some t -> t = Done true) ->
  length (List.filter succeeded ts) = length ts.
Proof.
  induction ts as [|t ts IH]; intros H; [done|].
  rewrite (H 0 t eq_refl). simpl. f_equal. apply IH.
  intros j t' Hj. by apply (H (S j)).
Qed.

Lemma count_one_failed ts : forall k,
  k < length ts ->
  (forall j t, ts !! j = Some t -> t = Done (negb (bool_decide (j = k)))) ->
  length (List.filter succeeded ts) + 1 = length ts.
Proof.
  induction ts as [|t ts IH]; intros k Hk H; simpl in Hk; [lia|].
  destruct k as [|k].
  - rewrite (H 0 t eq_refl). simpl. rewrite count_all_succeeded; [lia|].
    intros j t' Hj. by rewrite (H (S j) t' Hj).
  - rewrite (H 0 t eq_refl). simpl. rewrite <- (IH k); [lia|lia|].
    intros j t' Hj. rewrite (H (S j) t' Hj). do 2 f_equal.
    apply bool_decide_ext. lia.
Qed.

Lemma one_failure_in_a_made_directory E schedule urls location_name max_workers
    wd (k : nat) u :
  (0 < max_workers)%Z ->
  is_dir wd (location_dir E location_name) = true ->
  urls !! k = Some u ->
  reachable E u = None ->
  (forall (j : nat) url, urls !! j = Some url -> j <> k ->
     item_ok E location_name (Z.of_nat j) url) ->
  fst (download_all_images E schedule urls location_name max_workers wd)
  = Ok (Z.of_nat (length urls) - 1)%Z /\
  (forall i wd', fst (download_image E u location_name i wd') = false) /\
  (forall (j : nat) url, urls !! j = Some url -> j <> k ->
     url ∈ requests (snd (download_all_images E schedule urls location_name
                            max_workers wd)) /\
     exists p, file_path E url location_name (Z.of_nat j + 1) = Some p /\
               path_exists (snd (download_all_images E schedule urls location_name
                                   max_workers wd)) p = true).
Proof.
  intros Hw Hd Hk Hu Hok. unfold download_all_images.
  destruct urls as [|v urls'] eqn:Hurls; [done|]. rewrite <- Hurls in *.
  rewrite (proj2 (Z.leb_gt _ _) Hw).
  pose proof (run_futures_inv E urls location_name
                (isolated E location_name urls k) schedule max_workers wd) as Hinv.
  destruct (run_futures_ended E urls location_name schedule max_workers wd)
    as [Hlen Hend].
  destruct (run_futures E schedule urls location_name max_workers wd) as [ts wd'].
  simpl in Hlen, Hend. destruct Hinv as [Hd' Hall].
  { split; [done|]. intros j t url [-> _]%lookup_replicate Hj. simpl.
    destruct (decide (j = k)); [done|].
    destruct (Hok j url Hj) as (c & p & H1 & H2 & H3 & H4); [done|]. by exists c, p. }
  { intros p j. by apply (isolated_step E location_name urls k u). }
  simpl in Hd', Hall.
  assert (forall j t, ts !! j = Some t -> t = Done (negb (bool_decide (j = k))))
    as Hfinal.
  { intros j t Hj. destruct (proj1 (Forall_lookup _ _) Hend j t Hj) as [ok ->].
    destruct (lookup_lt_is_Some_2 urls j) as [url Hurl];
      [rewrite <- Hlen; by eapply lookup_lt_Some|].
    specialize (Hall j _ url Hj Hurl). destruct (decide (j = k)) as [->|Hne].
    - rewrite bool_decide_eq_true_2 by done. simpl in Hall. by subst ok.
    - rewrite bool_decide_eq_false_2 by done.
      destruct Hall as (c & p & _ & _ & _ & _ & -> & _). done. }
  split; [|split].
  - simpl. f_equal. unfold successful_downloads.
    pose proof (count_one_failed ts k) as Hc. rewrite Hlen in Hc.
    rewrite <- Hc; [lia|by eapply lookup_lt_Some|done].
  - intros i wd0. by apply download_image_unreachable.
  - intros j url Hj Hne. simpl.
    destruct (lookup_lt_is_Some_2 ts j) as [t Ht];
      [rewrite Hlen; by eapply lookup_lt_Some|].
    pose proof (Hfinal j t Ht) as ->. specialize (Hall j _ url Ht Hj).
    rewrite decide_False in Hall by done.
    destruct Hall as (c & p & _ & _ & Hp & _ & _ & Hin & Hex).
    split; [done|by exists p].
Qed.

(** C7: with the directory of "Cafe" not yet made, two workers that both
    find it missing race to make it; the one that loses returns [False]
    without a request, so a batch of two with one URL that is never
    answered ends with the count 0 and the other URL not requested.  The
    same batch with the workers one after the other gives 1.  When the
    directory is there before the batch, a batch in which one item is
    never answered and every other is answered with a body that is not
    empty and can be written gives N - 1 however the workers take their
    turns: every other URL is requested and its file is on disk. *)
Theorem racing_workers_fail_downloads :
  fst (download_all_images one_host_down racing [photo_a; photo_gone]
         (lit "Cafe") 5 nowhere) = Ok 0%Z /\
  requests (snd (download_all_images one_host_down racing [photo_a; photo_gone]
                   (lit "Cafe") 5 nowhere))
  = [photo_gone; photo_gone; photo_gone] /\
  fst (download_all_images one_host_down [] [photo_a; photo_gone]
         (lit "Cafe") 5 nowhere) = Ok 1%Z /\
  (forall E schedule urls location_name max_workers wd (k : nat) u,
     (0 < max_workers)%Z ->
     is_dir wd (location_dir E location_name) = true ->
     urls !! k = Some u ->
     reachable E u = None ->
     (forall (j : nat) url, urls !! j = Some url -> j <> k ->
        item_ok E location_name (Z.of_nat j) url) ->
     fst (download_all_images E schedule urls location_name max_workers wd)
     = Ok (Z.of_nat (length urls) - 1)%Z /\
     (forall i wd', fst (download_image E u location_name i wd') = false) /\
     (forall (j : nat) url, urls !! j = Some url -> j <> k ->
        url ∈ requests (snd (download_all_images E schedule urls location_name
                               max_workers wd)) /\
        exists p, file_path E url location_name (Z.of_nat j + 1) = Some p /\
                  path_exists (snd (download_all_images E schedule urls
                                      location_name max_workers wd)) p = true)).
Proof.
  split; [vm_compute; reflexivity|].
  split; [vm_compute; reflexivity|].
  split; [vm_compute; reflexivity|].
  apply one_failure_in_a_made_directory.
Qed.

(** * A worker that runs alone *)

(** The moves of one call, made with no other call in between, are the
    call of [download_image]. *)
Lemma task_alone_is_download_image E url location_name index wd :
  Nat.iter 8 (fun p => task_step E url location_name index (fst p) (snd p))
    (Start, wd)
  = (Done (fst (download_image E url location_name index wd)),
     snd (download_image E url location_name index wd)).
Proof.
  unfold download_image, download_body, ensure_dir, parsed. simpl.
  destruct (path_exists wd (location_dir E location_name)) eqn:Hd; simpl.
  - unfold parsed.
    destruct (file_path E url location_name index) as [p|]; simpl; [|done].
    destruct (get E url 0); simpl;
      [|destruct (get E url 1); simpl; [|destruct (get E url 2); simpl; [|done..]|
        destruct (get E url 2); simpl; [|done..]]|
       destruct (get E url 1); simpl; [|destruct (get E url 2); simpl; [|done..]|
        destruct (get E url 2); simpl; [|done..]]];
      (destruct (path_exists _ p); simpl; [done|];
       destruct (write_file E _ _ p _); by simpl).
  - destruct (makedirs E wd (location_dir E location_name)) as [wd1|e]; simpl; [|done].
    unfold parsed.
    destruct (file_path E url location_name index) as [p|]; simpl; [|done].
    destruct (get E url 0); simpl;
      [|destruct (get E url 1); simpl; [|destruct (get E url 2); simpl; [|done..]|
        destruct (get E url 2); simpl; [|done..]]|
       destruct (get E url 1); simpl; [|destruct (get E url 2); simpl; [|done..]|
        destruct (get E url 2); simpl; [|done..]]];
      (destruct (path_exists _ p); simpl; [done|];
       destruct (write_file E _ _ p _); by simpl).
Qed.

(** * What an extraction does to the disk *)

Lemma ledgers_only_refl wd : ledgers_only wd wd.
Proof. split; [done|]. intros q. by left. Qed.

Lemma ledgers_only_trans wd1 wd2 wd3 :
  ledgers_only wd1 wd2 -> ledgers_only wd2 wd3 -> ledgers_only wd1 wd3.
Proof.
  intros [Hr1 Hf1] [Hr2 Hf2]. split; [congruence|]. intros q.
  destruct (Hf2 q) as [->|H]; [apply Hf1|by right].
Qed.

Lemma ledgers_only_insert wd m n :
  ledger_node n -> ledgers_only wd (with_files (<[m := n]> (files wd)) wd).
Proof.
  intros Hn. split; [done|]. intros q. simpl.
  destruct (decide (m = q)) as [->|Hne].
  - right. exists n. by rewrite lookup_insert_eq.
  - left. by rewrite lookup_insert_ne.
Qed.

Lemma ensure_dir_ledgers_only E wd p wd1 :
  ensure_dir E wd p = Ok wd1 -> ledgers_only wd wd1.
Proof.
  unfold ensure_dir, makedirs. destruct (path_exists wd p).
  - intros [= <-]. apply ledgers_only_refl.
  - destruct (mkdir_fails E p); [done|]. intros [= <-].
    apply ledgers_only_insert. by left.
Qed.

Lemma create_csv_file_ledgers_only E w location_name wd :
  ledgers_only wd (snd (create_csv_file E w location_name wd)).
Proof.
  unfold create_csv_file.
  destruct (ensure_dir E wd _) as [wd1|e] eqn:Hd; [|apply ledgers_only_refl].
  apply ensure_dir_ledgers_only in Hd.
  unfold write_file.
  destruct (negb _); [done|]. destruct (is_dir wd1 _); [done|].
  destruct (write_fails E _); [done|]. simpl.
  eapply ledgers_only_trans; [done|]. apply ledgers_only_insert. right. by exists [].
Qed.

Lemma save_ledgers_only w p url index wd :
  is_ledger wd p -> ledgers_only wd (snd (save_url_to_csv w p url index wd)).
Proof.
  intros Hl. split; [apply save_requests|]. intros q.
  destruct (decide (q = p)) as [->|Hne]; [|left; by apply save_other].
  right. destruct (save_is_ledger w p url index wd Hl) as [rows Hrows].
  exists (File csv_header rows). split; [done|]. right. by exists rows.
Qed.

Lemma add_new_ledgers_only w p wd0 u h :
  is_ledger (fs h) p /\ ledgers_only wd0 (fs h) ->
  is_ledger (fs (add_new w (Some p) u h)) p /\
  ledgers_only wd0 (fs (add_new w (Some p) u h)).
Proof.
  intros [Hl Ho]. unfold add_new. destruct (decide _); [done|]. simpl.
  split; [by apply save_is_ledger|].
  eapply ledgers_only_trans; [done|]. by apply save_ledgers_only.
Qed.

Lemma save_enumerated_ledgers_only w p urls : forall i wd,
  is_ledger wd p -> ledgers_only wd (save_enumerated w p urls i wd).
Proof.
  induction urls as [|u urls IH]; intros i wd Hl; simpl;
    [apply ledgers_only_refl|].
  eapply ledgers_only_trans; [by apply save_ledgers_only|].
  apply IH. by apply save_is_ledger.
Qed.

Lemma gallery_loop_no_ledger w max_images trace st :
  fs (seen (fst (gallery_loop w None max_images trace st))) = fs (seen st).
Proof.
  apply (gallery_loop_P w None (fun h => fs h = fs (seen st))); [|done].
  intros u h <-. apply add_new_no_ledger.
Qed.

(** An extraction sends no request, and leaves on disk what was there and
    the directory and ledger it made; with no ledger kept it leaves the
    disk as it was. *)
Lemma extract_ledgers_only E w save_csv max_images location_name pg wd :
  ledgers_only wd
    (snd (extract_image_urls E w save_csv max_images location_name pg wd)) /\
  (save_csv = false ->
   snd (extract_image_urls E w save_csv max_images location_name pg wd) = wd).
Proof.
  unfold extract_image_urls, setup_csv.
  destruct (save_csv && bool_decide (location_name <> [])) eqn:Hsave.
  - split; [|intros ->; done].
    pose proof (create_csv_file_ledgers_only E w location_name wd) as Hc.
    destruct (create_csv_file E w location_name wd) as [[p|e] wd1] eqn:Hcreate;
      [|done].
    destruct (create_csv_file_ok _ _ _ _ _ _ Hcreate) as (Hp & _).
    assert (is_ledger wd1 p) as Hl by by exists [].
    simpl in Hc. destruct (in_gallery_view pg); cbn [negb snd].
    + pose proof (gallery_loop_P w (Some p)
                    (fun h => is_ledger (fs h) p /\ ledgers_only wd (fs h))
                    (fun u h => add_new_ledgers_only w p wd u h)
                    max_images (gallery pg) (gallery_start wd1)
                    (conj Hl Hc)) as [_ H].
      by destruct (gallery_loop _ _ _ _ _).
    + destruct (bool_decide (fst (_extract_images_direct w None pg wd1) <> []));
        [|done].
      eapply ledgers_only_trans; [done|]. by apply save_enumerated_ledgers_only.
  - assert (snd (if negb (in_gallery_view pg)
                 then (Some (Ok (fst (_extract_images_direct w None pg wd))), wd)
                 else
                   let '(st, exited) :=
                     gallery_loop w None max_images (gallery pg) (gallery_start wd) in
                   (if exited then Some (Ok (elements (image_urls (seen st))))
                    else None, fs (seen st))) = wd) as ->; [|split; [apply ledgers_only_refl|done]].
    destruct (in_gallery_view pg); simpl; [|done].
    pose proof (gallery_loop_no_ledger w max_images (gallery pg) (gallery_start wd))
      as H.
    by destruct (gallery_loop _ _ _ _ _).
Qed.

(** * The orchestrator *)

Lemma retry_loop_eq E a sessions st :
  retry_loop E a sessions st =
  if decide (attempts st < retry_attempts a)%Z then
    if success st then Some st
    else
      match scrape_location_images E (negb (no_csv a))
              (sessions (invocations st)) (location a) (max_images a)
              (if only_csv a then 0%Z else max_workers a) (disk st) with
      | None => None
      | Some ((success', downloaded_count'), wd') =>
          if success' && ((0 <? downloaded_count')%Z || only_csv a)
          then Some (MainState success' downloaded_count' (attempts st)
                       (S (invocations st)) wd')
          else retry_loop E a sessions
                 (MainState success' downloaded_count'
                    (attempts st + 1) (S (invocations st)) wd')
      end
  else Some st.
Proof.
  rewrite retry_loop_equation_1.
  destruct (Z_lt_dec (attempts st) (retry_attempts a)) as [H|H];
    destruct (decide (attempts st < retry_attempts a)%Z); try lia; [|done].
  rewrite retry_loop_clause_1_equation_1. done.
Qed.

(** Every attempt fails: after [k] more attempts the budget is used up. *)
Lemma retry_loop_all_fail E a sessions :
  (forall n, search_location (sessions n) = false) ->
  forall (k : nat) st,
    success st = false -> downloaded_count st = 0%Z ->
    Z.of_nat k = (retry_attempts a - attempts st)%Z ->
    retry_loop E a sessions st
    = Some (MainState false 0 (retry_attempts a) (invocations st + k) (disk st)).
Proof.
  intros Hnav k. induction k as [|k IH]; intros st Hs Hd Hk; rewrite retry_loop_eq.
  - rewrite decide_False by lia. destruct st as [s d at' i wd]. simpl in *.
    subst s d. repeat f_equal; lia.
  - rewrite decide_True by lia. rewrite Hs.
    unfold scrape_location_images. rewrite Hnav. simpl.
    rewrite IH; simpl; [|done|done|lia].
    repeat f_equal; lia.
Qed.

(** C5: when the navigator never finds the location, [main] calls
    [scrape_location_images] exactly [retry_attempts] times and returns the
    exit code 1. *)
Theorem retries_exactly_bound E a sessions wd :
  (0 <= retry_attempts a)%Z ->
  (forall n, search_location (sessions n) = false) ->
  exists st,
    main E a sessions wd = Some (st, 1%Z) /\
    Z.of_nat (invocations st) = retry_attempts a /\
    success st = false.
Proof.
  intros Hn Hnav. unfold main.
  rewrite (retry_loop_all_fail E a sessions Hnav (Z.to_nat (retry_attempts a)))
    by (simpl; done || lia).
  eexists. split; [reflexivity|]. simpl. split; [lia|done].
Qed.






(** * More on the orchestrator *)

(** X17: with a worker count below zero, an attempt that found images is
    reported as failed with a count of zero; the disk is the one the
    extraction left: nothing is requested, and nothing is written but the
    directory and the ledger of the extraction. *)
Theorem negative_workers_fail_the_attempt E save_csv b location_name max_images
    (max_workers : Z) wd urls wd1 :
  search_location b = true ->
  open_photos_section b = true ->
  extract_image_urls E (ledger_world b) save_csv max_images location_name
    (shown b) wd = (Some (Ok urls), wd1) ->
  urls <> [] ->
  (max_workers < 0)%Z ->
  scrape_location_images E save_csv b location_name max_images max_workers wd
  = Some ((false, 0%Z), wd1) /\
  ledgers_only wd wd1 /\
  (save_csv = false -> wd1 = wd).
Proof.
  intros Hs Ho Hx Hne Hw.
  pose proof (extract_ledgers_only E (ledger_world b) save_csv max_images
                location_name (shown b) wd) as Hl.
  unfold scrape_location_images. rewrite Hs, Ho, Hx in *. simpl in *.
  split; [|done].
  destruct urls as [|u urls]; [done|].
  rewrite bool_decide_eq_false_2 by done.
  rewrite (proj2 (Z.eqb_neq _ _)) by lia.
  unfold download_all_images. by rewrite (proj2 (Z.leb_le _ _)) by lia.
Qed.

(** X18: the count an attempt reports is never negative and never above the
    number of URLs the extraction returned; a failed attempt reports zero. *)
Theorem scrape_count_bounds E save_csv b location_name max_images max_workers
    wd ok (c : Z) wd' :
  scrape_location_images E save_csv b location_name max_images max_workers wd
  = Some ((ok, c), wd') ->
  (0 <= c)%Z /\
  (ok = false -> c = 0%Z) /\
  (forall urls,
     fst (extract_image_urls E (ledger_world b) save_csv max_images location_name
            (shown b) wd) = Some (Ok urls) ->
     (c <= Z.of_nat (length urls))%Z).
Proof.
  unfold scrape_location_images. destruct (negb (search_location b)).
  { intros [= <- <- <-]. repeat split; try done; intros; lia. }
  destruct (negb (open_photos_section b)).
  { intros [= <- <- <-]. repeat split; try done; intros; lia. }
  destruct (extract_image_urls _ _ _ _ _ _ _) as [[[urls|e]|] wd1]; [| |done].
  2:{ intros [= <- <- <-]. repeat split; done. }
  destruct (bool_decide (urls = [])).
  { intros [= <- <- <-]. repeat split; try done; intros; lia. }
  destruct (Z.eqb_spec max_workers 0).
  { intros [= <- <- <-]. repeat split; try done; try lia. by intros ? [= <-]. }
  unfold download_all_images. destruct urls as [|u urls].
  { intros [= <- <- <-]. repeat split; try done; intros; lia. }
  destruct (max_workers <=? 0)%Z.
  { intros [= <- <- <-]. repeat split; try done; intros; lia. }
  destruct (run_futures_ended E (u :: urls) location_name (workers b) max_workers
              wd1) as [Hlen _].
  destruct (run_futures E (workers b) (u :: urls) location_name max_workers wd1)
    as [ts wd2].
  intros [= <- <- <-]. simpl in Hlen.
  pose proof (filter_length_le succeeded ts) as Hle.
  unfold successful_downloads. repeat split; try done; try lia.
  intros ? [= <-]. simpl. lia.
Qed.


Section MoreMain.

Variable E : download_env.
Variable a : args.
Variable sessions : nat -> session.



End MoreMain.



(** * The sanitised name *)

Lemma in_chars_elem_of cs c : in_chars cs c = true <-> c ∈ cs.
Proof.
  unfold in_chars. rewrite existsb_exists. split.
  - intros (x & Hx & ->%N.eqb_eq). by apply list_elem_of_In.
  - intros H. exists c. split; [by apply list_elem_of_In|apply N.eqb_refl].
Qed.

Lemma Forall_rejected (f : N -> bool) (s : pystr) c :
  Forall (fun x => f x = false) s -> f c = true -> c ∉ s.
Proof.
  intros Hs Hc Hin. rewrite List.Forall_forall in Hs.
  apply list_elem_of_In, Hs in Hin. congruence.
Qed.

(** The name of a string with a run of white space inside, part by part. *)
Lemma sanitize_run_parts a w b :
  space_run w ->
  stops Re.is_space (reverse a) -> stops Re.is_space b -> kept a -> kept b ->
  _sanitize_filename (a ++ w ++ b)
  = collapse (lstrip strip_chars (replace_unsafe a))
    ++ 95%N :: collapse (rstrip strip_chars (replace_unsafe b)).
Proof.
  intros [Hne Hw] Ha Hb Hka Hkb.
  destruct (sanitize_sides a w b) as [-> Hs]; try done.
  { by apply replace_unsafe_spaces. }
  by rewrite collapse_run.
Qed.

(** C8: the sanitised name holds none of the nine unsafe characters and no
    white space, and neither starts nor ends with a period or a space.  A
    run of white space inside the string (a character other than white
    space on each side of it, and on each side a character that is
    neither a period nor a space, so that the run is not trimmed with an
    end of the string) gives exactly one underscore: the name is what
    comes of the part before the run, one underscore, and what comes of
    the part after it; it is the name of the string with one underscore
    for the run; and between two words that neither start nor end the
    string with a period the name is the two words with one underscore
    between them.  "St. Louis" becomes "St._Louis", and the place name
    "Café: Déjà Vu?" becomes "Café__Déjà_Vu_". *)
Theorem sanitize_filename_safe :
  (forall s c, c ∈ unsafe_chars -> c ∉ _sanitize_filename s) /\
  (forall s c, Re.is_space c = true -> c ∉ _sanitize_filename s) /\
  (forall s c, c ∈ strip_chars ->
     head (_sanitize_filename s) <> Some c /\
     last (_sanitize_filename s) <> Some c) /\
  (forall a w b,
     space_run w ->
     stops Re.is_space (reverse a) -> stops Re.is_space b -> kept a -> kept b ->
     _sanitize_filename (a ++ w ++ b)
     = collapse (lstrip strip_chars (replace_unsafe a))
       ++ 95%N :: collapse (rstrip strip_chars (replace_unsafe b))) /\
  (forall a w b,
     space_run w ->
     stops Re.is_space (reverse a) -> stops Re.is_space b -> kept a -> kept b ->
     _sanitize_filename (a ++ w ++ b) = _sanitize_filename (a ++ [95%N] ++ b)) /\
  (forall a w b x y,
     word a -> word b -> space_run w ->
     head a = Some x -> x <> 46%N -> last b = Some y -> y <> 46%N ->
     _sanitize_filename (a ++ w ++ b) = a ++ 95%N :: b) /\
  _sanitize_filename (lit "St. Louis") = lit "St._Louis" /\
  _sanitize_filename cafe
  = [67; 97; 102; 233; 95; 95; 68; 233; 106; 224; 95; 86; 117; 95]%N.
Proof.
  split; [|split; [|split; [|split; [|split; [|split; [|split]]]]]].
  - intros s c Hc%in_chars_elem_of.
    by apply (Forall_rejected _ _ _ (sanitize_safe s)).
  - intros s c Hc. by apply (Forall_rejected _ _ _ (sanitize_no_space s)).
  - intros s c Hc%in_chars_elem_of. destruct (sanitize_trimmed s) as [Hh Hl].
    split; intros H.
    + apply stops_head with (c := c) in Hh; [congruence|done].
    + apply stops_reverse_last with (c := c) in Hl; [congruence|done].
  - apply sanitize_run_parts.
  - apply sanitize_inner_run.
  - apply sanitize_words.
  - vm_compute. reflexivity.
  - vm_compute. reflexivity.
Qed.

(** * The normaliser *)

(** C2: the normaliser rewrites a dimension segment to [=w0-h0] (the
    digits that follow the segment belong to it), leaves a URL without such
    a segment unchanged, is idempotent, and gives the same key to two URLs
    that differ only in the digits of the segment. *)
Theorem normalizer_projection :
  (forall pre d1 d2 post,
     digits d1 -> digits d2 ->
     high_res (pre ++ dim_segment d1 d2 ++ post)
     = high_res pre ++ token ++ high_res (drop_while Re.is_decimal post)) /\
  (forall url, ~ has_dim_segment url -> high_res url = url) /\
  (forall url, high_res (high_res url) = high_res url) /\
  (forall pre d1 d2 e1 e2 post,
     digits d1 -> digits d2 -> digits e1 -> digits e2 ->
     high_res (pre ++ dim_segment d1 d2 ++ post)
     = high_res (pre ++ dim_segment e1 e2 ++ post)).
Proof.
  repeat split.
  - apply high_res_segment.
  - apply high_res_unchanged.
  - apply high_res_idempotent.
  - apply high_res_same_key.
Qed.

(** * Further properties of the code *)

(** * More on file names *)

Lemma collapse_length s : length (collapse s) <= length s.
Proof.
  induction s as [s IH] using pystr_length_ind.
  destruct s as [|c s]; [by rewrite collapse_nil|].
  rewrite collapse_cons. pose proof (drop_while_length Re.is_space s) as Hd.
  destruct (Re.is_space c); simpl.
  - specialize (IH (drop_while Re.is_space s) ltac:(simpl; lia)). lia.
  - specialize (IH s ltac:(simpl; lia)). lia.
Qed.

Lemma strip_length cs s : length (strip cs s) <= length s.
Proof.
  unfold strip, rstrip, lstrip. rewrite length_reverse.
  pose proof (drop_while_length (in_chars cs) (reverse (drop_while (in_chars cs) s))) as H1.
  rewrite length_reverse in H1.
  pose proof (drop_while_length (in_chars cs) s). lia.
Qed.

(** X1: the sanitised name is never longer than the name. *)
Theorem sanitize_length s : length (_sanitize_filename s) <= length s.
Proof.
  rewrite sanitize_unfold.
  pose proof (collapse_length (strip (lit ". ") (replace_unsafe s))) as H1.
  pose proof (strip_length (lit ". ") (replace_unsafe s)) as H2.
  assert (length (replace_unsafe s) = length s) as H3
    by (rewrite replace_unsafe_map; apply length_map).
  lia.
Qed.

Lemma drop_while_nil_all f s :
  drop_while f s = [] <-> Forall (fun c => f c = true) s.
Proof.
  induction s as [|c s IH]; simpl; [by split; [constructor|]|].
  destruct (f c) eqn:Hc.
  - rewrite IH. split; [by constructor|by inversion 1].
  - split; [done|]. inversion 1; congruence.
Qed.

Lemma strip_nil_all cs s :
  strip cs s = [] <-> Forall (fun c => in_chars cs c = true) s.
Proof.
  unfold strip, rstrip, lstrip. split.
  - intros H. apply (f_equal reverse) in H. rewrite reverse_involutive in H.
    change (reverse []) with (@nil N) in H.
    apply drop_while_nil_all in H. rewrite Forall_reverse in H.
    pose proof (drop_while_stops (in_chars cs) s) as Hs.
    destruct (drop_while (in_chars cs) s) as [|c t] eqn:Hd.
    + by apply drop_while_nil_all.
    + simpl in Hs. inversion H; congruence.
  - intros H. apply drop_while_nil_all in H as ->. reflexivity.
Qed.

Lemma collapse_nil_inv s : collapse s = [] -> s = [].
Proof. destruct s; [done|]. intros H. by apply collapse_nonempty in H. Qed.

(** X2: the sanitised name is empty exactly for a name made of periods
    and spaces only. *)
Theorem sanitize_empty s :
  _sanitize_filename s = [] <-> forall c, c ∈ s -> c = 46%N \/ c = 32%N.
Proof.
  rewrite sanitize_unfold. split.
  - intros H%collapse_nil_inv%strip_nil_all c Hc.
    rewrite replace_unsafe_map in H. rewrite List.Forall_forall in H.
    apply list_elem_of_In in Hc.
    specialize (H _ (in_map _ _ _ Hc)). simpl in H.
    destruct (in_chars unsafe_chars c); [done|]. by apply strip_chars_spec.
  - intros H. assert (Forall (fun c => in_chars strip_chars c = true) s) as Hall.
    { apply Forall_forall. intros c Hc. by apply strip_chars_spec, H. }
    rewrite replace_unsafe_id.
    + apply strip_nil_all in Hall. unfold strip_chars in Hall. rewrite Hall.
      apply collapse_nil.
    + eapply Forall_impl; [exact Hall|]. intros c [-> | ->]%strip_chars_spec; done.
Qed.

Lemma Forall_false_not_in (f : N -> bool) (s : pystr) :
  Forall (fun c => f c = false) s <-> forall c, c ∈ s -> f c = false.
Proof. by rewrite Forall_forall. Qed.

Lemma trimmed_period s :
  Forall (fun c => Re.is_space c = false) s ->
  trimmed strip_chars s <-> head s <> Some 46%N /\ last s <> Some 46%N.
Proof.
  intros Hs. unfold trimmed. rewrite stops_head, stops_reverse_last.
  assert (forall c, c ∈ s -> in_chars strip_chars c = false <-> c <> 46%N) as Hc.
  { intros c Hin. rewrite Forall_forall in Hs. specialize (Hs c Hin).
    destruct (in_chars strip_chars c) eqn:Hi.
    - apply strip_chars_spec in Hi as [-> | ->]; [by split|done].
    - split; [|done]. intros _ ->. by rewrite (proj2 (strip_chars_spec 46%N)) in Hi; [|left]. }
  split.
  - intros [Hh Hl]. split; intros H; [apply Hh in H|apply Hl in H]; done.
  - intros [Hh Hl]. split; intros c H.
    + apply Hc; [by eapply head_Some_elem_of|congruence].
    + apply Hc; [by eapply last_Some_elem_of|congruence].
Qed.

(** X3: the names [_sanitize_filename] leaves as they are: those with
    no unsafe character and no white space that neither start nor end with
    a period. *)
Theorem sanitize_fixed_points s :
  _sanitize_filename s = s <->
  (forall c, c ∈ s -> in_chars unsafe_chars c = false /\ Re.is_space c = false) /\
  head s <> Some 46%N /\ last s <> Some 46%N.
Proof.
  split.
  - intros Hfix.
    pose proof (sanitize_safe s) as H1. pose proof (sanitize_no_space s) as H2.
    pose proof (sanitize_trimmed s) as H3. rewrite Hfix in H1, H2, H3.
    split; [|by apply trimmed_period].
    intros c Hc. rewrite Forall_forall in H1, H2. auto.
  - intros (Hc & Hh & Hl).
    assert (Forall (fun c => in_chars unsafe_chars c = false) s) as H1
      by (apply Forall_forall; intros c Hin; by apply Hc).
    assert (Forall (fun c => Re.is_space c = false) s) as H2
      by (apply Forall_forall; intros c Hin; by apply Hc).
    rewrite sanitize_unfold, replace_unsafe_id, strip_id, collapse_id; try done.
    by apply trimmed_period.
Qed.

(** * The statements above on concrete runs *)

Lemma cafe_not_empty : lit "Cafe" <> [].
Proof. discriminate. Defined.

Lemma two_step_run_returns :
  extract_image_urls E0 quiet true None (lit "Cafe") two_step_gallery nowhere
  = (Some (Ok [photo_b_key; photo_a_key]), snd two_step_run).
Proof. vm_compute. reflexivity. Defined.

Lemma two_step_run_flaky_returns :
  extract_image_urls E0 first_append_fails true None (lit "Cafe") two_step_gallery
    nowhere
  = (Some (Ok [photo_b_key; photo_a_key]), snd two_step_run_flaky).
Proof. vm_compute. reflexivity. Defined.

Lemma normalizer_projection_witness :
  high_res (lit "p/A" ++ dim_segment (lit "100") (lit "100") ++ lit "-k-no")
  = high_res (lit "p/A" ++ dim_segment (lit "999") (lit "999") ++ lit "-k-no").
Proof.
  assert (digits (lit "100")) as H100.
  { split; [discriminate|]. repeat (constructor; [reflexivity|]). constructor. }
  assert (digits (lit "999")) as H999.
  { split; [discriminate|]. repeat (constructor; [reflexivity|]). constructor. }
  exact (proj2 (proj2 (proj2 normalizer_projection))
           (lit "p/A") (lit "100") (lit "100") (lit "999") (lit "999")
           (lit "-k-no") H100 H100 H999 H999).
Defined.

(** The run of the two-photo gallery: the list returned, the rows of the
    ledger, and what the theorem says of them. *)
Lemma ledger_indices_contiguous_witness :
  ledger (snd two_step_run) cafe_csv
  = [Row 1 photo_a_key []; Row 2 photo_b_key []] /\
  exists csv_path,
    fst (create_csv_file E0 quiet (lit "Cafe") nowhere) = Ok csv_path /\
    NoDup [photo_b_key; photo_a_key] /\
    row_index <$> ledger (snd two_step_run) csv_path
    = seqZ 1 (Z.of_nat (length [photo_b_key; photo_a_key])) /\
    row_url <$> ledger (snd two_step_run) csv_path
    ≡ₚ [photo_b_key; photo_a_key] /\
    (forall raw,
       discovered E0 quiet true None (lit "Cafe") two_step_gallery nowhere raw ->
       high_res raw ∈ [photo_b_key; photo_a_key] /\
       exists r, r ∈ ledger (snd two_step_run) csv_path /\
                 row_url r = high_res raw).
Proof.
  split; [vm_compute; reflexivity|].
  assert (every_row_written quiet) as Hq by (intros n; discriminate).
  exact (ledger_indices_contiguous E0 quiet None (lit "Cafe") two_step_gallery
           nowhere [photo_b_key; photo_a_key] (snd two_step_run)
           cafe_not_empty Hq two_step_run_returns).
Defined.



Lemma retries_exactly_bound_witness :
  exists st,
    main E0 args3 (fun _ => lost_place) nowhere = Some (st, 1%Z) /\
    Z.of_nat (invocations st) = 3%Z /\ success st = false.
Proof.
  assert (0 <= 3)%Z as Hn by lia.
  exact (retries_exactly_bound E0 args3 (fun _ => lost_place) nowhere Hn
           (fun _ => eq_refl)).
Defined.

(** The general part of C7 on a batch of three in a directory that is
    there, under the schedule of the race. *)
Lemma racing_workers_fail_downloads_witness :
  fst (download_all_images one_host_down racing [photo_a; photo_gone; photo_b]
         (lit "Cafe") 5 cafe_made)
  = Ok (Z.of_nat (length [photo_a; photo_gone; photo_b]) - 1)%Z.
Proof.
  assert (0 < 5)%Z as Hw by lia.
  assert (is_dir cafe_made (location_dir one_host_down (lit "Cafe")) = true) as Hd
    by (vm_compute; reflexivity).
  assert (reachable one_host_down photo_gone = None) as Hg
    by (vm_compute; reflexivity).
  assert (forall (j : nat) url,
            [photo_a; photo_gone; photo_b] !! j = Some url -> j <> 1 ->
            item_ok one_host_down (lit "Cafe") (Z.of_nat j) url) as Hok.
  { intros [|[|[|j]]] url Hj Hne; try done; injection Hj as <-;
      exists [255; 216; 255]%N; eexists;
      (split; [vm_compute; reflexivity|]); (split; [discriminate|]);
      (split; [vm_compute; reflexivity|reflexivity]). }
  exact (proj1 (proj2 (proj2 (proj2 racing_workers_fail_downloads)) one_host_down
                  racing [photo_a; photo_gone; photo_b] (lit "Cafe") 5%Z cafe_made 1
                  photo_gone Hw Hd eq_refl Hg Hok)).
Defined.

Lemma sanitize_filename_safe_witness :
  _sanitize_filename (lit "St." ++ lit " " ++ lit "Louis")
  = collapse (lstrip strip_chars (replace_unsafe (lit "St.")))
    ++ 95%N :: collapse (rstrip strip_chars (replace_unsafe (lit "Louis"))).
Proof.
  assert (space_run (lit " ")) as Hw.
  { split; [discriminate|]. constructor; [reflexivity|constructor]. }
  assert (stops Re.is_space (reverse (lit "St."))) as Ha by reflexivity.
  assert (stops Re.is_space (lit "Louis")) as Hb by reflexivity.
  assert (kept (lit "St.")) as Hka by (apply Exists_cons_hd; reflexivity).
  assert (kept (lit "Louis")) as Hkb by (apply Exists_cons_hd; reflexivity).
  exact (proj1 (proj2 (proj2 (proj2 sanitize_filename_safe)))
           (lit "St.") (lit " ") (lit "Louis") Hw Ha Hb Hka Hkb).
Defined.


Lemma extracted_urls_offered_witness :
  harvested (observed two_step_gallery) photo_a_key /\
  high_res photo_a_key = photo_a_key.
Proof.
  assert (photo_a_key ∈ [photo_b_key; photo_a_key]) as Hin
    by (apply list_elem_of_further, list_elem_of_here).
  exact (extracted_urls_offered E0 quiet true None (lit "Cafe") two_step_gallery
           nowhere [photo_b_key; photo_a_key] (snd two_step_run)
           two_step_run_returns photo_a_key Hin).
Defined.

Lemma ledger_rows_under_failures_witness :
  exists csv_path,
    fst (create_csv_file E0 first_append_fails (lit "Cafe") nowhere) = Ok csv_path /\
    (row_index <$> ledger (snd two_step_run_flaky) csv_path)
      `sublist_of` seqZ 1 (Z.of_nat (length [photo_b_key; photo_a_key])) /\
    NoDup (row_url <$> ledger (snd two_step_run_flaky) csv_path) /\
    (forall r, r ∈ ledger (snd two_step_run_flaky) csv_path ->
               row_url r ∈ [photo_b_key; photo_a_key]).
Proof.
  exact (ledger_rows_under_failures E0 first_append_fails None (lit "Cafe")
           two_step_gallery nowhere [photo_b_key; photo_a_key]
           (snd two_step_run_flaky) cafe_not_empty two_step_run_flaky_returns).
Defined.

Lemma extraction_ends_under_cap_witness :
  exists r,
    fst (extract_image_urls E0 quiet false (Some 1%Z) (lit "Cafe")
           thirty_empty_views nowhere) = Some r /\
    (forall e, r = Raise e ->
       fst (setup_csv E0 quiet false (lit "Cafe") nowhere) = Raise e).
Proof.
  assert (30 * 1 <= Z.of_nat (length (gallery thirty_empty_views)))%Z as Hlen
    by (vm_compute; discriminate).
  assert (1 <= 1)%Z as Hm by lia.
  exact (extraction_ends_under_cap E0 quiet false 1 (lit "Cafe")
           thirty_empty_views nowhere eq_refl Hm Hlen).
Defined.

Lemma extraction_ends_on_carousel_witness :
  exists r,
    fst (extract_image_urls E0 quiet false None (lit "Cafe") carousel nowhere)
    = Some r /\
    (forall e, r = Raise e ->
       fst (setup_csv E0 quiet false (lit "Cafe") nowhere) = Raise e) /\
    (forall urls u, r = Ok urls -> u ∈ urls ->
       u ∈ ({[ high_res photo_a ]} : gset pystr)).
Proof.
  assert (forall raw, raw ∈ observed carousel ->
            contains googleusercontent raw = true ->
            high_res raw ∈ ({[ high_res photo_a ]} : gset pystr)) as Hall.
  { apply (proj1 (Forall_forall
               (fun raw => contains googleusercontent raw = true ->
                           high_res raw ∈ ({[ high_res photo_a ]} : gset pystr))
               (observed carousel))).
    apply (bool_decide_unpack _). vm_compute. exact I. }
  assert (30 * (size ({[ high_res photo_a ]} : gset pystr) + 1)
          <= length (gallery carousel)) as Hlen.
  { rewrite size_singleton. vm_compute. lia. }
  exact (extraction_ends_on_carousel E0 quiet false None (lit "Cafe") carousel
           nowhere {[ high_res photo_a ]} eq_refl Hall Hlen).
Defined.

Lemma five_blank_views_end_extraction_witness :
  extract_image_urls E0 quiet true None (lit "Cafe") late_photo nowhere
  = (match fst (setup_csv E0 quiet true (lit "Cafe") nowhere) with
     | Ok _ => Some (Ok [])
     | Raise e => Some (Raise e)
     end,
     snd (setup_csv E0 quiet true (lit "Cafe") nowhere)).
Proof.
  assert (Forall blank (replicate 5 (StepObs [None] (Some []) true))) as Hb.
  { repeat constructor. }
  exact (five_blank_views_end_extraction E0 quiet true None (lit "Cafe") late_photo
           nowhere (replicate 5 (StepObs [None] (Some []) true))
           [StepObs [Some [Shown (Some photo_a)]] None false]
           eq_refl eq_refl eq_refl Hb).
Defined.

Lemma photo_a_downloads :
  fst (download_image one_host_down photo_a (lit "Cafe") 1 nowhere) = true.
Proof. vm_compute. reflexivity. Defined.

Lemma download_success_leaves_file_witness :
  (exists p, file_path one_host_down photo_a (lit "Cafe") 1 = Some p /\
             path_exists
               (snd (download_image one_host_down photo_a (lit "Cafe") 1 nowhere)) p
             = true) /\
  exists content, reachable one_host_down photo_a = Some content.
Proof.
  exact (download_success_leaves_file one_host_down photo_a (lit "Cafe") 1
           nowhere photo_a_downloads).
Defined.

Lemma download_repeat_is_stable_witness :
  let wd1 := snd (download_image one_host_down photo_a (lit "Cafe") 1 nowhere) in
  fst (download_image one_host_down photo_a (lit "Cafe") 1 wd1) = true /\
  files (snd (download_image one_host_down photo_a (lit "Cafe") 1 wd1))
  = files wd1.
Proof.
  exact (download_repeat_is_stable one_host_down photo_a (lit "Cafe") 1
           nowhere photo_a_downloads).
Defined.

Lemma empty_body_leaves_empty_file_witness :
  let wd1 := snd (download_image empty_answers photo_a (lit "Cafe") 1 nowhere) in
  fst (download_image empty_answers photo_a (lit "Cafe") 1 nowhere) = false /\
  files wd1 !! cafe_1 = Some (File [] []) /\
  fst (download_image empty_answers photo_a (lit "Cafe") 1 wd1) = true /\
  files (snd (download_image empty_answers photo_a (lit "Cafe") 1 wd1))
  = files wd1.
Proof.
  assert (file_path empty_answers photo_a (lit "Cafe") 1 = Some cafe_1) as Hf
    by (vm_compute; reflexivity).
  assert (path_exists nowhere cafe_1 = false) as Hp by (vm_compute; reflexivity).
  assert (dir_ready empty_answers (lit "Cafe") nowhere) as Hd
    by (right; split; vm_compute; reflexivity).
  exact (empty_body_leaves_empty_file empty_answers photo_a (lit "Cafe") 1
           nowhere cafe_1 eq_refl Hf Hp eq_refl Hd).
Defined.

Lemma batch_bounds_witness :
  exists n more,
    fst (download_all_images one_host_down racing [photo_a; photo_gone]
           (lit "Cafe") 5 nowhere) = Ok n /\
    (0 <= n <= Z.of_nat (length [photo_a; photo_gone]))%Z /\
    requests (snd (download_all_images one_host_down racing [photo_a; photo_gone]
                     (lit "Cafe") 5 nowhere))
    = requests nowhere ++ more /\
    length more <= 3 * length [photo_a; photo_gone] /\
    (forall u, u ∈ more -> u ∈ [photo_a; photo_gone]) /\
    (path_exists nowhere (location_dir one_host_down (lit "Cafe")) = true ->
     (forall u, u ∈ [photo_a; photo_gone] -> is_Some (url_ext one_host_down u)) ->
     length [photo_a; photo_gone] <= length more).
Proof.
  assert (0 < 5)%Z as Hw by lia.
  exact (batch_bounds one_host_down racing [photo_a; photo_gone] (lit "Cafe") 5
           nowhere Hw).
Defined.

Lemma two_photos_found :
  extract_image_urls E0 (ledger_world two_photo_place) true None (lit "Cafe")
    (shown two_photo_place) nowhere
  = (Some (Ok [photo_b_key; photo_a_key]), snd two_step_run).
Proof. vm_compute. reflexivity. Defined.

Lemma negative_workers_fail_the_attempt_witness :
  scrape_location_images E0 true two_photo_place (lit "Cafe") None (-1) nowhere
  = Some ((false, 0%Z), snd two_step_run) /\
  ledgers_only nowhere (snd two_step_run) /\
  (true = false -> snd two_step_run = nowhere).
Proof.
  assert (-1 < 0)%Z as Hw by lia.
  assert ([photo_b_key; photo_a_key] <> []) as Hne by discriminate.
  exact (negative_workers_fail_the_attempt E0 true two_photo_place
           (lit "Cafe") None (-1) nowhere [photo_b_key; photo_a_key]
           (snd two_step_run) eq_refl eq_refl two_photos_found Hne Hw).
Defined.

Lemma two_photos_scraped :
  scrape_location_images one_host_down true two_photo_place (lit "Cafe") None 5
    nowhere
  = Some ((true, 2%Z),
          snd (download_all_images one_host_down [] [photo_b_key; photo_a_key]
                 (lit "Cafe") 5 (snd two_step_run))).
Proof. vm_compute. reflexivity. Defined.

Lemma scrape_count_bounds_witness :
  (0 <= 2)%Z /\
  (true = false -> 2%Z = 0%Z) /\
  (forall urls,
     fst (extract_image_urls one_host_down (ledger_world two_photo_place) true None
            (lit "Cafe") (shown two_photo_place) nowhere) = Some (Ok urls) ->
     (2 <= Z.of_nat (length urls))%Z).
Proof.
  exact (scrape_count_bounds one_host_down true two_photo_place (lit "Cafe") None
           5 nowhere true 2
           (snd (download_all_images one_host_down [] [photo_b_key; photo_a_key]
                   (lit "Cafe") 5 (snd two_step_run)))
           two_photos_scraped).
Defined.





